(** * sapp: trimmed trace graphs and the bulk saver

    A shallow embedding of [sapp/trimmed_trace_graph.py] and
    [sapp/bulk_saver.py], with the properties of the trimming algorithm and
    of the saving order.

    Python integers are [Z]; a [dict] is a [gmap]; a [set] is a [gset]; a
    [defaultdict(set)] is a [gmap] read with the default [∅]; a Python list
    used as a stack ([pop()] takes the last element) is a Rocq list whose head
    is the Python list's last element.  Code that can raise returns a
    [result]; the [while] loops and the recursion through annotations take
    fuel. *)

From stdpp Require Import gmap strings list fin_maps fin_sets pretty sorting.
From Stdlib Require Import ZArith.

Local Open Scope Z_scope.

(** ** Exceptions *)

Inductive exn : Type :=
| KeyError
| AssertionError
| OutOfFuel.

Inductive result (A : Type) : Type :=
| Ok (a : A)
| Raise (e : exn).

Arguments Ok {A} a.
Arguments Raise {A} e.

Definition bind {A B : Type} (m : result A) (f : A → result B) : result B :=
  match m with
  | Ok a => f a
  | Raise e => Raise e
  end.

Notation "'let*' x ':=' m 'in' k" := (bind m (fun x => k))
  (at level 10, x name, m at level 100, k at level 200, only parsing).

(** [d[k]] on a plain [dict]. *)
Definition getitem `{Countable K} {V : Type} (d : gmap K V) (k : K) : result V :=
  match d !! k with
  | Some v => Ok v
  | None => Raise KeyError
  end.

(** [d[k]] on a [defaultdict(set)], and [d[k].add(v)]. *)
Definition dget `{Countable K} `{Countable V} (d : gmap K (gset V)) (k : K) : gset V :=
  default ∅ (d !! k).

Definition dadd `{Countable K} `{Countable V} (d : gmap K (gset V)) (k : K) (v : V)
  : gmap K (gset V) :=
  <[k := dget d k ∪ {[v]}]> d.

(** A [for] loop whose body can raise. *)
Fixpoint foldM {A S : Type} (f : S → A → result S) (s : S) (l : list A) : result S :=
  match l with
  | [] => Ok s
  | a :: l' => let* s' := f s a in foldM f s' l'
  end.

(** A list comprehension whose element expression can raise. *)
Fixpoint mapR {A B : Type} (f : A → result B) (l : list A) : result (list B) :=
  match l with
  | [] => Ok []
  | a :: l' => let* b := f a in let* bs := mapR f l' in Ok (b :: bs)
  end.

(** ** models.py (the entity records the trimmer reads) *)

Inductive SharedTextKind : Type :=
| SOURCE
| SINK
| MESSAGE
| FILENAME
| CALLABLE
| FEATURE.

Inductive TraceKind : Type :=
| PRECONDITION
| POSTCONDITION.

Global Instance SharedTextKind_eq_dec : EqDecision SharedTextKind.
Proof. solve_decision. Defined.

Global Instance TraceKind_eq_dec : EqDecision TraceKind.
Proof. solve_decision. Defined.

Global Instance TraceKind_countable : Countable TraceKind.
Proof.
  refine (inj_countable' (λ k, match k with PRECONDITION => true | POSTCONDITION => false end)
                         (λ b : bool, if b then PRECONDITION else POSTCONDITION) _).
  intros []; reflexivity.
Defined.

Record SharedText : Type := mkSharedText {
  st_id : Z;
  st_kind : SharedTextKind;
  st_contents : string;
}.

Record Issue : Type := mkIssue {
  issue_id : Z;
  issue_code : Z;
  issue_handle : string;
}.

Record IssueInstance : Type := mkIssueInstance {
  inst_id : Z;
  inst_issue_id : Z;
  inst_filename_id : Z;
  inst_callable_id : Z;
  inst_message_id : Z;
  inst_location : Z;
  min_trace_length_to_sources : Z;
  min_trace_length_to_sinks : Z;
  callable_count : Z;
}.

Record IssueInstanceFixInfo : Type := mkFixInfo {
  fix_info_id : Z;
  fix_info : string;
}.

Record TraceFrame : Type := mkTraceFrame {
  tf_id : Z;
  tf_kind : TraceKind;
  caller_id : Z;
  caller_port : string;
  callee_id : Z;
  callee_port : string;
  tf_filename_id : Z;
  (* rows (caller_leaf, callee_leaf); [None] is Python's [None] *)
  leaf_mapping : option (list (Z * Z));
}.

Record TraceFrameAnnotation : Type := mkAnnotation {
  ann_id : Z;
  ann_trace_frame_id : Z;
  ann_message : string;
}.

Global Instance SharedText_eq_dec : EqDecision SharedText.
Proof. solve_decision. Defined.

Global Instance TraceFrame_eq_dec : EqDecision TraceFrame.
Proof. solve_decision. Defined.

Global Instance IssueInstance_eq_dec : EqDecision IssueInstance.
Proof. solve_decision. Defined.

Global Instance IssueInstance_inhabited : Inhabited IssueInstance :=
  populate (mkIssueInstance 0 0 0 0 0 0 0 0 0).

(** Issue instances are the one entity the trimmer assigns to
    ([_recompute_instance_properties]); they live in an object store, and a
    graph holds references to them.  Every other entity is never assigned to
    and is held by value. *)
Abbreviation ref := nat (only parsing).
Abbreviation heap := (gmap nat IssueInstance) (only parsing).

Definition deref (h : gmap nat IssueInstance) (r : nat) : IssueInstance := h !!! r.

(** ** trace_graph.py: the base graph

    The attributes below are the ones the trimmer reads and writes; entity
    collections are plain dicts keyed by local id, association indexes are
    [defaultdict(set)]s (read extensionally: a key that maps to the empty set
    and an absent key are the same). *)

Record TraceGraph : Type := mkTraceGraph {
  _issues : gmap Z Issue;
  _issue_instances : gmap Z nat;
  _issue_instance_fix_info : gmap Z IssueInstanceFixInfo;
  _trace_frames : gmap Z TraceFrame;
  _shared_texts : gmap Z SharedText;
  _trace_annotations : gmap Z TraceFrameAnnotation;
  (* forward index: (kind, (caller_id, caller_port)) to frame ids *)
  _trace_frames_map : gmap (TraceKind * (Z * string)) (gset Z);
  (* reverse index: (kind, (callee_id, callee_port)) to frame ids *)
  _trace_frames_rev_map : gmap (TraceKind * (Z * string)) (gset Z);
  _trace_frame_leaf_assoc : gmap Z (gset (Z * option Z));
  _trace_frame_issue_instance_assoc : gmap Z (gset Z);
  _issue_instance_trace_frame_assoc : gmap Z (gset Z);
  _issue_instance_shared_text_assoc : gmap Z (gset Z);
  _shared_text_issue_instance_assoc : gmap Z (gset Z);
  _trace_frame_annotation_assoc : gmap Z (gset Z);
  _trace_annotation_trace_frame_assoc : gmap Z (gset Z);
}.

Definition TraceGraph__init__ : TraceGraph :=
  mkTraceGraph ∅ ∅ ∅ ∅ ∅ ∅ ∅ ∅ ∅ ∅ ∅ ∅ ∅ ∅ ∅.

(** Modelled from the spec: [get_text(id)] of the absent trace_graph.py, a
    lookup that fails when the id is absent. *)
Definition get_text (g : TraceGraph) (id : Z) : result string :=
  let* t := getitem (_shared_texts g) id in Ok (st_contents t).

(** Modelled from the spec: [get_trace_frame_from_id(id)] of the absent
    trace_graph.py, a lookup that fails when the id is absent. *)
Definition get_trace_frame_from_id (g : TraceGraph) (id : Z) : result TraceFrame :=
  getitem (_trace_frames g) id.

(** Modelled from the spec: [get_shared_text_by_local_id(id)] of the absent
    trace_graph.py, a lookup by id like the two above. *)
Definition get_shared_text_by_local_id (g : TraceGraph) (id : Z) : result SharedText :=
  getitem (_shared_texts g) id.

(** Modelled from the spec: [get_next_trace_frames(frame)] of the absent
    trace_graph.py, the successor frames in the direction of [frame.kind],
    from the forward adjacency built on the caller/callee linkage: the frames
    whose caller is this frame's callee. *)
Definition get_next_trace_frames (g : TraceGraph) (f : TraceFrame) : result (list TraceFrame) :=
  mapR (getitem (_trace_frames g))
       (elements (dget (_trace_frames_map g) (tf_kind f, (callee_id f, callee_port f)))).

(** Modelled from the spec: [get_incoming_leaf_kinds_of_frame(frame)] of the
    absent trace_graph.py, the leaf identifiers reachable from the frame as
    the leaf association records them. *)
Definition get_incoming_leaf_kinds_of_frame (g : TraceGraph) (f : TraceFrame) : gset Z :=
  set_map fst (dget (_trace_frame_leaf_assoc g) (tf_id f)).

(** Modelled from the spec: [compute_prev_leaf_kinds(current_leaves,
    leaf_mapping)] of the absent trace_graph.py: the leaves of the predecessor
    hop that the translation table maps to a leaf of [current_leaves]; empty
    when no current leaf has a mapped predecessor. *)
Definition compute_prev_leaf_kinds (current_leaves : gset Z) (mapping : list (Z * Z)) : gset Z :=
  list_to_set (map fst (filter (λ row, row.2 ∈ current_leaves) mapping)).

(** Modelled from the spec: [get_issue_instance_shared_texts(instance_id,
    kind)] of the absent trace_graph.py, the texts associated with the
    instance, filtered by kind. *)
Definition get_issue_instance_shared_texts (g : TraceGraph) (instance_id : Z)
    (kind : SharedTextKind) : result (list SharedText) :=
  let* texts := mapR (getitem (_shared_texts g))
                     (elements (dget (_issue_instance_shared_text_assoc g) instance_id)) in
  Ok (filter (λ t, st_kind t = kind) texts).

(** Modelled from the spec: [get_condition_annotations(frame_id)] of the
    absent trace_graph.py, the annotations attached to a frame. *)
Definition get_condition_annotations (g : TraceGraph) (frame_id : Z)
  : result (list TraceFrameAnnotation) :=
  mapR (getitem (_trace_annotations g))
       (elements (dget (_trace_frame_annotation_assoc g) frame_id)).

(** Modelled from the spec: [get_annotation_trace_frames(annotation_id)] of
    the absent trace_graph.py, the child frames of an annotation. *)
Definition get_annotation_trace_frames (g : TraceGraph) (annotation_id : Z)
  : result (list TraceFrame) :=
  mapR (getitem (_trace_frames g))
       (elements (dget (_trace_annotation_trace_frame_assoc g) annotation_id)).

(** Modelled from the spec: [add_issue_instance(instance)] of the absent trace_graph.py
    inserts the instance (the object itself: a reference) and registers it
    under its local id. *)
Definition add_issue_instance (h : gmap nat IssueInstance) (instance : nat) (g : TraceGraph) : TraceGraph :=
  {|
     _issues := _issues g;
     _issue_instances := <[inst_id (deref h instance) := instance]> (_issue_instances g);
     _issue_instance_fix_info := _issue_instance_fix_info g;
     _trace_frames := _trace_frames g;
     _shared_texts := _shared_texts g;
     _trace_annotations := _trace_annotations g;
     _trace_frames_map := _trace_frames_map g;
     _trace_frames_rev_map := _trace_frames_rev_map g;
     _trace_frame_leaf_assoc := _trace_frame_leaf_assoc g;
     _trace_frame_issue_instance_assoc := _trace_frame_issue_instance_assoc g;
     _issue_instance_trace_frame_assoc := _issue_instance_trace_frame_assoc g;
     _issue_instance_shared_text_assoc := _issue_instance_shared_text_assoc g;
     _shared_text_issue_instance_assoc := _shared_text_issue_instance_assoc g;
     _trace_frame_annotation_assoc := _trace_frame_annotation_assoc g;
     _trace_annotation_trace_frame_assoc := _trace_annotation_trace_frame_assoc g |}.

(** Modelled from the spec: [add_issue(issue)] of the absent trace_graph.py inserts the
    issue under its local id. *)
Definition add_issue (issue : Issue) (g : TraceGraph) : TraceGraph :=
  {|
     _issues := <[issue_id issue := issue]> (_issues g);
     _issue_instances := _issue_instances g;
     _issue_instance_fix_info := _issue_instance_fix_info g;
     _trace_frames := _trace_frames g;
     _shared_texts := _shared_texts g;
     _trace_annotations := _trace_annotations g;
     _trace_frames_map := _trace_frames_map g;
     _trace_frames_rev_map := _trace_frames_rev_map g;
     _trace_frame_leaf_assoc := _trace_frame_leaf_assoc g;
     _trace_frame_issue_instance_assoc := _trace_frame_issue_instance_assoc g;
     _issue_instance_trace_frame_assoc := _issue_instance_trace_frame_assoc g;
     _issue_instance_shared_text_assoc := _issue_instance_shared_text_assoc g;
     _shared_text_issue_instance_assoc := _shared_text_issue_instance_assoc g;
     _trace_frame_annotation_assoc := _trace_frame_annotation_assoc g;
     _trace_annotation_trace_frame_assoc := _trace_annotation_trace_frame_assoc g |}.

(** Modelled from the spec: [add_issue_instance_fix_info(instance, fix_info)] of the
    absent trace_graph.py records the fix info of the instance (none or one
    for each instance). *)
Definition add_issue_instance_fix_info (instance : IssueInstance)
    (info : IssueInstanceFixInfo) (g : TraceGraph) : TraceGraph :=
  {|
     _issues := _issues g;
     _issue_instances := _issue_instances g;
     _issue_instance_fix_info := <[inst_id instance := info]> (_issue_instance_fix_info g);
     _trace_frames := _trace_frames g;
     _shared_texts := _shared_texts g;
     _trace_annotations := _trace_annotations g;
     _trace_frames_map := _trace_frames_map g;
     _trace_frames_rev_map := _trace_frames_rev_map g;
     _trace_frame_leaf_assoc := _trace_frame_leaf_assoc g;
     _trace_frame_issue_instance_assoc := _trace_frame_issue_instance_assoc g;
     _issue_instance_trace_frame_assoc := _issue_instance_trace_frame_assoc g;
     _issue_instance_shared_text_assoc := _issue_instance_shared_text_assoc g;
     _shared_text_issue_instance_assoc := _shared_text_issue_instance_assoc g;
     _trace_frame_annotation_assoc := _trace_frame_annotation_assoc g;
     _trace_annotation_trace_frame_assoc := _trace_annotation_trace_frame_assoc g |}.

(** Modelled from the spec: [add_trace_frame(frame)] of the absent trace_graph.py
    inserts the frame under its local id and updates the forward index, keyed
    by the frame's kind and caller, and the reverse index, keyed by its kind
    and callee. *)
Definition add_trace_frame (f : TraceFrame) (g : TraceGraph) : TraceGraph :=
  {|
     _issues := _issues g;
     _issue_instances := _issue_instances g;
     _issue_instance_fix_info := _issue_instance_fix_info g;
     _trace_frames := <[tf_id f := f]> (_trace_frames g);
     _shared_texts := _shared_texts g;
     _trace_annotations := _trace_annotations g;
     _trace_frames_map := dadd (_trace_frames_map g) (tf_kind f, (caller_id f, caller_port f)) (tf_id f);
     _trace_frames_rev_map := dadd (_trace_frames_rev_map g) (tf_kind f, (callee_id f, callee_port f)) (tf_id f);
     _trace_frame_leaf_assoc := _trace_frame_leaf_assoc g;
     _trace_frame_issue_instance_assoc := _trace_frame_issue_instance_assoc g;
     _issue_instance_trace_frame_assoc := _issue_instance_trace_frame_assoc g;
     _issue_instance_shared_text_assoc := _issue_instance_shared_text_assoc g;
     _shared_text_issue_instance_assoc := _shared_text_issue_instance_assoc g;
     _trace_frame_annotation_assoc := _trace_frame_annotation_assoc g;
     _trace_annotation_trace_frame_assoc := _trace_annotation_trace_frame_assoc g |}.

(** Modelled from the spec: [add_trace_annotation(annotation)] of the absent
    trace_graph.py inserts the annotation under its local id and indexes it
    by the frame it is attached to. *)
Definition add_trace_annotation (a : TraceFrameAnnotation) (g : TraceGraph) : TraceGraph :=
  {|
     _issues := _issues g;
     _issue_instances := _issue_instances g;
     _issue_instance_fix_info := _issue_instance_fix_info g;
     _trace_frames := _trace_frames g;
     _shared_texts := _shared_texts g;
     _trace_annotations := <[ann_id a := a]> (_trace_annotations g);
     _trace_frames_map := _trace_frames_map g;
     _trace_frames_rev_map := _trace_frames_rev_map g;
     _trace_frame_leaf_assoc := _trace_frame_leaf_assoc g;
     _trace_frame_issue_instance_assoc := _trace_frame_issue_instance_assoc g;
     _issue_instance_trace_frame_assoc := _issue_instance_trace_frame_assoc g;
     _issue_instance_shared_text_assoc := _issue_instance_shared_text_assoc g;
     _shared_text_issue_instance_assoc := _shared_text_issue_instance_assoc g;
     _trace_frame_annotation_assoc := dadd (_trace_frame_annotation_assoc g) (ann_trace_frame_id a) (ann_id a);
     _trace_annotation_trace_frame_assoc := _trace_annotation_trace_frame_assoc g |}.

(** Modelled from the spec: [add_issue_instance_trace_frame_assoc(instance, frame)] of
    the absent trace_graph.py inserts the join record in the forward index
    (keyed by the instance) and in the reverse index (keyed by the frame). *)
Definition add_issue_instance_trace_frame_assoc (instance : IssueInstance)
    (f : TraceFrame) (g : TraceGraph) : TraceGraph :=
  {|
     _issues := _issues g;
     _issue_instances := _issue_instances g;
     _issue_instance_fix_info := _issue_instance_fix_info g;
     _trace_frames := _trace_frames g;
     _shared_texts := _shared_texts g;
     _trace_annotations := _trace_annotations g;
     _trace_frames_map := _trace_frames_map g;
     _trace_frames_rev_map := _trace_frames_rev_map g;
     _trace_frame_leaf_assoc := _trace_frame_leaf_assoc g;
     _trace_frame_issue_instance_assoc := dadd (_trace_frame_issue_instance_assoc g) (tf_id f) (inst_id instance);
     _issue_instance_trace_frame_assoc := dadd (_issue_instance_trace_frame_assoc g) (inst_id instance) (tf_id f);
     _issue_instance_shared_text_assoc := _issue_instance_shared_text_assoc g;
     _shared_text_issue_instance_assoc := _shared_text_issue_instance_assoc g;
     _trace_frame_annotation_assoc := _trace_frame_annotation_assoc g;
     _trace_annotation_trace_frame_assoc := _trace_annotation_trace_frame_assoc g |}.

(** Modelled from the spec: [add_issue_instance_shared_text_assoc(instance, text)] of
    the absent trace_graph.py inserts the join record in the forward index
    (keyed by the instance) and in the reverse index (keyed by the text). *)
Definition add_issue_instance_shared_text_assoc (instance : IssueInstance)
    (t : SharedText) (g : TraceGraph) : TraceGraph :=
  {|
     _issues := _issues g;
     _issue_instances := _issue_instances g;
     _issue_instance_fix_info := _issue_instance_fix_info g;
     _trace_frames := _trace_frames g;
     _shared_texts := _shared_texts g;
     _trace_annotations := _trace_annotations g;
     _trace_frames_map := _trace_frames_map g;
     _trace_frames_rev_map := _trace_frames_rev_map g;
     _trace_frame_leaf_assoc := _trace_frame_leaf_assoc g;
     _trace_frame_issue_instance_assoc := _trace_frame_issue_instance_assoc g;
     _issue_instance_trace_frame_assoc := _issue_instance_trace_frame_assoc g;
     _issue_instance_shared_text_assoc := dadd (_issue_instance_shared_text_assoc g) (inst_id instance) (st_id t);
     _shared_text_issue_instance_assoc := dadd (_shared_text_issue_instance_assoc g) (st_id t) (inst_id instance);
     _trace_frame_annotation_assoc := _trace_frame_annotation_assoc g;
     _trace_annotation_trace_frame_assoc := _trace_annotation_trace_frame_assoc g |}.

(** Modelled from the spec: [add_trace_frame_leaf_assoc(frame, leaf, depth)] of the
    absent trace_graph.py records the triple (trace_frame, leaf, depth) under
    the frame. *)
Definition add_trace_frame_leaf_assoc (f : TraceFrame) (leaf : SharedText)
    (depth : option Z) (g : TraceGraph) : TraceGraph :=
  {|
     _issues := _issues g;
     _issue_instances := _issue_instances g;
     _issue_instance_fix_info := _issue_instance_fix_info g;
     _trace_frames := _trace_frames g;
     _shared_texts := _shared_texts g;
     _trace_annotations := _trace_annotations g;
     _trace_frames_map := _trace_frames_map g;
     _trace_frames_rev_map := _trace_frames_rev_map g;
     _trace_frame_leaf_assoc := dadd (_trace_frame_leaf_assoc g) (tf_id f) (st_id leaf, depth);
     _trace_frame_issue_instance_assoc := _trace_frame_issue_instance_assoc g;
     _issue_instance_trace_frame_assoc := _issue_instance_trace_frame_assoc g;
     _issue_instance_shared_text_assoc := _issue_instance_shared_text_assoc g;
     _shared_text_issue_instance_assoc := _shared_text_issue_instance_assoc g;
     _trace_frame_annotation_assoc := _trace_frame_annotation_assoc g;
     _trace_annotation_trace_frame_assoc := _trace_annotation_trace_frame_assoc g |}.

(** Modelled from the spec: [add_trace_frame_annotation_trace_frame_assoc(annotation,
    frame)] of the absent trace_graph.py links an annotation to a child
    frame. *)
Definition add_trace_frame_annotation_trace_frame_assoc
    (a : TraceFrameAnnotation) (f : TraceFrame) (g : TraceGraph) : TraceGraph :=
  {|
     _issues := _issues g;
     _issue_instances := _issue_instances g;
     _issue_instance_fix_info := _issue_instance_fix_info g;
     _trace_frames := _trace_frames g;
     _shared_texts := _shared_texts g;
     _trace_annotations := _trace_annotations g;
     _trace_frames_map := _trace_frames_map g;
     _trace_frames_rev_map := _trace_frames_rev_map g;
     _trace_frame_leaf_assoc := _trace_frame_leaf_assoc g;
     _trace_frame_issue_instance_assoc := _trace_frame_issue_instance_assoc g;
     _issue_instance_trace_frame_assoc := _issue_instance_trace_frame_assoc g;
     _issue_instance_shared_text_assoc := _issue_instance_shared_text_assoc g;
     _shared_text_issue_instance_assoc := _shared_text_issue_instance_assoc g;
     _trace_frame_annotation_assoc := _trace_frame_annotation_assoc g;
     _trace_annotation_trace_frame_assoc := dadd (_trace_annotation_trace_frame_assoc g) (ann_id a) (tf_id f) |}.

(** Modelled from the spec: [add_shared_text(text)] of the absent
    trace_graph.py inserts the text under its local id, and is a no-op when
    an entry with identical (kind, contents) already exists. *)
Definition add_shared_text (t : SharedText) (g : TraceGraph) : TraceGraph :=
  if existsb (λ t', bool_decide (st_kind t' = st_kind t ∧ st_contents t' = st_contents t))
             (map snd (map_to_list (_shared_texts g)))
  then g
  else
  {|
     _issues := _issues g;
     _issue_instances := _issue_instances g;
     _issue_instance_fix_info := _issue_instance_fix_info g;
     _trace_frames := _trace_frames g;
     _shared_texts := <[st_id t := t]> (_shared_texts g);
     _trace_annotations := _trace_annotations g;
     _trace_frames_map := _trace_frames_map g;
     _trace_frames_rev_map := _trace_frames_rev_map g;
     _trace_frame_leaf_assoc := _trace_frame_leaf_assoc g;
     _trace_frame_issue_instance_assoc := _trace_frame_issue_instance_assoc g;
     _issue_instance_trace_frame_assoc := _issue_instance_trace_frame_assoc g;
     _issue_instance_shared_text_assoc := _issue_instance_shared_text_assoc g;
     _shared_text_issue_instance_assoc := _shared_text_issue_instance_assoc g;
     _trace_frame_annotation_assoc := _trace_frame_annotation_assoc g;
     _trace_annotation_trace_frame_assoc := _trace_annotation_trace_frame_assoc g |}.

(** ** trimmed_trace_graph.py *)

(** [class TrimmedTraceGraph(TraceGraph)]: the inherited graph and the three
    attributes of [__init__]. *)
Record TrimmedTraceGraph : Type := mkTrimmed {
  tg : TraceGraph;
  _affected_files : list string;
  _affected_issues_only : bool;
  _visited_trace_frame_ids : gset Z;
}.

Definition TrimmedTraceGraph__init__ (affected_files : list string)
    (affected_issues_only : bool) : TrimmedTraceGraph :=
  mkTrimmed TraceGraph__init__ affected_files affected_issues_only ∅.

(** A method of the base class called on [self]. *)
Definition on_tg (f : TraceGraph → TraceGraph) (self : TrimmedTraceGraph) : TrimmedTraceGraph :=
  {| tg := f (tg self);
     _affected_files := _affected_files self;
     _affected_issues_only := _affected_issues_only self;
     _visited_trace_frame_ids := _visited_trace_frame_ids self |}.

Definition set_visited (v : gset Z) (self : TrimmedTraceGraph) : TrimmedTraceGraph :=
  {| tg := tg self;
     _affected_files := _affected_files self;
     _affected_issues_only := _affected_issues_only self;
     _visited_trace_frame_ids := v |}.

(** A comprehension with a condition that can raise. *)
Fixpoint filterR {A : Type} (p : A → result bool) (l : list A) : result (list A) :=
  match l with
  | [] => Ok []
  | a :: l' =>
      let* b := p a in
      let* r := filterR p l' in
      Ok (if b then a :: r else r)
  end.

(** [any(filename.startswith(p) for p in prefixes)] *)
Definition _is_filename_prefixed_with (filename : string) (prefixes : list string) : bool :=
  existsb (λ p, String.prefix p filename) prefixes.

Definition _get_min_leaf_depth (self : TraceGraph) (first_hop_tf_ids : gset Z) : result Z :=
  let* min_depth :=
    foldM (λ (min_depth : option Z) (tf_id : Z),
      let leaf_depths := dget (_trace_frame_leaf_assoc self) tf_id in
      foldM (λ (min_depth : option Z) (row : Z * option Z),
        let* text := get_shared_text_by_local_id self row.1 in
        let kind := st_kind text in
        if bool_decide (kind = SOURCE ∨ kind = SINK) then
          match row.2 with
          | Some depth =>
              match min_depth with
              | None => Ok (Some depth)
              | Some m => if depth <? m then Ok (Some depth) else Ok min_depth
              end
          | None => Ok min_depth
          end
        else Ok min_depth)
      min_depth (elements leaf_depths))
    None (elements first_hop_tf_ids) in
  match min_depth with
  | Some m => Ok m
  | None => Ok 0
  end.

(** The first hops of an instance in [self] whose frame has the given kind. *)
Definition first_hops_of_kind (self : TraceGraph) (instance_id : Z) (kind : TraceKind)
  : result (gset Z) :=
  let* ids := filterR (λ tf_id, let* f := get_trace_frame_from_id self tf_id in
                                Ok (bool_decide (tf_kind f = kind)))
                      (elements (dget (_issue_instance_trace_frame_assoc self) instance_id)) in
  Ok (list_to_set ids).

Definition _get_min_depth_to_sources (self : TraceGraph) (instance_id : Z) : result Z :=
  let* first_hop_tf_ids := first_hops_of_kind self instance_id POSTCONDITION in
  _get_min_leaf_depth self first_hop_tf_ids.

Definition _get_min_depth_to_sinks (self : TraceGraph) (instance_id : Z) : result Z :=
  let* first_hop_tf_ids := first_hops_of_kind self instance_id PRECONDITION in
  _get_min_leaf_depth self first_hop_tf_ids.

(** Attribute assignments on an issue instance object. *)
Definition set_min_trace_length_to_sources (v : Z) (i : IssueInstance) : IssueInstance :=
  mkIssueInstance (inst_id i) (inst_issue_id i) (inst_filename_id i) (inst_callable_id i)
    (inst_message_id i) (inst_location i) v (min_trace_length_to_sinks i) (callable_count i).

Definition set_min_trace_length_to_sinks (v : Z) (i : IssueInstance) : IssueInstance :=
  mkIssueInstance (inst_id i) (inst_issue_id i) (inst_filename_id i) (inst_callable_id i)
    (inst_message_id i) (inst_location i) (min_trace_length_to_sources i) v (callable_count i).

Definition set_callable_count (v : Z) (i : IssueInstance) : IssueInstance :=
  mkIssueInstance (inst_id i) (inst_issue_id i) (inst_filename_id i) (inst_callable_id i)
    (inst_message_id i) (inst_location i) (min_trace_length_to_sources i)
    (min_trace_length_to_sinks i) v.

(** [self._issue_instances.values()] and [.keys()] *)
Definition instance_values (g : TraceGraph) : list nat := (map_to_list (_issue_instances g)).*2.
Definition instance_keys (g : TraceGraph) : list Z := (map_to_list (_issue_instances g)).*1.

(** [Counter(inst.callable_id.local_id for inst in self._issue_instances.values())],
    read at a key. *)
Definition callables_histo (h : gmap nat IssueInstance) (self : TraceGraph) (callable : Z) : Z :=
  Z.of_nat (length (filter (λ r, inst_callable_id (deref h r) = callable) (instance_values self))).

(** One iteration of the loop of [_recompute_instance_properties]. *)
Definition recompute_instance (self : TraceGraph) (histo : Z → Z)
    (h : gmap nat IssueInstance) (inst : nat) : result (gmap nat IssueInstance) :=
  let* to_sources := _get_min_depth_to_sources self (inst_id (deref h inst)) in
  let h := <[inst := set_min_trace_length_to_sources to_sources (deref h inst)]> h in
  let* to_sinks := _get_min_depth_to_sinks self (inst_id (deref h inst)) in
  let h := <[inst := set_min_trace_length_to_sinks to_sinks (deref h inst)]> h in
  Ok (<[inst := set_callable_count (histo (inst_callable_id (deref h inst))) (deref h inst)]> h).

Definition _recompute_instance_properties (h : gmap nat IssueInstance) (self : TraceGraph)
  : result (gmap nat IssueInstance) :=
  let histo := callables_histo h self in
  foldM (recompute_instance self histo) h (instance_values self).

(** [k in d] *)
Definition mem `{Countable K} {V : Type} (k : K) (d : gmap K V) : bool :=
  match d !! k with
  | Some _ => true
  | None => false
  end.

Section Trimmer.

(** The object store and the source graph ([graph] in the source), both only
    read while [self] is populated. *)
Context (h : gmap nat IssueInstance) (graph : TraceGraph).

Definition _populate_shared_text (self : TrimmedTraceGraph) (id : Z) : result TrimmedTraceGraph :=
  let* text := getitem (_shared_texts graph) id in
  if mem (st_id text) (_shared_texts (tg self)) then Ok self
  else Ok (on_tg (add_shared_text text) self).

Definition _get_sink_kinds (instance_id : Z) : result (gset Z) :=
  let* sinks := get_issue_instance_shared_texts graph instance_id SINK in
  Ok (list_to_set (map st_id sinks)).

Definition _get_source_kinds (instance_id : Z) : result (gset Z) :=
  let* sources := get_issue_instance_shared_texts graph instance_id SOURCE in
  Ok (list_to_set (map st_id sources)).

Definition _get_instance_leaf_ids (instance_id : Z) : result (gset Z) :=
  let* sources := _get_source_kinds instance_id in
  let* sinks := _get_sink_kinds instance_id in
  Ok (sources ∪ sinks).

Definition _get_issue_instances_from_frame_id (trace_frame_id : Z) : gset Z :=
  dget (_trace_frame_issue_instance_assoc graph) trace_frame_id.

Definition _get_predecessor_frames (leaves : gset Z) (trace_frame : TraceFrame)
  : result (list (TraceFrame * gset Z)) :=
  mapR (λ trace_frame_id,
          let* predecessor := getitem (_trace_frames graph) trace_frame_id in
          match leaf_mapping predecessor with
          | None => Raise AssertionError
          | Some mapping => Ok (predecessor, compute_prev_leaf_kinds leaves mapping)
          end)
       (elements (dget (_trace_frames_rev_map graph)
                       (tf_kind trace_frame, (caller_id trace_frame, caller_port trace_frame)))).

Definition _populate_issue (self : TrimmedTraceGraph) (instance_id : Z)
  : result TrimmedTraceGraph :=
  let* instance := getitem (_issue_instances graph) instance_id in
  let* issue := getitem (_issues graph) (inst_issue_id (deref h instance)) in
  let* self := _populate_shared_text self (inst_message_id (deref h instance)) in
  let* self := _populate_shared_text self (inst_filename_id (deref h instance)) in
  let* self := _populate_shared_text self (inst_callable_id (deref h instance)) in
  let self := on_tg (add_issue_instance h instance) self in
  let self := on_tg (add_issue issue) self in
  let self :=
    match _issue_instance_fix_info graph !! instance_id with
    | Some issue_fix_info =>
        on_tg (add_issue_instance_fix_info (deref h instance) issue_fix_info) self
    | None => self
    end in
  foldM (λ self shared_text_id,
           let* shared_text := getitem (_shared_texts graph) shared_text_id in
           let self := if mem shared_text_id (_shared_texts (tg self)) then self
                       else on_tg (add_shared_text shared_text) self in
           Ok (on_tg (add_issue_instance_shared_text_assoc (deref h instance) shared_text) self))
        self (elements (dget (_issue_instance_shared_text_assoc graph) instance_id)).

(** [_add_trace_annotation] and [_add_trace_frame] call back into
    [_populate_trace]; they are written over the callback [populate_trace],
    which the fixpoint below instantiates with itself at less fuel. *)
Definition _add_trace_annotation_with
    (populate_trace : TrimmedTraceGraph → list Z → result TrimmedTraceGraph)
    (self : TrimmedTraceGraph) (annotation : TraceFrameAnnotation) : result TrimmedTraceGraph :=
  let self := on_tg (add_trace_annotation annotation) self in
  let* children := get_annotation_trace_frames graph (ann_id annotation) in
  let child_ids := rev (map tf_id children) in
  let self := foldl (λ self child,
                       on_tg (add_trace_frame_annotation_trace_frame_assoc annotation child) self)
                    self children in
  populate_trace self child_ids.

Definition _add_trace_frame_with
    (populate_trace : TrimmedTraceGraph → list Z → result TrimmedTraceGraph)
    (self : TrimmedTraceGraph) (trace_frame : TraceFrame) : result TrimmedTraceGraph :=
  let trace_frame_id := tf_id trace_frame in
  let self := on_tg (add_trace_frame trace_frame) self in
  let* annotations := get_condition_annotations graph trace_frame_id in
  let* self := foldM (_add_trace_annotation_with populate_trace) self annotations in
  let* self := _populate_shared_text self (tf_filename_id trace_frame) in
  let* self := _populate_shared_text self (caller_id trace_frame) in
  let* self := _populate_shared_text self (callee_id trace_frame) in
  foldM (λ self (row : Z * option Z),
           let* leaf := getitem (_shared_texts graph) row.1 in
           let self := if mem row.1 (_shared_texts (tg self)) then self
                       else on_tg (add_shared_text leaf) self in
           Ok (on_tg (add_trace_frame_leaf_assoc trace_frame leaf row.2) self))
        self (elements (dget (_trace_frame_leaf_assoc graph) trace_frame_id)).

(** [trace_frame_ids] is the work list, its head the Python list's last
    element.  Fuel is spent by an iteration of the [while] loop and by a
    call through an annotation. *)
Fixpoint _populate_trace (fuel : nat) (self : TrimmedTraceGraph) (trace_frame_ids : list Z)
  : result TrimmedTraceGraph :=
  match trace_frame_ids with
  | [] => Ok self
  | trace_frame_id :: trace_frame_ids =>
      match fuel with
      | O => Raise OutOfFuel
      | S fuel =>
          if bool_decide (trace_frame_id ∈ _visited_trace_frame_ids self)
          then _populate_trace fuel self trace_frame_ids
          else
            let* trace_frame := getitem (_trace_frames graph) trace_frame_id in
            let* self := _add_trace_frame_with (_populate_trace fuel) self trace_frame in
            let self := set_visited (_visited_trace_frame_ids self ∪ {[trace_frame_id]}) self in
            let* next_frames := get_next_trace_frames graph trace_frame in
            let next_ids :=
              filter (λ id, id ∉ _visited_trace_frame_ids self) (map tf_id next_frames) in
            _populate_trace fuel self (rev next_ids ++ trace_frame_ids)
      end
  end.

Definition _add_trace_annotation (fuel : nat) :=
  _add_trace_annotation_with (_populate_trace fuel).

Definition _add_trace_frame (fuel : nat) :=
  _add_trace_frame_with (_populate_trace fuel).

Definition _populate_issue_trace (fuel : nat) (self : TrimmedTraceGraph) (instance_id : Z)
    (kind : option TraceKind) : result TrimmedTraceGraph :=
  let trace_frame_ids := elements (dget (_issue_instance_trace_frame_assoc graph) instance_id) in
  let* instance := getitem (_issue_instances graph) instance_id in
  let* r :=
    foldM (λ (acc : TrimmedTraceGraph * list Z) trace_frame_id,
             let* frame := getitem (_trace_frames graph) trace_frame_id in
             if bool_decide (kind = None ∨ kind = Some (tf_kind frame))
             then Ok (on_tg (add_issue_instance_trace_frame_assoc (deref h instance) frame) acc.1,
                      trace_frame_id :: acc.2)
             else Ok acc)
          (self, []) trace_frame_ids in
  _populate_trace fuel r.1 r.2.

Definition _populate_issue_and_traces (fuel : nat) (self : TrimmedTraceGraph) (instance_id : Z)
  : result TrimmedTraceGraph :=
  let* self := _populate_issue self instance_id in
  _populate_issue_trace fuel self instance_id None.

(** The list [affected_instance_ids] of [_populate_affected_issues]. *)
Definition affected_instance_ids (affected_files : list string) : result (list Z) :=
  let* instances :=
    filterR (λ instance,
               let* filename := get_text graph (inst_filename_id (deref h instance)) in
               Ok (_is_filename_prefixed_with filename affected_files))
            (instance_values graph) in
  Ok (map (λ instance, inst_id (deref h instance)) instances).

Definition _populate_affected_issues (fuel : nat) (self : TrimmedTraceGraph)
  : result TrimmedTraceGraph :=
  let* ids := affected_instance_ids (_affected_files self) in
  foldM (λ self instance_id,
           if mem instance_id (_issue_instances (tg self)) then Ok self
           else _populate_issue_and_traces fuel self instance_id)
        self ids.

(** The list [initial_trace_frames] of
    [_populate_issues_from_affected_trace_frames]. *)
Definition initial_trace_frames (affected_files : list string) : result (list TraceFrame) :=
  filterR (λ trace_frame,
             let* filename := get_text graph (tf_filename_id trace_frame) in
             Ok (_is_filename_prefixed_with filename affected_files))
          (map_to_list (_trace_frames graph)).*2.

(** The state of the [while] loop of [_populate_issues_from_affected_conditions]:
    the graph being populated, [visited] and [que]. *)
Record search_state : Type := mkSearch {
  s_self : TrimmedTraceGraph;
  s_visited : gmap Z (gset Z);
  s_que : list (TraceFrame * gset Z);
}.

(** The body of [for instance_id in self._get_issue_instances_from_frame_id(...)]. *)
Definition _visit_instance (condition : TraceFrame) (leaves : gset Z)
    (self : TrimmedTraceGraph) (instance_id : Z) : result TrimmedTraceGraph :=
  let* instance := getitem (_issue_instances graph) instance_id in
  let* issue_leaves := _get_instance_leaf_ids (inst_id (deref h instance)) in
  let common_leaves := issue_leaves ∩ leaves in
  if bool_decide (0 < size common_leaves)%nat then
    let* self := if mem instance_id (_issue_instances (tg self)) then Ok self
                 else _populate_issue self instance_id in
    Ok (on_tg (add_issue_instance_trace_frame_assoc (deref h instance) condition) self)
  else Ok self.

(** The loop body after the [visited] bookkeeping: the hits of the condition,
    then its predecessors. *)
Definition _expand (self : TrimmedTraceGraph) (visited : gmap Z (gset Z))
    (que : list (TraceFrame * gset Z)) (condition : TraceFrame) (leaves : gset Z)
  : result search_state :=
  let* self := foldM (_visit_instance condition leaves) self
                     (elements (_get_issue_instances_from_frame_id (tf_id condition))) in
  let* preds := _get_predecessor_frames leaves condition in
  let pushed := filter (λ p, (0 < size p.2)%nat) preds in
  Ok (mkSearch self visited (rev pushed ++ que)).

(** One iteration of the [while] loop, on a non-empty [que]. *)
Definition _search_step (st : search_state) : result search_state :=
  match s_que st with
  | [] => Ok st
  | (condition, leaves) :: que =>
      let cond_id := tf_id condition in
      match s_visited st !! cond_id with
      | Some seen =>
          let leaves := leaves ∖ seen in
          if bool_decide (size leaves = 0%nat)
          then Ok (mkSearch (s_self st) (s_visited st) que)
          else _expand (s_self st) (<[cond_id := seen ∪ leaves]> (s_visited st)) que
                       condition leaves
      | None =>
          _expand (s_self st) (<[cond_id := leaves]> (s_visited st)) que condition leaves
      end
  end.

(** [while len(que) > 0: ...] *)
Fixpoint _search_loop (fuel : nat) (st : search_state) : result search_state :=
  match s_que st with
  | [] => Ok st
  | _ :: _ =>
      match fuel with
      | O => Raise OutOfFuel
      | S fuel => let* st := _search_step st in _search_loop fuel st
      end
  end.

(** The initial [que] of the search. *)
Definition initial_que (initial_conditions : list TraceFrame) : list (TraceFrame * gset Z) :=
  rev (map (λ frame, (frame, get_incoming_leaf_kinds_of_frame graph frame)) initial_conditions).

(** The backward search of [_populate_issues_from_affected_conditions], up to
    the end of its [while] loop. *)
Definition backward_search (fuel : nat) (self : TrimmedTraceGraph)
    (initial_conditions : list TraceFrame) : result search_state :=
  _search_loop fuel (mkSearch self ∅ (initial_que initial_conditions)).

Definition _populate_issues_from_affected_conditions (fuel : nat) (self : TrimmedTraceGraph)
    (initial_conditions : list TraceFrame) : result TrimmedTraceGraph :=
  let* st := backward_search fuel self initial_conditions in
  let initial_condition_ids := rev (map tf_id initial_conditions) in
  let* self := _populate_trace fuel (s_self st) initial_condition_ids in
  foldM (λ self frame_id,
           let* frame := getitem (_trace_frames graph) frame_id in
           _add_trace_frame fuel self frame)
        self (map_to_list (s_visited st)).*1.

Definition _populate_issues_from_affected_trace_frames (fuel : nat) (self : TrimmedTraceGraph)
  : result TrimmedTraceGraph :=
  let* initial := initial_trace_frames (_affected_files self) in
  _populate_issues_from_affected_conditions fuel self initial.

(** The body of the repair loop of [populate_from_trace_graph]. *)
Definition repair_instance (fuel : nat) (self : TrimmedTraceGraph) (instance_id : Z)
  : result TrimmedTraceGraph :=
  let* fwd_trace_ids := first_hops_of_kind (tg self) instance_id POSTCONDITION in
  let* bwd_trace_ids := first_hops_of_kind (tg self) instance_id PRECONDITION in
  let* self := if bool_decide (size fwd_trace_ids = 0%nat)
               then _populate_issue_trace fuel self instance_id (Some POSTCONDITION)
               else Ok self in
  if bool_decide (size bwd_trace_ids = 0%nat)
  then _populate_issue_trace fuel self instance_id (Some PRECONDITION)
  else Ok self.

(** Steps 1 to 4 of [populate_from_trace_graph]: everything before
    [_recompute_instance_properties]. *)
Definition populate_graph (fuel : nat) (self : TrimmedTraceGraph) : result TrimmedTraceGraph :=
  let self := set_visited ∅ self in
  let* self := _populate_affected_issues fuel self in
  if _affected_issues_only self then Ok self
  else
    let* self := _populate_issues_from_affected_trace_frames fuel self in
    foldM (repair_instance fuel) self (instance_keys (tg self)).

(** The result is the object store after the run and the populated graph. *)
Definition populate_from_trace_graph (fuel : nat) (self : TrimmedTraceGraph)
  : result (gmap nat IssueInstance * TrimmedTraceGraph) :=
  let* self := populate_graph fuel self in
  let* h' := _recompute_instance_properties h (tg self) in
  Ok (h', self).

End Trimmer.

(** ** bulk_saver.py *)

Module BulkSaver.

(** The model classes of [SAVING_CLASSES_ORDER], and [Run], a model class that
    is saved through the session and not in bulk. *)
Inductive model : Type :=
| SharedText
| Issue
| IssueInstanceFixInfo
| IssueInstance
| IssueInstanceSharedTextAssoc
| TraceFrame
| IssueInstanceTraceFrameAssoc
| TraceFrameAnnotation
| TraceFrameLeafAssoc
| TraceFrameAnnotationTraceFrameAssoc
| Run.

Global Instance model_eq_dec : EqDecision model.
Proof. solve_decision. Defined.

Definition __name__ (cls : model) : string :=
  match cls with
  | SharedText => "SharedText"
  | Issue => "Issue"
  | IssueInstanceFixInfo => "IssueInstanceFixInfo"
  | IssueInstance => "IssueInstance"
  | IssueInstanceSharedTextAssoc => "IssueInstanceSharedTextAssoc"
  | TraceFrame => "TraceFrame"
  | IssueInstanceTraceFrameAssoc => "IssueInstanceTraceFrameAssoc"
  | TraceFrameAnnotation => "TraceFrameAnnotation"
  | TraceFrameLeafAssoc => "TraceFrameLeafAssoc"
  | TraceFrameAnnotationTraceFrameAssoc => "TraceFrameAnnotationTraceFrameAssoc"
  | Run => "Run"
  end.

(** order is significant, objects will be saved in this order. *)
Definition SAVING_CLASSES_ORDER : list model :=
  [ SharedText;
    Issue;
    IssueInstanceFixInfo;
    IssueInstance;
    IssueInstanceSharedTextAssoc;
    TraceFrame;
    IssueInstanceTraceFrameAssoc;
    TraceFrameAnnotation;
    TraceFrameLeafAssoc;
    TraceFrameAnnotationTraceFrameAssoc ].

#[warnings="-abstract-large-number"]
Definition BATCH_SIZE : nat := 30000.

(** A pending entity: its model class, its local id and its other columns. *)
Record item : Type := mkItem {
  item_model : model;
  item_local_id : Z;
  item_columns : list (string * Z);
}.

Global Instance item_eq_dec : EqDecision item.
Proof. solve_decision. Defined.

(** A row as [bulk_insert_mappings] takes it: a dict from column to value. *)
Abbreviation mapping := (list (string * Z)) (only parsing).

(** What the database and the log see, in order. *)
Inductive event : Type :=
| Reserve (saving_classes : list model) (item_counts : gmap string nat)
| Saving (cls : model)
| BulkInsert (cls : model) (group : list (list (string * Z))).

Record DB : Type := mkDB {
  db_last_key : gmap string Z;
  db_trace : list event;
}.

(** [saving] maps a class name to its pending list, the head the item added
    last; [primary_key_generator] maps a class name to the next reserved key. *)
Record saver : Type := mkSaver {
  primary_key_generator : gmap string Z;
  saving : gmap string (list item);
}.

Definition __init__ : saver :=
  mkSaver ∅ (list_to_map (map (λ cls, (__name__ cls, [])) SAVING_CLASSES_ORDER)).

Definition add (it : item) (self : saver) : result saver :=
  if bool_decide (item_model it ∈ SAVING_CLASSES_ORDER) then
    let* pending := getitem (saving self) (__name__ (item_model it)) in
    Ok (mkSaver (primary_key_generator self)
                (<[__name__ (item_model it) := it :: pending]> (saving self)))
  else Raise AssertionError.

Definition add_all (items : list item) (self : saver) : result saver :=
  match items with
  | [] => Ok self
  | first :: _ =>
      if bool_decide (item_model first ∈ SAVING_CLASSES_ORDER) then
        let* pending := getitem (saving self) (__name__ (item_model first)) in
        Ok (mkSaver (primary_key_generator self)
                    (<[__name__ (item_model first) := rev items ++ pending]> (saving self)))
      else Raise AssertionError
  end.

Definition get_items_to_add (self : saver) (cls : model) : result (list item) :=
  getitem (saving self) (__name__ cls).

(** [consume(lst)]: the items the generator yields when it is run to its end
    ([lst.pop()] until [lst] is empty), and what is left of [lst]. *)
Fixpoint consume (lst : list item) : list item * list item :=
  match lst with
  | [] => ([], [])
  | x :: lst' => let r := consume lst' in (x :: r.1, r.2)
  end.

(** Modelled from the spec: [PrimaryKeyGenerator.reserve] of the absent
    models.py reserves, for each entity type, a contiguous block of storage
    keys sized to that type's pending count. *)
Definition reserve (pk_gen : gmap string Z) (db : DB) (saving_classes : list model)
    (item_counts : gmap string nat) : gmap string Z * DB :=
  let r := foldl (λ (acc : gmap string Z * gmap string Z) cls,
                    let name := __name__ cls in
                    let last := default 0 (acc.2 !! name) in
                    let count := Z.of_nat (default 0%nat (item_counts !! name)) in
                    (<[name := last + 1]> acc.1, <[name := last + count]> acc.2))
                 (pk_gen, db_last_key db) saving_classes in
  (r.1, mkDB r.2 (db_trace db ++ [Reserve saving_classes item_counts])).

(** Modelled from the spec: [cls.prepare(session, pk_gen, items)] of the
    absent models.py runs through every item of the iterator it is given and
    translates each entity's local id to its reserved storage key. *)
Fixpoint prepare_from (next : Z) (items : list item) : list (list (string * Z)) * Z :=
  match items with
  | [] => ([], next)
  | it :: items' =>
      let r := prepare_from (next + 1) items' in
      ((("id"%string, next) :: item_columns it) :: r.1, r.2)
  end.

Definition prepare (cls : model) (pk_gen : gmap string Z) (items : list item)
  : list (list (string * Z)) * gmap string Z :=
  let r := prepare_from (default 1 (pk_gen !! __name__ cls)) items in
  (r.1, <[__name__ cls := r.2]> pk_gen).

(** [list(k.keys())] and the order of Python lists of strings. *)
Definition keys (k : list (string * Z)) : list string := k.*1.

Fixpoint keys_leb (a b : list string) : bool :=
  match a, b with
  | [], _ => true
  | _ :: _, [] => false
  | x :: a', y :: b' =>
      if String.ltb x y then true
      else if String.eqb x y then keys_leb a' b'
      else false
  end.

(** [sorted(..., key=lambda k: list(k.keys()))]: a stable sort. *)
Fixpoint insert_sorted (k : list (string * Z)) (l : list (list (string * Z)))
  : list (list (string * Z)) :=
  match l with
  | [] => [k]
  | k' :: l' => if keys_leb (keys k) (keys k') then k :: l else k' :: insert_sorted k l'
  end.

Definition sorted (l : list (list (string * Z))) : list (list (string * Z)) :=
  foldr insert_sorted [] l.

(** Modelled from the spec: [split_every(n, items)] of the absent iterutil.py
    chunks the rows into batches of at most [n]. *)
Fixpoint split_every_from {A : Type} (n : nat) (batch : list A) (room : nat) (l : list A)
  : list (list A) :=
  match l with
  | [] => match batch with [] => [] | _ => [rev batch] end
  | x :: l' =>
      match room with
      | O | S O => rev (x :: batch) :: split_every_from n [] n l'
      | S room' => split_every_from n (x :: batch) room' l'
      end
  end.

Definition split_every {A : Type} (n : nat) (l : list A) : list (list A) :=
  split_every_from n [] n l.

Definition _save (self : saver) (db : DB) (cls : model) (pk_gen : gmap string Z)
  : result (saver * DB * gmap string Z) :=
  let* pending := getitem (saving self) (__name__ cls) in
  let drained := consume pending in
  let prepared := prepare cls pk_gen drained.1 in
  let items := sorted prepared.1 in
  let self := mkSaver (primary_key_generator self)
                      (<[__name__ cls := drained.2]> (saving self)) in
  let db := foldl (λ db group, mkDB (db_last_key db) (db_trace db ++ [BulkInsert cls group]))
                  db (split_every BATCH_SIZE items) in
  Ok (self, db, prepared.2).

(** The list [saving_classes] of [save_all]. *)
Definition saving_classes (self : saver) : result (list model) :=
  filterR (λ cls, let* pending := getitem (saving self) (__name__ cls) in
                  Ok (negb (length pending =? 0)%nat))
          SAVING_CLASSES_ORDER.

Definition save_all (self : saver) (database : DB) : result (saver * DB) :=
  let* classes := saving_classes self in
  let* counts := mapR (λ cls, let* pending := get_items_to_add self cls in
                              Ok (__name__ cls, length pending)) classes in
  let item_counts : gmap string nat := list_to_map counts in
  let reserved := reserve (primary_key_generator self) database classes item_counts in
  let* r :=
    foldM (λ (acc : saver * DB * gmap string Z) cls,
             let db := mkDB (db_last_key acc.1.2) (db_trace acc.1.2 ++ [Saving cls]) in
             _save acc.1.1 db cls acc.2)
          (self, reserved.2, reserved.1) classes in
  Ok (mkSaver r.2 (saving r.1.1), r.1.2).

(** The classes saved, in the order of saving, as the trace shows them. *)
Fixpoint saved_classes (trace : list event) : list model :=
  match trace with
  | [] => []
  | Saving cls :: trace' => cls :: saved_classes trace'
  | _ :: trace' => saved_classes trace'
  end.

(** The rows submitted for a class, in the order of submission. *)
Fixpoint submitted (cls : model) (trace : list event) : list (list (string * Z)) :=
  match trace with
  | [] => []
  | BulkInsert cls' group :: trace' =>
      if decide (cls' = cls) then group ++ submitted cls trace' else submitted cls trace'
  | _ :: trace' => submitted cls trace'
  end.

(** The pending list of a class ([[]] when the class has none). *)
Definition pending (self : saver) (cls : model) : list item :=
  default [] (saving self !! __name__ cls).

(** The keys of [saving] are the names of [SAVING_CLASSES_ORDER], as
    [__init__] sets them and [add] and [add_all] keep them. *)
Definition well_formed (self : saver) : bool :=
  bool_decide (dom (saving self) = list_to_set (map __name__ SAVING_CLASSES_ORDER)).

(** A saver with a pending instance, its fix info and two texts. *)
Definition ex_items : list item :=
  [ mkItem IssueInstance 1 [("issue_id"%string, 1); ("fix_info_id"%string, 1)];
    mkItem IssueInstanceFixInfo 1 [("fix_info"%string, 7)];
    mkItem SharedText 1 [("kind"%string, 3)];
    mkItem SharedText 2 [("kind"%string, 4)] ].

Definition ex_saver : saver :=
  match foldM (λ s it, add it s) __init__ ex_items with
  | Ok s => s
  | Raise _ => __init__
  end.

Definition ex_db : DB := mkDB ∅ [].

(** The order of the claim: instances before fix-info. *)
Definition claimed_order : list model :=
  [ SharedText;
    Issue;
    IssueInstance;
    IssueInstanceFixInfo;
    IssueInstanceSharedTextAssoc;
    TraceFrame;
    IssueInstanceTraceFrameAssoc;
    TraceFrameAnnotation;
    TraceFrameLeafAssoc;
    TraceFrameAnnotationTraceFrameAssoc ].

(** The end of a line, "\n" in the source. *)
Definition newline : string := String (Ascii.ascii_of_nat 10) EmptyString.

(** [dump_stats]: a line "name: count" for each class of
    [SAVING_CLASSES_ORDER], the count the length of its pending list ("%d" of
    a length is its decimal numeral). *)
Definition dump_stats (self : saver) : result string :=
  foldM (λ (stat_str : string) cls,
           let* pending := getitem (saving self) (__name__ cls) in
           Ok (stat_str +:+ __name__ cls +:+ ": " +:+ pretty (length pending) +:+ newline))
        ""%string SAVING_CLASSES_ORDER.

(** A call of one of the methods that change a saver, and a run of calls on
    a saver and a database. *)
Inductive call : Type :=
| Add (it : item)
| AddAll (items : list item)
| SaveAll.

Definition run_call (st : saver * DB) (c : call) : result (saver * DB) :=
  match c with
  | Add it => let* self := add it st.1 in Ok (self, st.2)
  | AddAll items => let* self := add_all items st.1 in Ok (self, st.2)
  | SaveAll => save_all st.1 st.2
  end.

(** The rows are in the order of their key lists. *)
Definition keys_sorted (rows : list (list (string * Z))) : Prop :=
  Sorted (λ a b, keys_leb (keys a) (keys b) = true) rows.

(** The key reservations a trace shows, in order. *)
Fixpoint reservations (trace : list event) : list (list model * gmap string nat) :=
  match trace with
  | [] => []
  | Reserve classes counts :: trace' => (classes, counts) :: reservations trace'
  | _ :: trace' => reservations trace'
  end.

End BulkSaver.

(** ** Well-formed source graphs and the statements of the properties *)

(** [graph._trace_frames.values()] *)
Definition frame_values (g : TraceGraph) : list TraceFrame := (map_to_list (_trace_frames g)).*2.

(** Every filename id of an instance or a frame of the graph is the id of one
    of its texts ([get_text] does not fail on them). *)
Definition filenames_resolve (h : gmap nat IssueInstance) (g : TraceGraph) : bool :=
  forallb (λ r, mem (inst_filename_id (deref h r)) (_shared_texts g)) (instance_values g) &&
  forallb (λ f, mem (tf_filename_id f) (_shared_texts g)) (frame_values g).

(** Every instance and every frame is registered under its own local id, as
    [add_issue_instance] and [add_trace_frame] register them. *)
Definition ids_registered (h : gmap nat IssueInstance) (g : TraceGraph) : bool :=
  forallb (λ kr : Z * nat, bool_decide (inst_id (deref h kr.2) = kr.1))
          (map_to_list (_issue_instances g)) &&
  forallb (λ kf : Z * TraceFrame, bool_decide (tf_id kf.2 = kf.1))
          (map_to_list (_trace_frames g)).

(** ** A source graph for the examples

    Two instances of one issue in the callable "main" of two files; the first
    has a postcondition first hop with a source leaf at depth 3 and a sink
    leaf at depth 1. *)

Definition ex_filename_a : SharedText := mkSharedText 1 FILENAME "/a/b.py".
Definition ex_callable_main : SharedText := mkSharedText 2 CALLABLE "main".
Definition ex_message : SharedText := mkSharedText 3 MESSAGE "data flows".
Definition ex_source : SharedText := mkSharedText 4 SOURCE "UserControlled".
Definition ex_sink : SharedText := mkSharedText 5 SINK "RemoteCodeExecution".
Definition ex_filename_c : SharedText := mkSharedText 6 FILENAME "/c/d.py".
Definition ex_callable_get : SharedText := mkSharedText 7 CALLABLE "get".

Definition ex_heap : gmap nat IssueInstance :=
  {[ 0%nat := mkIssueInstance 1 1 1 2 3 10 3 0 2;
     1%nat := mkIssueInstance 2 1 6 2 3 20 0 0 2 ]}.

Definition ex_frame : TraceFrame :=
  mkTraceFrame 10 POSTCONDITION 2 "result" 7 "result" 1 (Some [(4, 4)]).

Definition ex_graph : TraceGraph :=
  let g := foldr add_shared_text TraceGraph__init__
                 [ex_filename_a; ex_callable_main; ex_message; ex_source; ex_sink;
                  ex_filename_c; ex_callable_get] in
  let g := add_issue (mkIssue 1 5001 "handle") g in
  let g := add_issue_instance ex_heap 0%nat g in
  let g := add_issue_instance ex_heap 1%nat g in
  let g := add_trace_frame ex_frame g in
  let g := add_trace_frame_leaf_assoc ex_frame ex_source (Some 3) g in
  let g := add_trace_frame_leaf_assoc ex_frame ex_sink (Some 1) g in
  let g := add_issue_instance_trace_frame_assoc (deref ex_heap 0%nat) ex_frame g in
  add_issue_instance_shared_text_assoc (deref ex_heap 0%nat) ex_source g.

(** Every filename id of an instance or a frame is the id of a text of kind
    FILENAME. *)
Definition is_filename (g : TraceGraph) (id : Z) : bool :=
  match _shared_texts g !! id with
  | Some t => bool_decide (st_kind t = FILENAME)
  | None => false
  end.

Definition filenames_typed (h : gmap nat IssueInstance) (g : TraceGraph) : bool :=
  forallb (λ r, is_filename g (inst_filename_id (deref h r))) (instance_values g) &&
  forallb (λ f, is_filename g (tf_filename_id f)) (frame_values g).

(** The full universe of the filenames of a graph. *)
Definition all_filenames (g : TraceGraph) : list string :=
  map st_contents (filter (λ t, st_kind t = FILENAME) (map_to_list (_shared_texts g)).*2).

(** ** Predicates kept by the population of a trimmed graph

    What a predicate on the trimmed graph has to be stable under to be kept
    by [_populate_trace] (and so by [_add_trace_frame] and
    [_add_trace_annotation]): the base operations these call, on frames of the
    source graph. *)
Record trace_stable (graph : TraceGraph) (Q : TrimmedTraceGraph → Prop) : Prop := {
  ts_shared_text : ∀ s t, Q s → Q (on_tg (add_shared_text t) s);
  ts_frame : ∀ s k f, _trace_frames graph !! k = Some f → Q s → Q (on_tg (add_trace_frame f) s);
  ts_annotation : ∀ s a, Q s → Q (on_tg (add_trace_annotation a) s);
  ts_annotation_assoc :
    ∀ s a f, Q s → Q (on_tg (add_trace_frame_annotation_trace_frame_assoc a f) s);
  ts_leaf_assoc : ∀ s f t d, Q s → Q (on_tg (add_trace_frame_leaf_assoc f t d) s);
  ts_visited :
    ∀ s k f, _trace_frames graph !! k = Some f →
             tf_id f ∈ dom (_trace_frames (tg s)) →
             Q s → Q (set_visited (_visited_trace_frame_ids s ∪ {[k]}) s);
}.

(** The same for [_populate_issue], but for the insertion of the instance
    itself. *)
Record issue_stable (h : gmap nat IssueInstance) (Q : TrimmedTraceGraph → Prop) : Prop := {
  is_shared_text : ∀ s t, Q s → Q (on_tg (add_shared_text t) s);
  is_issue : ∀ s i, Q s → Q (on_tg (add_issue i) s);
  is_fix_info : ∀ s r info, Q s → Q (on_tg (add_issue_instance_fix_info (deref h r) info) s);
  is_text_assoc :
    ∀ s r t, Q s → Q (on_tg (add_issue_instance_shared_text_assoc (deref h r) t) s);
}.

(** A predicate that everything the trimmer does to [self] keeps. *)
Record populate_stable (h : gmap nat IssueInstance) (graph : TraceGraph)
    (Q : TrimmedTraceGraph → Prop) : Prop := {
  ps_trace : trace_stable graph Q;
  ps_issue : issue_stable h Q;
  ps_instance :
    ∀ s k r, _issue_instances graph !! k = Some r → Q s → Q (on_tg (add_issue_instance h r) s);
  ps_frame_assoc :
    ∀ s k r f, _issue_instances graph !! k = Some r →
               Q s → Q (on_tg (add_issue_instance_trace_frame_assoc (deref h r) f) s);
}.

(** ** The derived metrics, as a specification

    The depths of the leaf associations that have a depth and whose leaf is a
    text of one of the kinds [leaf_kinds], over the first hops of the instance
    whose frame is of kind [kind]. *)
Definition leaf_depths (self : TraceGraph) (instance_id : Z) (kind : TraceKind)
    (leaf_kinds : list SharedTextKind) : list Z :=
  tf_id ← elements (dget (_issue_instance_trace_frame_assoc self) instance_id);
  match _trace_frames self !! tf_id with
  | Some f =>
      if decide (tf_kind f = kind) then
        row ← elements (dget (_trace_frame_leaf_assoc self) tf_id);
        match row.2, _shared_texts self !! row.1 with
        | Some depth, Some text => if decide (st_kind text ∈ leaf_kinds) then [depth] else []
        | _, _ => []
        end
      else []
  | None => []
  end.

(** The minimum of a list, and 0 for the empty list. *)
Definition minimum_or_zero (l : list Z) : Z :=
  match l with
  | [] => 0
  | d :: l' => foldr Z.min d l'
  end.


(** Trimming the example graph to the files under "/a/". *)
Definition ex_run : result (gmap nat IssueInstance * TrimmedTraceGraph) :=
  populate_from_trace_graph ex_heap ex_graph 10 (TrimmedTraceGraph__init__ ["/a/"%string] false).

Definition ex_heap_after : gmap nat IssueInstance :=
  match ex_run with
  | Ok r => r.1
  | Raise _ => ex_heap
  end.

Definition ex_out : TrimmedTraceGraph :=
  match ex_run with
  | Ok r => r.2
  | Raise _ => TrimmedTraceGraph__init__ [] false
  end.

(** [m] is the least of the numbers that satisfy [P], or 0 when none does. *)
Definition least_or_zero (P : Z → Prop) (m : Z) : Prop :=
  (P m ∧ ∀ d, P d → m ≤ d) ∨ ((∀ d, ¬ P d) ∧ m = 0).

(** The running minimum of the loops of [_get_min_leaf_depth]. *)
Definition running_min (seen : Z → Prop) (acc : option Z) : Prop :=
  match acc with
  | None => ∀ d, ¬ seen d
  | Some m => seen m ∧ ∀ d, seen d → m ≤ d
  end.

(** A row of a leaf association counts with depth [d]. *)
Definition row_counts (self : TraceGraph) (row : Z * option Z) (d : Z) : Prop :=
  row.2 = Some d ∧
  ∃ text, _shared_texts self !! row.1 = Some text ∧ (st_kind text = SOURCE ∨ st_kind text = SINK).

(** [d] is the depth of a leaf association that counts, on a first hop of the
    instance whose frame is of the given kind. *)
Definition leaf_depth_at (self : TraceGraph) (instance_id : Z) (kind : TraceKind) (d : Z) : Prop :=
  ∃ tf f row,
    tf ∈ dget (_issue_instance_trace_frame_assoc self) instance_id ∧
    _trace_frames self !! tf = Some f ∧ tf_kind f = kind ∧
    row ∈ dget (_trace_frame_leaf_assoc self) tf ∧
    row_counts self row d.

(** An instance after [_recompute_instance_properties], in terms of the
    specification of the metrics. *)
Definition recomputed (self : TraceGraph) (histo : Z → Z) (x : IssueInstance) : IssueInstance :=
  mkIssueInstance (inst_id x) (inst_issue_id x) (inst_filename_id x) (inst_callable_id x)
    (inst_message_id x) (inst_location x)
    (minimum_or_zero (leaf_depths self (inst_id x) POSTCONDITION [SOURCE; SINK]))
    (minimum_or_zero (leaf_depths self (inst_id x) PRECONDITION [SOURCE; SINK]))
    (histo (inst_callable_id x)).


(** ** The backward search, as a specification *)

(** The hit that brings the instance [i] into the trimmed graph: a visited
    frame that the source graph associates with an instance of local id [i],
    whose own source and sink leaves meet the leaves recorded for the frame. *)
Definition hit_at (h : gmap nat IssueInstance) (graph : TraceGraph)
    (visited : gmap Z (gset Z)) (i : Z) : Prop :=
  ∃ cond_id active k r leaves,
    visited !! cond_id = Some active ∧
    k ∈ _get_issue_instances_from_frame_id graph cond_id ∧
    _issue_instances graph !! k = Some r ∧
    inst_id (deref h r) = i ∧
    _get_instance_leaf_ids graph i = Ok leaves ∧
    leaves ∩ active ≠ ∅.

(** [visited'] records at least what [visited] records. *)
Definition visited_le (visited visited' : gmap Z (gset Z)) : Prop :=
  ∀ c seen, visited !! c = Some seen → ∃ seen', visited' !! c = Some seen' ∧ seen ⊆ seen'.

(** The run did not stop for lack of fuel. *)
Definition ran_out {A : Type} (r : result A) : bool :=
  match r with
  | Raise OutOfFuel => true
  | _ => false
  end.

(** The leaves a frame can be entered with from a successor: the caller
    leaves of its leaf mapping. *)
Definition caller_leaves (f : TraceFrame) : gset Z :=
  list_to_set (default [] (leaf_mapping f)).*1.

(** What the search can record for a frame visited with the leaves [leaves]:
    the frame itself, and each of the leaves at the frame. *)
Definition search_slots (f : TraceFrame) (leaves : gset Z) : gset (Z + Z * Z) :=
  {[ inl (tf_id f) ]} ∪ set_map (λ l : Z, inr (tf_id f, l)) leaves.

(** Everything a search of [graph] from the queue [que] can record. *)
Definition search_universe (graph : TraceGraph) (que : list (TraceFrame * gset Z))
  : gset (Z + Z * Z) :=
  ⋃ (map (λ f, search_slots f (caller_leaves f)) (frame_values graph))
  ∪ ⋃ (map (λ e : TraceFrame * gset Z, search_slots e.1 e.2) que).

Definition recorded (visited : gmap Z (gset Z)) (x : Z + Z * Z) : bool :=
  match x with
  | inl c => mem c visited
  | inr cl => bool_decide (cl.2 ∈ dget visited cl.1)
  end.

Definition unrecorded (U : gset (Z + Z * Z)) (visited : gmap Z (gset Z)) : gset (Z + Z * Z) :=
  filter (λ x, recorded visited x = false) U.

(** The measure of the search: an expansion records something new and
    enqueues at most one entry for each frame of the graph, a skip shortens
    the queue. *)
Definition search_potential (graph : TraceGraph) (U : gset (Z + Z * Z))
    (visited : gmap Z (gset Z)) (que : list (TraceFrame * gset Z)) : nat :=
  (size (unrecorded U visited) * S (size (_trace_frames graph)) + length que)%nat.

(** Fuel that is enough for the search from [initial_conditions]. *)
Definition search_bound (graph : TraceGraph) (initial_conditions : list TraceFrame) : nat :=
  search_potential graph (search_universe graph (initial_que graph initial_conditions))
                   ∅ (initial_que graph initial_conditions).

(** What the next iteration of the loop expands: the frame at the head of the
    queue and the leaves that are new for it, if there are any or the frame
    is new. *)
Definition expansion_of (st : search_state) : option (Z * gset Z) :=
  match s_que st with
  | [] => None
  | (condition, leaves) :: _ =>
      match s_visited st !! tf_id condition with
      | Some seen =>
          if bool_decide (size (leaves ∖ seen) = 0%nat) then None
          else Some (tf_id condition, leaves ∖ seen)
      | None => Some (tf_id condition, leaves)
      end
  end.

(** The expansions of a run of the loop, in order. *)
Fixpoint expansions (h : gmap nat IssueInstance) (graph : TraceGraph) (fuel : nat)
    (st : search_state) : list (Z * gset Z) :=
  match s_que st, fuel with
  | [], _ | _, O => []
  | _ :: _, S fuel =>
      match _search_step h graph st with
      | Ok st' => option_list (expansion_of st) ++ expansions h graph fuel st'
      | Raise _ => []
      end
  end.

(** No leaf is expanded twice at one frame. *)
Fixpoint once_per_leaf (l : list (Z * gset Z)) : Prop :=
  match l with
  | [] => True
  | e :: l' => (∀ e', e' ∈ l' → e'.1 = e.1 → e'.2 ## e.2) ∧ once_per_leaf l'
  end.

(** A call cycle: two frames, each the predecessor of the other, with a sink
    leaf that the leaf mappings pass along. *)
Definition ex_cycle_f1 : TraceFrame :=
  mkTraceFrame 21 PRECONDITION 2 "formal(x)" 7 "formal(y)" 1 (Some [(5, 5)]).

Definition ex_cycle_f2 : TraceFrame :=
  mkTraceFrame 22 PRECONDITION 7 "formal(y)" 2 "formal(x)" 6 (Some [(5, 5)]).

Definition ex_cycle : TraceGraph :=
  let g := foldr add_shared_text TraceGraph__init__
                 [ex_filename_a; ex_callable_main; ex_message; ex_source; ex_sink;
                  ex_filename_c; ex_callable_get] in
  let g := add_issue (mkIssue 1 5001 "handle") g in
  let g := add_issue_instance ex_heap 1%nat g in
  let g := add_trace_frame ex_cycle_f1 g in
  let g := add_trace_frame ex_cycle_f2 g in
  let g := add_trace_frame_leaf_assoc ex_cycle_f1 ex_sink (Some 1) g in
  let g := add_trace_frame_leaf_assoc ex_cycle_f2 ex_sink (Some 2) g in
  let g := add_issue_instance_trace_frame_assoc (deref ex_heap 1%nat) ex_cycle_f2 g in
  add_issue_instance_shared_text_assoc (deref ex_heap 1%nat) ex_sink g.

(** The instance has a first hop whose frame is of the given kind. *)
Definition has_first_hop (g : TraceGraph) (i : Z) (kind : TraceKind) : Prop :=
  ∃ tf f, tf ∈ dget (_issue_instance_trace_frame_assoc g) i ∧
          _trace_frames g !! tf = Some f ∧ tf_kind f = kind.

(** The entries of the queue, and the frames of the graph with the leaves
    they can be entered with, are within [U]. *)
Definition que_within (U : gset (Z + Z * Z)) (que : list (TraceFrame * gset Z)) : Prop :=
  ∀ e, e ∈ que → search_slots e.1 e.2 ⊆ U.

Definition frames_within (graph : TraceGraph) (U : gset (Z + Z * Z)) : Prop :=
  ∀ k f, _trace_frames graph !! k = Some f → search_slots f (caller_leaves f) ⊆ U.

(** The search of the cyclic example from its frame in "/a/", and what step 3
    makes of it. *)
Definition ex_cycle_self : TrimmedTraceGraph := TrimmedTraceGraph__init__ ["/a/"%string] false.

Definition ex_cycle_step3 : TrimmedTraceGraph :=
  match _populate_issues_from_affected_conditions ex_heap ex_cycle 20 ex_cycle_self
          [ex_cycle_f1] with
  | Ok s => s
  | Raise _ => ex_cycle_self
  end.

(** Two instances that share a call edge, with disjoint leaves: the frame in
    "/c/d.py" is a first hop of both, and it reaches the sink leaf only. *)
Definition ex_shared_heap : gmap nat IssueInstance :=
  {[ 0%nat := mkIssueInstance 1 1 1 2 3 10 0 0 1;
     2%nat := mkIssueInstance 3 1 1 7 3 30 0 0 1 ]}.

Definition ex_shared_frame : TraceFrame :=
  mkTraceFrame 30 PRECONDITION 2 "formal(x)" 7 "formal(y)" 6 (Some [(5, 5)]).

Definition ex_shared : TraceGraph :=
  let g := foldr add_shared_text TraceGraph__init__
                 [ex_filename_a; ex_callable_main; ex_message; ex_source; ex_sink;
                  ex_filename_c; ex_callable_get] in
  let g := add_issue (mkIssue 1 5001 "handle") g in
  let g := add_issue_instance ex_shared_heap 0%nat g in
  let g := add_issue_instance ex_shared_heap 2%nat g in
  let g := add_trace_frame ex_shared_frame g in
  let g := add_trace_frame_leaf_assoc ex_shared_frame ex_sink (Some 1) g in
  let g := add_issue_instance_trace_frame_assoc (deref ex_shared_heap 0%nat) ex_shared_frame g in
  let g := add_issue_instance_trace_frame_assoc (deref ex_shared_heap 2%nat) ex_shared_frame g in
  let g := add_issue_instance_shared_text_assoc (deref ex_shared_heap 0%nat) ex_source g in
  add_issue_instance_shared_text_assoc (deref ex_shared_heap 2%nat) ex_sink g.

(** ** Consistency of a trimmed graph with its source *)

(** The instances and the frames of the trimmed graph are those of the
    source graph under the same ids, and the frames marked visited are in the
    trimmed graph. *)
Definition trimmed_consistent (graph : TraceGraph) (s : TrimmedTraceGraph) : Prop :=
  (∀ i r, _issue_instances (tg s) !! i = Some r → _issue_instances graph !! i = Some r) ∧
  (∀ k f, _trace_frames (tg s) !! k = Some f → _trace_frames graph !! k = Some f) ∧
  (∀ k, k ∈ _visited_trace_frame_ids s → is_Some (_trace_frames (tg s) !! k)).

(** [s'] has the first hops, the frames and the visited marks of [s]. *)
Definition grows (s s' : TrimmedTraceGraph) : Prop :=
  (∀ i, dget (_issue_instance_trace_frame_assoc (tg s)) i
        ⊆ dget (_issue_instance_trace_frame_assoc (tg s')) i) ∧
  (∀ k f, _trace_frames (tg s) !! k = Some f → _trace_frames (tg s') !! k = Some f) ∧
  _visited_trace_frame_ids s ⊆ _visited_trace_frame_ids s'.

(** Every first hop of the instance in the source graph whose frame is of the
    given kind is a first hop of it in the trimmed graph, with its frame. *)
Definition first_hops_copied (graph : TraceGraph) (s : TrimmedTraceGraph) (i : Z)
    (kind : TraceKind) : Prop :=
  ∀ tf f, tf ∈ dget (_issue_instance_trace_frame_assoc graph) i →
          _trace_frames graph !! tf = Some f → tf_kind f = kind →
          tf ∈ dget (_issue_instance_trace_frame_assoc (tg s)) i ∧
          _trace_frames (tg s) !! tf = Some f.

(** An instance in "/c/d.py" whose sink-ward first hop is a frame in
    "/a/b.py" and whose source-ward first hop is a frame in "/c/d.py":
    trimming to "/a/" finds it from the first frame only. *)
Definition ex_repair_pre : TraceFrame :=
  mkTraceFrame 41 PRECONDITION 2 "formal(x)" 7 "formal(y)" 1 (Some [(5, 5)]).

Definition ex_repair_post : TraceFrame :=
  mkTraceFrame 42 POSTCONDITION 2 "result" 7 "result" 6 (Some [(4, 4)]).

Definition ex_repair : TraceGraph :=
  let g := foldr add_shared_text TraceGraph__init__
                 [ex_filename_a; ex_callable_main; ex_message; ex_source; ex_sink;
                  ex_filename_c; ex_callable_get] in
  let g := add_issue (mkIssue 1 5001 "handle") g in
  let g := add_issue_instance ex_heap 1%nat g in
  let g := add_trace_frame ex_repair_pre g in
  let g := add_trace_frame ex_repair_post g in
  let g := add_trace_frame_leaf_assoc ex_repair_pre ex_sink (Some 1) g in
  let g := add_trace_frame_leaf_assoc ex_repair_post ex_source (Some 2) g in
  let g := add_issue_instance_trace_frame_assoc (deref ex_heap 1%nat) ex_repair_pre g in
  let g := add_issue_instance_trace_frame_assoc (deref ex_heap 1%nat) ex_repair_post g in
  let g := add_issue_instance_shared_text_assoc (deref ex_heap 1%nat) ex_source g in
  add_issue_instance_shared_text_assoc (deref ex_heap 1%nat) ex_sink g.

Definition ex_repair_run : result (gmap nat IssueInstance * TrimmedTraceGraph) :=
  populate_from_trace_graph ex_heap ex_repair 20 (TrimmedTraceGraph__init__ ["/a/"%string] false).

Definition ex_repair_heap_after : gmap nat IssueInstance :=
  match ex_repair_run with
  | Ok r => r.1
  | Raise _ => ex_heap
  end.

Definition ex_repair_out : TrimmedTraceGraph :=
  match ex_repair_run with
  | Ok r => r.2
  | Raise _ => TrimmedTraceGraph__init__ [] false
  end.

(** ** The frames a search step looks at *)

(** The entry of the reverse index that [_get_predecessor_frames] iterates
    over for a frame. *)
Definition predecessor_ids (graph : TraceGraph) (trace_frame : TraceFrame) : gset Z :=
  dget (_trace_frames_rev_map graph)
       (tf_kind trace_frame, (caller_id trace_frame, caller_port trace_frame)).

(** The cyclic example with one more caller of "main", a frame that has no
    leaf mapping. *)
Definition ex_unmapped_frame : TraceFrame :=
  mkTraceFrame 23 PRECONDITION 7 "formal(z)" 2 "formal(x)" 6 None.

Definition ex_unmapped : TraceGraph := add_trace_frame ex_unmapped_frame ex_cycle.

(** ** What is copied *)

(** [s'] has the issue instances of [s]. *)
Definition keeps_instances (s s' : TrimmedTraceGraph) : Prop :=
  ∀ i r, _issue_instances (tg s) !! i = Some r → _issue_instances (tg s') !! i = Some r.

(** Every issue instance of the trimmed graph has all the first hops that
    the source graph has for it, of both kinds. *)
Definition fully_copied (graph : TraceGraph) (s : TrimmedTraceGraph) : Prop :=
  ∀ i, is_Some (_issue_instances (tg s) !! i) → ∀ kind, first_hops_copied graph s i kind.

(** ** The frames reachable from a frame *)

(** Where [_populate_trace] goes from the frame of id [k]: to the next
    frames of the frame, and to the child frames of its annotations. *)
Definition leads_to (graph : TraceGraph) (k n : Z) : Prop :=
  ∃ f, _trace_frames graph !! k = Some f ∧
       ((∃ nexts next, get_next_trace_frames graph f = Ok nexts ∧
                       next ∈ nexts ∧ tf_id next = n) ∨
        (∃ annotations a children child,
            get_condition_annotations graph (tf_id f) = Ok annotations ∧ a ∈ annotations ∧
            get_annotation_trace_frames graph (ann_id a) = Ok children ∧
            child ∈ children ∧ tf_id child = n)).

(** From a frame of [V], every step leads into [V] or to a pending id. *)
Definition closed_upto (graph : TraceGraph) (V : gset Z) (pending : Z → Prop) : Prop :=
  ∀ k n, k ∈ V → leads_to graph k n → n ∈ V ∨ pending n.

(** [V] has every frame that is reachable from one of its frames. *)
Definition successors_closed (graph : TraceGraph) (V : gset Z) : Prop :=
  ∀ k n, k ∈ V → leads_to graph k n → n ∈ V.

(** What the induction on the fuel of [_populate_trace] gives for the
    callback of [_add_trace_frame] and [_add_trace_annotation]. *)
Definition closes_work_list (graph : TraceGraph)
    (populate_trace : TrimmedTraceGraph → list Z → result TrimmedTraceGraph) : Prop :=
  ∀ s ids s' (pending : Z → Prop),
    closed_upto graph (_visited_trace_frame_ids s) (λ n, pending n ∨ n ∈ ids) →
    populate_trace s ids = Ok s' →
    closed_upto graph (_visited_trace_frame_ids s') pending ∧
    _visited_trace_frame_ids s ⊆ _visited_trace_frame_ids s' ∧
    ∀ id, id ∈ ids → id ∈ _visited_trace_frame_ids s'.

(** ** The hits of the backward search, as recorded in the trimmed graph *)

(** The instance [i] is in the trimmed graph, with the frame [cond_id] as a
    first hop. *)
Definition hit_recorded (s : TrimmedTraceGraph) (cond_id i : Z) : Prop :=
  is_Some (_issue_instances (tg s) !! i) ∧
  cond_id ∈ dget (_issue_instance_trace_frame_assoc (tg s)) i.

(** Every instance that the source graph associates with a frame recorded in
    [visited], and whose own source and sink leaves meet the leaves recorded
    for the frame, is in the trimmed graph with the frame as a first hop. *)
Definition hits_recorded (h : gmap nat IssueInstance) (graph : TraceGraph)
    (visited : gmap Z (gset Z)) (s : TrimmedTraceGraph) : Prop :=
  ∀ cond_id active k r leaves,
    visited !! cond_id = Some active →
    k ∈ _get_issue_instances_from_frame_id graph cond_id →
    _issue_instances graph !! k = Some r →
    _get_instance_leaf_ids graph (inst_id (deref h r)) = Ok leaves →
    leaves ∩ active ≠ ∅ →
    hit_recorded s cond_id (inst_id (deref h r)).

(** ** The callers the backward search has to visit *)

(** [p] is a caller frame of the frame [f]: a frame of the entry of [f] in
    the reverse index, with the leaf mapping [mapping]. *)
Definition predecessor_of (graph : TraceGraph) (p f : TraceFrame) (mapping : list (Z * Z))
  : Prop :=
  ∃ id, id ∈ predecessor_ids graph f ∧ _trace_frames graph !! id = Some p ∧
        leaf_mapping p = Some mapping.

(** The leaf [leaf] is waiting in the queue for the frame of id [c]. *)
Definition pending_in (que : list (TraceFrame * gset Z)) (c leaf : Z) : Prop :=
  ∃ e, e ∈ que ∧ tf_id e.1 = c ∧ leaf ∈ e.2.

(** For every frame recorded in [visited] and every caller frame of it, the
    leaves that the caller's leaf mapping gives for the recorded leaves are
    recorded for the caller, or are pending. *)
Definition callers_closed_upto (graph : TraceGraph) (visited : gmap Z (gset Z))
    (pending : Z → Z → Prop) : Prop :=
  ∀ c seen f p mapping leaf,
    visited !! c = Some seen → _trace_frames graph !! c = Some f →
    predecessor_of graph p f mapping → leaf ∈ compute_prev_leaf_kinds seen mapping →
    leaf ∈ dget visited (tf_id p) ∨ pending (tf_id p) leaf.

Definition callers_closed (graph : TraceGraph) (visited : gmap Z (gset Z)) : Prop :=
  ∀ c seen f p mapping leaf,
    visited !! c = Some seen → _trace_frames graph !! c = Some f →
    predecessor_of graph p f mapping → leaf ∈ compute_prev_leaf_kinds seen mapping →
    leaf ∈ dget visited (tf_id p).

(** The invariant of the loop of the search, for the queue [que0] it starts
    from: the frames in the queue are frames of the graph, every entry of
    [que0] is recorded or still in the queue, and the callers are closed up
    to the queue. *)
Definition search_invariant (graph : TraceGraph) (que0 : list (TraceFrame * gset Z))
    (st : search_state) : Prop :=
  (∀ e, e ∈ s_que st → _trace_frames graph !! tf_id e.1 = Some e.1) ∧
  (∀ e, e ∈ que0 → e.2 ⊆ dget (s_visited st) (tf_id e.1) ∨ e ∈ s_que st) ∧
  callers_closed_upto graph (s_visited st) (pending_in (s_que st)).

(** ** What comes with an issue instance *)

(** The instance [r], found under [i] in the source graph, has in the
    trimmed graph what [_populate_issue] copies with it: its issue, its fix
    info when the source graph has one for it, and an association with each
    shared text that the source graph associates with it. *)
Definition instance_complete (h : gmap nat IssueInstance) (graph : TraceGraph)
    (s : TrimmedTraceGraph) (i : Z) (r : nat) : Prop :=
  (∃ issue, _issues graph !! inst_issue_id (deref h r) = Some issue ∧
            is_Some (_issues (tg s) !! issue_id issue)) ∧
  (is_Some (_issue_instance_fix_info graph !! i) →
   is_Some (_issue_instance_fix_info (tg s) !! inst_id (deref h r))) ∧
  (∀ t_id, t_id ∈ dget (_issue_instance_shared_text_assoc graph) i →
           ∃ t, _shared_texts graph !! t_id = Some t ∧
                st_id t ∈ dget (_issue_instance_shared_text_assoc (tg s))
                               (inst_id (deref h r))).

Definition instances_complete (h : gmap nat IssueInstance) (graph : TraceGraph)
    (s : TrimmedTraceGraph) : Prop :=
  ∀ i r, _issue_instances (tg s) !! i = Some r → instance_complete h graph s i r.

(** ** Whether the flood fill returns *)

(** The frame of id [n] is a child frame of an annotation of the frame of
    id [k]. *)
Definition annotation_child (graph : TraceGraph) (k n : Z) : Prop :=
  ∃ f annotations a children child,
    _trace_frames graph !! k = Some f ∧
    get_condition_annotations graph (tf_id f) = Ok annotations ∧ a ∈ annotations ∧
    get_annotation_trace_frames graph (ann_id a) = Ok children ∧
    child ∈ children ∧ tf_id child = n.

(** No frame of the graph has an annotation. *)
Definition no_annotations (graph : TraceGraph) : Prop :=
  ∀ k, dget (_trace_frame_annotation_assoc graph) k = ∅.

(** Fuel that is enough for [_populate_trace] on a graph with no
    annotations: an iteration marks a frame of the graph that was not marked
    and puts at most one id for each frame of the graph on the work list, or
    it shortens the work list. *)
Definition trace_bound (graph : TraceGraph) (s : TrimmedTraceGraph) (ids : list Z) : nat :=
  (size (dom (_trace_frames graph) ∖ _visited_trace_frame_ids s)
   * S (size (_trace_frames graph)) + length ids)%nat.

(** The cyclic example with an annotation on its first frame that has that
    frame as its child. *)
Definition ex_note : TraceFrameAnnotation := mkAnnotation 1 21 "note".

Definition ex_annotated : TraceGraph :=
  add_trace_frame_annotation_trace_frame_assoc ex_note ex_cycle_f1
    (add_trace_annotation ex_note ex_cycle).

(** Fuel that is enough for a whole run of [populate_from_trace_graph] on a
    graph with no annotations: the bound of the backward search from the
    frames of the affected files, and the bound of a flood fill that starts
    from at most one id for each frame of the graph. *)
Definition populate_bound (graph : TraceGraph) (affected_files : list string) : nat :=
  (match initial_trace_frames graph affected_files with
   | Ok initial => search_bound graph initial
   | Raise _ => 0
   end
   + S (size (_trace_frames graph)) * S (size (_trace_frames graph)))%nat.

(** ** The full trace of a direction *)


(** The repair example with one more frame, the successor of the
    source-ward first hop of its instance, and its run: the graph after
    step 1 and after step 3 of [populate_from_trace_graph] (the graph the
    repair loop starts from), and the result. *)
Definition ex_deep_next : TraceFrame :=
  mkTraceFrame 43 POSTCONDITION 7 "result" 2 "source" 6 (Some [(4, 4)]).

Definition ex_deep : TraceGraph :=
  add_trace_frame_leaf_assoc ex_deep_next ex_source (Some 1)
    (add_trace_frame ex_deep_next ex_repair).

Definition ex_deep_step1 : TrimmedTraceGraph :=
  match _populate_affected_issues ex_heap ex_deep 20
          (set_visited ∅ (TrimmedTraceGraph__init__ ["/a/"%string] false)) with
  | Ok s => s
  | Raise _ => TrimmedTraceGraph__init__ [] false
  end.

Definition ex_deep_step3 : TrimmedTraceGraph :=
  match _populate_issues_from_affected_trace_frames ex_heap ex_deep 20 ex_deep_step1 with
  | Ok s => s
  | Raise _ => TrimmedTraceGraph__init__ [] false
  end.

Definition ex_deep_run : result (gmap nat IssueInstance * TrimmedTraceGraph) :=
  populate_from_trace_graph ex_heap ex_deep 20 (TrimmedTraceGraph__init__ ["/a/"%string] false).


Definition ex_deep_out : TrimmedTraceGraph :=
  match ex_deep_run with
  | Ok r => r.2
  | Raise _ => TrimmedTraceGraph__init__ [] false
  end.

(** * Properties *)

#[local] Set Warnings "-clear-no-such-hyp".

(** ** The error monad *)

Lemma bind_Ok {A B : Type} (m : result A) (f : A → result B) (b : B) :
  bind m f = Ok b → ∃ a, m = Ok a ∧ f a = Ok b.
Proof. destruct m as [a|e]; simpl; [eauto | discriminate]. Qed.

Lemma getitem_Ok `{Countable K} {V : Type} (d : gmap K V) (k : K) (v : V) :
  getitem d k = Ok v ↔ d !! k = Some v.
Proof. unfold getitem. destruct (d !! k); split; congruence. Qed.

Lemma mem_true `{Countable K} {V : Type} (k : K) (d : gmap K V) :
  mem k d = true ↔ is_Some (d !! k).
Proof.
  unfold mem. destruct (d !! k); split; intros Hs; try done; eauto.
Qed.

Lemma mem_false `{Countable K} {V : Type} (k : K) (d : gmap K V) :
  mem k d = false ↔ d !! k = None.
Proof. unfold mem. destruct (d !! k); split; congruence. Qed.

(** Unfolds one [let*] of a hypothesis [H : ... = Ok _]. *)
Ltac bind_inv H :=
  let x := fresh "x" in
  let Hx := fresh "Hx" in
  apply bind_Ok in H as (x & Hx & H).

Lemma foldM_app {A S : Type} (f : S → A → result S) (s : S) (l1 l2 : list A) :
  foldM f s (l1 ++ l2) = bind (foldM f s l1) (λ s', foldM f s' l2).
Proof.
  revert s. induction l1 as [|a l1 IH]; intros s; simpl; [done|].
  destruct (f s a); simpl; [apply IH | done].
Qed.

(** A loop invariant: what every iteration keeps, the whole loop keeps. *)
Lemma foldM_invariant {A S : Type} (P : S → Prop) (f : S → A → result S) (l : list A) :
  (∀ s a s', a ∈ l → P s → f s a = Ok s' → P s') →
  ∀ s s', P s → foldM f s l = Ok s' → P s'.
Proof.
  induction l as [|a l IH]; intros Hf s s' HP Hfold; simpl in Hfold.
  - by inversion Hfold; subst.
  - bind_inv Hfold.
    eapply (IH (λ s0 a0 s1 Hin, Hf s0 a0 s1 (list_elem_of_further _ _ _ Hin))); [|done].
    eapply Hf; [apply list_elem_of_here | done | done].
Qed.

Lemma filterR_all {A : Type} (p : A → result bool) (b : bool) (l : list A) :
  (∀ a, a ∈ l → p a = Ok b) → filterR p l = Ok (if b then l else []).
Proof.
  induction l as [|a l IH]; intros Hp; simpl.
  - by destruct b.
  - rewrite (Hp a) by apply list_elem_of_here. simpl.
    rewrite IH by (intros a' Ha'; apply Hp; by apply list_elem_of_further).
    by destruct b.
Qed.

(** ** The file filter *)

Lemma prefix_empty (s : string) : String.prefix "" s = true.
Proof. by destruct s. Qed.

Lemma prefix_refl (s : string) : String.prefix s s = true.
Proof.
  induction s as [|c s IH]; simpl; [done|].
  destruct (Ascii.ascii_dec c c); [done | congruence].
Qed.

Lemma prefixed_with_empty (filename : string) (prefixes : list string) :
  ""%string ∈ prefixes → _is_filename_prefixed_with filename prefixes = true.
Proof.
  intros Hin. unfold _is_filename_prefixed_with. apply existsb_exists.
  exists ""%string. split; [by apply list_elem_of_In | apply prefix_empty].
Qed.

Lemma prefixed_with_self (filename : string) (prefixes : list string) :
  filename ∈ prefixes → _is_filename_prefixed_with filename prefixes = true.
Proof.
  intros Hin. unfold _is_filename_prefixed_with. apply existsb_exists.
  exists filename. split; [by apply list_elem_of_In | apply prefix_refl].
Qed.

Lemma forallb_elem_of {A : Type} (p : A → bool) (l : list A) (a : A) :
  forallb p l = true → a ∈ l → p a = true.
Proof. rewrite forallb_forall. intros Hp Ha. by apply Hp, list_elem_of_In. Qed.

Lemma get_text_resolved (g : TraceGraph) (id : Z) :
  mem id (_shared_texts g) = true → ∃ t, _shared_texts g !! id = Some t ∧
                                          get_text g id = Ok (st_contents t).
Proof.
  intros [t Ht]%mem_true. exists t. split; [done|].
  unfold get_text, getitem. by rewrite Ht.
Qed.

Lemma is_filename_all_filenames (g : TraceGraph) (id : Z) :
  is_filename g id = true →
  ∃ t, get_text g id = Ok (st_contents t) ∧ st_contents t ∈ all_filenames g.
Proof.
  unfold is_filename. destruct (_shared_texts g !! id) as [t|] eqn:Ht; [|done].
  intros Hk%bool_decide_eq_true. exists t. split.
  - unfold get_text, getitem. by rewrite Ht.
  - unfold all_filenames. apply list_elem_of_fmap. exists t. split; [done|].
    apply list_elem_of_filter. split; [done|].
    apply list_elem_of_fmap. exists (id, t). split; [done|].
    by apply elem_of_map_to_list.
Qed.

(** The seeds of steps 1 and 3 when every filename passes the filter. *)
Lemma seeds_of_accepting_filter (h : gmap nat IssueInstance) (graph : TraceGraph)
    (files : list string) :
  (∀ r, r ∈ instance_values graph →
        ∃ name, get_text graph (inst_filename_id (deref h r)) = Ok name ∧
                _is_filename_prefixed_with name files = true) →
  (∀ f, f ∈ frame_values graph →
        ∃ name, get_text graph (tf_filename_id f) = Ok name ∧
                _is_filename_prefixed_with name files = true) →
  affected_instance_ids h graph files
    = Ok (map (λ r, inst_id (deref h r)) (instance_values graph)) ∧
  initial_trace_frames graph files = Ok (frame_values graph).
Proof.
  intros Hi Hf. split.
  - unfold affected_instance_ids.
    rewrite (filterR_all _ true); [done|].
    intros r Hr. destruct (Hi r Hr) as (name & -> & Hp). simpl. by rewrite Hp.
  - unfold initial_trace_frames. fold (frame_values graph).
    rewrite (filterR_all _ true); [done|].
    intros f Hfr. destruct (Hf f Hfr) as (name & -> & Hp). simpl. by rewrite Hp.
Qed.

(** C10: when [affected_files] contains the empty string the prefix test
    accepts every filename, so [affected_instance_ids] is every issue instance
    of the source graph and [initial_trace_frames] is every trace frame of it;
    these are the seeds that the filter listing every filename of the graph
    gives. *)
Theorem empty_string_prefix_seeds_everything (h : gmap nat IssueInstance)
    (graph : TraceGraph) (files : list string) :
  ""%string ∈ files →
  filenames_resolve h graph = true →
  (∀ filename, _is_filename_prefixed_with filename files = true) ∧
  affected_instance_ids h graph files
    = Ok (map (λ r, inst_id (deref h r)) (instance_values graph)) ∧
  initial_trace_frames graph files = Ok (frame_values graph) ∧
  (filenames_typed h graph = true →
   affected_instance_ids h graph (all_filenames graph)
     = affected_instance_ids h graph files ∧
   initial_trace_frames graph (all_filenames graph) = initial_trace_frames graph files).
Proof.
  intros Hempty [Hri Hrf]%andb_prop.
  assert (Hall : ∀ filename, _is_filename_prefixed_with filename files = true)
    by (intros; by apply prefixed_with_empty).
  assert (Hseeds : affected_instance_ids h graph files
                     = Ok (map (λ r, inst_id (deref h r)) (instance_values graph)) ∧
                   initial_trace_frames graph files = Ok (frame_values graph)).
  { apply seeds_of_accepting_filter.
    - intros r Hr. destruct (get_text_resolved graph _ (forallb_elem_of _ _ _ Hri Hr))
        as (t & _ & Ht). eauto.
    - intros f Hf. destruct (get_text_resolved graph _ (forallb_elem_of _ _ _ Hrf Hf))
        as (t & _ & Ht). eauto. }
  destruct Hseeds as [Hsi Hsf].
  split; [done|]. split; [done|]. split; [done|].
  intros [Hti Htf]%andb_prop. rewrite Hsi, Hsf.
  apply seeds_of_accepting_filter.
  - intros r Hr.
    destruct (is_filename_all_filenames graph _ (forallb_elem_of _ _ _ Hti Hr))
      as (t & Ht & Hin).
    exists (st_contents t). split; [done | by apply prefixed_with_self].
  - intros f Hf.
    destruct (is_filename_all_filenames graph _ (forallb_elem_of _ _ _ Htf Hf))
      as (t & Ht & Hin).
    exists (st_contents t). split; [done | by apply prefixed_with_self].
Qed.

Lemma empty_string_prefix_seeds_everything_witness :
  affected_instance_ids ex_heap ex_graph ["/a/"; ""]%string
    = Ok (map (λ r, inst_id (deref ex_heap r)) (instance_values ex_graph)) ∧
  initial_trace_frames ex_graph ["/a/"; ""]%string = Ok [ex_frame].
Proof.
  assert (Hin : ""%string ∈ ["/a/"; ""]%string) by set_solver.
  assert (Hres : filenames_resolve ex_heap ex_graph = true) by (vm_compute; reflexivity).
  destruct (empty_string_prefix_seeds_everything ex_heap ex_graph _ Hin Hres)
    as (_ & Hi & Hf & _).
  split; [exact Hi | exact Hf].
Defined.

(** ** Trimming with no affected file *)

Lemma seeds_of_empty_filter (h : gmap nat IssueInstance) (graph : TraceGraph) :
  filenames_resolve h graph = true →
  affected_instance_ids h graph [] = Ok [] ∧ initial_trace_frames graph [] = Ok [].
Proof.
  intros [Hri Hrf]%andb_prop. split.
  - unfold affected_instance_ids. rewrite (filterR_all _ false); [done|].
    intros r Hr.
    by destruct (get_text_resolved graph _ (forallb_elem_of _ _ _ Hri Hr)) as (t & _ & ->).
  - unfold initial_trace_frames. fold (frame_values graph).
    rewrite (filterR_all _ false); [done|].
    intros f Hf.
    by destruct (get_text_resolved graph _ (forallb_elem_of _ _ _ Hrf Hf)) as (t & _ & ->).
Qed.

Lemma _populate_trace_nil (graph : TraceGraph) (fuel : nat)
    (self : TrimmedTraceGraph) :
  _populate_trace graph fuel self [] = Ok self.
Proof. by destruct fuel. Qed.

(** C6: on a source graph whose filename ids resolve, trimming with
    [affected_files = []] returns, and the output graph has no issue, no issue
    instance and no trace frame (and the object store is as it was). *)
Theorem empty_affected_files_empty_output (h : gmap nat IssueInstance) (graph : TraceGraph)
    (affected_issues_only : bool) (fuel : nat) :
  filenames_resolve h graph = true →
  ∃ out, populate_from_trace_graph h graph fuel
           (TrimmedTraceGraph__init__ [] affected_issues_only) = Ok (h, out) ∧
         _issues (tg out) = ∅ ∧
         _issue_instances (tg out) = ∅ ∧
         _trace_frames (tg out) = ∅.
Proof.
  intros Hres. destruct (seeds_of_empty_filter h graph Hres) as [Hi Hf].
  exists (TrimmedTraceGraph__init__ [] affected_issues_only).
  split; [|done].
  unfold populate_from_trace_graph, populate_graph, _populate_affected_issues. simpl.
  rewrite Hi. simpl. destruct affected_issues_only; simpl.
  - reflexivity.
  - unfold _populate_issues_from_affected_trace_frames. simpl. rewrite Hf. simpl.
    unfold _populate_issues_from_affected_conditions, backward_search, initial_que. simpl.
    destruct fuel; reflexivity.
Qed.

Lemma empty_affected_files_empty_output_witness :
  ∃ out, populate_from_trace_graph ex_heap ex_graph 0 (TrimmedTraceGraph__init__ [] false)
           = Ok (ex_heap, out) ∧
         _issues (tg out) = ∅ ∧ _issue_instances (tg out) = ∅ ∧ _trace_frames (tg out) = ∅.
Proof.
  apply (empty_affected_files_empty_output ex_heap ex_graph false 0).
  vm_compute. reflexivity.
Defined.

(** ** The bulk saver *)

Section BulkSaverProperties.

Import BulkSaver.

Lemma __name___inj (a b : model) : __name__ a = __name__ b → a = b.
Proof. destruct a, b; simpl; intros Heq; first [reflexivity | discriminate Heq]. Qed.

Lemma consume_all (lst : list item) : consume lst = (lst, []).
Proof. induction lst as [|x lst IH]; simpl; [done | by rewrite IH]. Qed.

Lemma filterR_filter {A : Type} (p : A → result bool) (P : A → Prop)
    `{∀ a, Decision (P a)} (l : list A) :
  (∀ a, a ∈ l → p a = Ok (bool_decide (P a))) → filterR p l = Ok (filter P l).
Proof.
  induction l as [|a l IH]; intros Hp; simpl; [done|].
  rewrite (Hp a) by apply list_elem_of_here. simpl.
  rewrite IH by (intros a' Ha'; apply Hp; by apply list_elem_of_further). simpl.
  rewrite filter_cons.
  destruct (decide (P a)); [rewrite bool_decide_eq_true_2 | rewrite bool_decide_eq_false_2]; done.
Qed.

Lemma well_formed_registered (self : saver) (cls : model) :
  well_formed self = true → cls ∈ SAVING_CLASSES_ORDER →
  saving self !! __name__ cls = Some (pending self cls).
Proof.
  intros Hwf%bool_decide_eq_true Hin.
  assert (Hdom : __name__ cls ∈ dom (saving self)).
  { rewrite Hwf. apply elem_of_list_to_set, list_elem_of_fmap. eauto. }
  apply elem_of_dom in Hdom as [l Hl]. unfold pending. by rewrite Hl.
Qed.

Lemma saving_classes_spec (self : saver) :
  well_formed self = true →
  saving_classes self = Ok (filter (λ cls, pending self cls ≠ []) SAVING_CLASSES_ORDER).
Proof.
  intros Hwf. unfold saving_classes. apply filterR_filter.
  intros cls Hin. unfold getitem.
  rewrite (well_formed_registered self cls Hwf Hin). simpl. f_equal.
  by destruct (pending self cls) as [|x l].
Qed.

Lemma saved_classes_app (t1 t2 : list event) :
  saved_classes (t1 ++ t2) = saved_classes t1 ++ saved_classes t2.
Proof.
  induction t1 as [|e t1 IH]; simpl; [done|].
  destruct e; simpl; by rewrite IH.
Qed.

Lemma submitted_app (cls : model) (t1 t2 : list event) :
  submitted cls (t1 ++ t2) = submitted cls t1 ++ submitted cls t2.
Proof.
  induction t1 as [|e t1 IH]; simpl; [done|].
  destruct e; simpl; try done.
  destruct (decide (cls0 = cls)); [by rewrite IH, app_assoc | done].
Qed.

Lemma split_every_from_concat {A : Type} (n : nat) (l batch : list A) (room : nat) :
  concat (split_every_from n batch room l) = rev batch ++ l.
Proof.
  revert batch room. induction l as [|x l IH]; intros batch room; simpl.
  - destruct batch; simpl; [done|]. by rewrite !app_nil_r.
  - destruct room as [|[|room]]; simpl; rewrite IH; simpl; by rewrite <- ?app_assoc.
Qed.

Lemma split_every_concat {A : Type} (n : nat) (l : list A) : concat (split_every n l) = l.
Proof. unfold split_every. by rewrite split_every_from_concat. Qed.

Lemma length_insert_sorted (k : list (string * Z)) (l : list (list (string * Z))) :
  length (insert_sorted k l) = S (length l).
Proof.
  induction l as [|k' l IH]; simpl; [done|].
  destruct (keys_leb (keys k) (keys k')); simpl; [done | by rewrite IH].
Qed.

Lemma length_sorted (l : list (list (string * Z))) : length (sorted l) = length l.
Proof.
  induction l as [|k l IH]; simpl; [done|].
  unfold sorted in *. simpl. by rewrite length_insert_sorted, IH.
Qed.

Lemma length_prepare_from (next : Z) (items : list item) :
  length (prepare_from next items).1 = length items.
Proof.
  revert next. induction items as [|it items IH]; intros next; simpl; [done|].
  by rewrite IH.
Qed.

(** The trace after the batches of one class are inserted. *)
Lemma insert_groups_trace (cls : model) (groups : list (list (list (string * Z)))) (db : DB) :
  db_trace (foldl (λ db group, mkDB (db_last_key db) (db_trace db ++ [BulkInsert cls group]))
                  db groups)
  = db_trace db ++ map (BulkInsert cls) groups.
Proof.
  revert db. induction groups as [|g groups IH]; intros db; simpl.
  - by rewrite app_nil_r.
  - rewrite IH. simpl. by rewrite <- app_assoc.
Qed.

Lemma saved_classes_inserts (cls : model) (groups : list (list (list (string * Z)))) :
  saved_classes (map (BulkInsert cls) groups) = [].
Proof. induction groups as [|g groups IH]; simpl; [done | exact IH]. Qed.

Lemma submitted_inserts (cls cls' : model) (groups : list (list (list (string * Z)))) :
  submitted cls (map (BulkInsert cls') groups) = if decide (cls' = cls) then concat groups else [].
Proof.
  induction groups as [|g groups IH]; simpl.
  - by destruct (decide (cls' = cls)).
  - rewrite IH. by destruct (decide (cls' = cls)).
Qed.

(** What [_save] does to a class that has a pending list. *)
Lemma _save_spec (self : saver) (db : DB) (cls : model) (pk_gen : gmap string Z)
    (items : list item) :
  saving self !! __name__ cls = Some items →
  ∃ db' pk_gen',
    _save self db cls pk_gen
      = Ok (mkSaver (primary_key_generator self) (<[__name__ cls := []]> (saving self)),
            db', pk_gen') ∧
    saved_classes (db_trace db') = saved_classes (db_trace db) ∧
    ∀ c, length (submitted c (db_trace db'))
         = (length (submitted c (db_trace db))
            + if decide (cls = c) then length items else 0)%nat.
Proof.
  intros Hitems. unfold _save, getitem. rewrite Hitems. simpl.
  rewrite consume_all. simpl. eexists _, _. split; [reflexivity|].
  rewrite insert_groups_trace. split.
  - by rewrite saved_classes_app, saved_classes_inserts, app_nil_r.
  - intros c. rewrite submitted_app, length_app, submitted_inserts.
    destruct (decide (cls = c)); [|done].
    by rewrite split_every_concat, length_sorted, length_prepare_from.
Qed.

(** The loop of [save_all] over the classes [classes]. *)
Lemma save_loop_spec (classes : list model) (self : saver) (db : DB)
    (pk_gen : gmap string Z) :
  NoDup classes →
  (∀ cls, cls ∈ classes → is_Some (saving self !! __name__ cls)) →
  ∃ self' db' pk_gen',
    foldM (λ (acc : saver * DB * gmap string Z) cls,
             let db := mkDB (db_last_key acc.1.2) (db_trace acc.1.2 ++ [Saving cls]) in
             _save acc.1.1 db cls acc.2)
          (self, db, pk_gen) classes = Ok (self', db', pk_gen') ∧
    saved_classes (db_trace db') = saved_classes (db_trace db) ++ classes ∧
    (∀ cls, saving self' !! __name__ cls
            = if decide (cls ∈ classes) then Some [] else saving self !! __name__ cls) ∧
    (dom (saving self') = dom (saving self)) ∧
    ∀ c, length (submitted c (db_trace db'))
         = (length (submitted c (db_trace db))
            + if decide (c ∈ classes) then length (pending self c) else 0)%nat.
Proof.
  revert self db pk_gen.
  induction classes as [|cls classes IH]; intros self db pk_gen Hnd Hreg.
  - eexists _, _, _. split; [reflexivity|]. rewrite app_nil_r.
    split; [done|]. split; [|split; [done|]]; intros c; rewrite decide_False by set_solver; lia || done.
  - apply NoDup_cons in Hnd as [Hnotin Hnd].
    destruct (Hreg cls) as [items Hitems]; [set_solver|].
    destruct (_save_spec self (mkDB (db_last_key db) (db_trace db ++ [Saving cls]))
                cls pk_gen items Hitems) as (db1 & pk1 & Hsave & Htr1 & Hsub1).
    set (self1 := mkSaver (primary_key_generator self) (<[__name__ cls := []]> (saving self))).
    destruct (IH self1 db1 pk1 Hnd) as (self' & db' & pk' & Hloop & Htr & Hsav & Hdom & Hsub).
    { intros c Hc. simpl. destruct (decide (__name__ cls = __name__ c)) as [Heq|Hne].
      - rewrite Heq, lookup_insert_eq. eauto.
      - rewrite lookup_insert_ne by done. apply Hreg. set_solver. }
    exists self', db', pk'. split; [|split; [|split; [|split]]].
    + simpl. rewrite Hsave. simpl. exact Hloop.
    + rewrite Htr, Htr1. simpl. rewrite saved_classes_app. simpl.
      by rewrite <- app_assoc.
    + intros c. rewrite Hsav. simpl.
      destruct (decide (c ∈ classes)) as [Hin|Hnin].
      * rewrite decide_True by set_solver. done.
      * destruct (decide (c = cls)) as [->|Hne].
        -- rewrite decide_True by set_solver. by rewrite lookup_insert_eq.
        -- rewrite decide_False by set_solver.
           rewrite lookup_insert_ne; [done|]. intros Heq. by apply Hne, __name___inj.
    + rewrite Hdom. simpl. rewrite dom_insert_L.
      assert (__name__ cls ∈ dom (saving self)) by (apply elem_of_dom; eauto).
      set_solver.
    + intros c. rewrite Hsub, Hsub1. simpl.
      rewrite submitted_app. simpl. rewrite app_nil_r.
      destruct (decide (cls = c)) as [<-|Hne].
      * rewrite (decide_False (P := cls ∈ classes)) by done.
        rewrite decide_True by set_solver.
        unfold pending. rewrite Hitems. simpl. lia.
      * destruct (decide (c ∈ classes)) as [Hin|Hnin].
        -- rewrite decide_True by set_solver.
           unfold pending. simpl.
           rewrite lookup_insert_ne; [lia|]. intros Heq. by apply Hne, __name___inj.
        -- rewrite decide_False by set_solver. lia.
Qed.

Lemma SAVING_CLASSES_ORDER_NoDup : NoDup SAVING_CLASSES_ORDER.
Proof. apply (bool_decide_unpack _). vm_compute. exact I. Qed.

Lemma mapR_total {A B : Type} (f : A → result B) (l : list A) :
  (∀ a, a ∈ l → ∃ b, f a = Ok b) → ∃ bs, mapR f l = Ok bs.
Proof.
  induction l as [|a l IH]; intros Hf; simpl; [eauto|].
  destruct (Hf a) as [b ->]; [apply list_elem_of_here|]. simpl.
  destruct IH as [bs ->]; [intros a' Ha'; apply Hf; by apply list_elem_of_further|].
  simpl. eauto.
Qed.

Lemma filter_none {A : Type} (P : A → Prop) `{∀ a, Decision (P a)} (l : list A) :
  (∀ a, a ∈ l → ¬ P a) → filter P l = [].
Proof.
  induction l as [|a l IH]; intros Hl; [done|].
  rewrite filter_cons_False by (apply Hl, list_elem_of_here).
  apply IH. intros a' Ha'. by apply Hl, list_elem_of_further.
Qed.

Lemma reserve_trace (pk_gen : gmap string Z) (db : DB) (classes : list model)
    (counts : gmap string nat) :
  db_trace (reserve pk_gen db classes counts).2 = db_trace db ++ [Reserve classes counts].
Proof. reflexivity. Qed.

Lemma not_saved_nothing_pending (self : saver) (cls : model) :
  cls ∈ SAVING_CLASSES_ORDER →
  cls ∉ filter (λ cls, pending self cls ≠ []) SAVING_CLASSES_ORDER →
  pending self cls = [].
Proof.
  intros Hin Hnot. destruct (decide (pending self cls = [])) as [|Hne]; [done|].
  exfalso. apply Hnot. by apply list_elem_of_filter.
Qed.

(** [save_all] on a well-formed saver: it returns, it saves the classes that
    have pending items in the order of [SAVING_CLASSES_ORDER], every pending
    list it saved is empty afterwards and the others are as they were, and
    every pending item of a class is a submitted row of that class. *)
Lemma save_all_spec (self : saver) (database : DB) :
  well_formed self = true →
  ∃ self' database',
    save_all self database = Ok (self', database') ∧
    saved_classes (db_trace database')
      = saved_classes (db_trace database)
        ++ filter (λ cls, pending self cls ≠ []) SAVING_CLASSES_ORDER ∧
    (∀ cls, cls ∈ SAVING_CLASSES_ORDER → pending self' cls = []) ∧
    dom (saving self') = dom (saving self) ∧
    (∀ cls, cls ∈ SAVING_CLASSES_ORDER →
            length (submitted cls (db_trace database'))
            = (length (submitted cls (db_trace database)) + length (pending self cls))%nat).
Proof.
  intros Hwf. unfold save_all. rewrite (saving_classes_spec self Hwf). cbn [bind].
  set (classes := filter (λ cls, pending self cls ≠ []) SAVING_CLASSES_ORDER).
  assert (Hsub : ∀ cls, cls ∈ classes → cls ∈ SAVING_CLASSES_ORDER).
  { intros cls Hin. by apply list_elem_of_filter in Hin as [_ Hin]. }
  destruct (mapR_total (λ cls, let* pending := get_items_to_add self cls in
                               Ok (__name__ cls, length pending)) classes) as [counts ->].
  { intros cls Hin. unfold get_items_to_add, getitem.
    rewrite (well_formed_registered self cls Hwf (Hsub cls Hin)). simpl. eauto. }
  cbn [bind].
  set (reserved := reserve (primary_key_generator self) database classes (list_to_map counts)).
  destruct (save_loop_spec classes self reserved.2 reserved.1)
    as (self1 & db1 & pk1 & Hloop & Htr & Hsav & Hdom & Hlen).
  { apply NoDup_filter, SAVING_CLASSES_ORDER_NoDup. }
  { intros cls Hin. rewrite (well_formed_registered self cls Hwf (Hsub cls Hin)). eauto. }
  cbv zeta in Hloop. rewrite Hloop. cbn [bind]. eexists _, _. split; [reflexivity|]. simpl.
  split; [|split; [|split]].
  - rewrite Htr. unfold reserved. rewrite reserve_trace, saved_classes_app. simpl.
    by rewrite app_nil_r.
  - intros cls Hin. unfold pending at 1. rewrite Hsav.
    destruct (decide (cls ∈ classes)) as [|Hnot]; [done|].
    rewrite (well_formed_registered self cls Hwf Hin). simpl.
    by apply not_saved_nothing_pending.
  - exact Hdom.
  - intros cls Hin. rewrite Hlen. unfold reserved.
    rewrite reserve_trace, submitted_app. simpl. rewrite app_nil_r.
    destruct (decide (cls ∈ classes)) as [|Hnot]; [done|].
    by rewrite (not_saved_nothing_pending self cls Hin Hnot).
Qed.

(** [save_all] on a saver with nothing pending reserves no key and submits
    nothing. *)
Lemma save_all_nothing_pending (self : saver) (database : DB) :
  well_formed self = true →
  (∀ cls, cls ∈ SAVING_CLASSES_ORDER → pending self cls = []) →
  save_all self database
  = Ok (self, mkDB (db_last_key database) (db_trace database ++ [Reserve [] ∅])).
Proof.
  intros Hwf Hempty. unfold save_all. rewrite (saving_classes_spec self Hwf). simpl.
  assert (Hnil : filter (λ cls, pending self cls ≠ []) SAVING_CLASSES_ORDER = []).
  { apply filter_none. intros cls Hin Hne. by apply Hne, Hempty. }
  rewrite Hnil. simpl. by destruct self.
Qed.

(** C7, as amended: [save_all] on a saver whose pending lists are those of
    [__init__] returns, and it saves the classes that have pending items in
    the order shared texts, issues, fix-info, issue instances,
    instance-to-text associations, trace frames, instance-to-frame
    associations, annotations, leaf associations, annotation-to-frame
    associations: every class with pending items, in this relative order, and
    as many rows of a class are submitted as it had pending items. *)
Theorem save_all_saves_in_order (self : saver) (database : DB) :
  well_formed self = true →
  SAVING_CLASSES_ORDER
  = [ SharedText; Issue; IssueInstanceFixInfo; IssueInstance; IssueInstanceSharedTextAssoc;
      TraceFrame; IssueInstanceTraceFrameAssoc; TraceFrameAnnotation; TraceFrameLeafAssoc;
      TraceFrameAnnotationTraceFrameAssoc ] ∧
  ∃ self' database',
    save_all self database = Ok (self', database') ∧
    saved_classes (db_trace database')
      = saved_classes (db_trace database)
        ++ filter (λ cls, pending self cls ≠ []) SAVING_CLASSES_ORDER ∧
    (∀ cls, cls ∈ SAVING_CLASSES_ORDER →
            length (submitted cls (db_trace database'))
            = (length (submitted cls (db_trace database)) + length (pending self cls))%nat).
Proof.
  intros Hwf. split; [reflexivity|].
  destruct (save_all_spec self database Hwf) as (self' & db' & Hsave & Htr & _ & _ & Hlen).
  eauto.
Qed.

Lemma save_all_saves_in_order_witness :
  ∃ self' database',
    save_all ex_saver ex_db = Ok (self', database') ∧
    saved_classes (db_trace database')
      = saved_classes (db_trace ex_db)
        ++ filter (λ cls, pending ex_saver cls ≠ []) SAVING_CLASSES_ORDER ∧
    (∀ cls, cls ∈ SAVING_CLASSES_ORDER →
            length (submitted cls (db_trace database'))
            = (length (submitted cls (db_trace ex_db)) + length (pending ex_saver cls))%nat).
Proof.
  apply (save_all_saves_in_order ex_saver ex_db).
  vm_compute. reflexivity.
Defined.

(** C7 as stated fails: with an issue instance and its fix info pending (and
    two texts), [save_all] saves the fix info before the instance, where the
    claimed order has the instance first. *)
Lemma save_all_saves_fix_info_before_instances :
  ∃ self' database',
    save_all ex_saver ex_db = Ok (self', database') ∧
    saved_classes (db_trace database') = [SharedText; IssueInstanceFixInfo; IssueInstance] ∧
    filter (λ cls, pending ex_saver cls ≠ []) claimed_order
    = [SharedText; IssueInstance; IssueInstanceFixInfo].
Proof.
  eexists _, _. split; [vm_compute; reflexivity|].
  split; vm_compute; reflexivity.
Qed.

(** C9: [save_all] on a saver whose pending lists are those of [__init__]
    returns with every pending list empty: [consume] takes every item off the
    list it drains, and a class that was not saved had nothing pending.  A
    second [save_all] saves no class and submits no row. *)
Theorem save_all_drains_pending (self : saver) (database : DB) :
  well_formed self = true →
  (∀ lst, consume lst = (lst, [])) ∧
  ∃ self' database',
    save_all self database = Ok (self', database') ∧
    (∀ name items, saving self' !! name = Some items → items = []) ∧
    ∃ self'' database'',
      save_all self' database' = Ok (self'', database'') ∧
      (∀ name items, saving self'' !! name = Some items → items = []) ∧
      saved_classes (db_trace database'') = saved_classes (db_trace database') ∧
      ∀ cls, submitted cls (db_trace database'') = submitted cls (db_trace database').
Proof.
  intros Hwf. split; [apply consume_all|].
  destruct (save_all_spec self database Hwf) as (self' & db' & Hsave & _ & Hempty & Hdom & _).
  assert (Hwf' : well_formed self' = true).
  { apply bool_decide_eq_true in Hwf. apply bool_decide_eq_true. by rewrite Hdom. }
  assert (Hall : ∀ name items, saving self' !! name = Some items → items = []).
  { intros name items Hl.
    assert (Hin : name ∈ dom (saving self')) by (apply elem_of_dom; eauto).
    apply bool_decide_eq_true in Hwf'. rewrite Hwf' in Hin.
    apply elem_of_list_to_set, list_elem_of_fmap in Hin as (cls & -> & Hcls).
    specialize (Hempty cls Hcls). unfold pending in Hempty. by rewrite Hl in Hempty. }
  exists self', db'. split; [done|]. split; [done|].
  eexists _, _. split; [by apply save_all_nothing_pending|]. simpl.
  split; [done|]. split.
  - rewrite saved_classes_app. simpl. by rewrite app_nil_r.
  - intros cls. rewrite submitted_app. simpl. by rewrite app_nil_r.
Qed.

Lemma save_all_drains_pending_witness :
  ∃ self' database',
    save_all ex_saver ex_db = Ok (self', database') ∧
    (∀ name items, saving self' !! name = Some items → items = []) ∧
    ∃ self'' database'',
      save_all self' database' = Ok (self'', database'') ∧
      (∀ name items, saving self'' !! name = Some items → items = []) ∧
      saved_classes (db_trace database'') = saved_classes (db_trace database') ∧
      ∀ cls, submitted cls (db_trace database'') = submitted cls (db_trace database').
Proof.
  apply (save_all_drains_pending ex_saver ex_db).
  vm_compute. reflexivity.
Defined.

End BulkSaverProperties.

(** ** What the population of a trimmed graph keeps *)

Section TrimmerProperties.

Context (h : gmap nat IssueInstance) (graph : TraceGraph).

Lemma foldl_invariant {A S : Type} (P : S → Prop) (f : S → A → S) (l : list A) (s : S) :
  (∀ s a, P s → P (f s a)) → P s → P (foldl f s l).
Proof. intros Hf. revert s. induction l as [|a l IH]; intros s HP; simpl; auto. Qed.

Lemma mapR_Ok_elem_of {A B : Type} (f : A → result B) (l : list A) (bs : list B) (b : B) :
  mapR f l = Ok bs → b ∈ bs → ∃ a, a ∈ l ∧ f a = Ok b.
Proof.
  revert bs. induction l as [|a l IH]; intros bs Hm Hb; simpl in Hm.
  - inversion Hm; subst. by apply not_elem_of_nil in Hb.
  - bind_inv Hm. bind_inv Hm. inversion Hm; subst.
    apply elem_of_cons in Hb as [->|Hb].
    + exists a. split; [apply list_elem_of_here | done].
    + destruct (IH _ Hx0 Hb) as (a' & Ha' & Hfa').
      exists a'. split; [by apply list_elem_of_further | done].
Qed.

Lemma _populate_shared_text_keeps (Q : TrimmedTraceGraph → Prop) (s s' : TrimmedTraceGraph)
    (id : Z) :
  (∀ s t, Q s → Q (on_tg (add_shared_text t) s)) →
  Q s → _populate_shared_text graph s id = Ok s' → Q s'.
Proof.
  intros Hst HQ Hp. unfold _populate_shared_text in Hp. bind_inv Hp.
  destruct (mem _ _); inversion Hp; subst; auto.
Qed.

(** [get_annotation_trace_frames] and [get_next_trace_frames] return frames
    of the graph. *)
Lemma frames_of_graph (ids : list Z) (fs : list TraceFrame) (f : TraceFrame) :
  mapR (getitem (_trace_frames graph)) ids = Ok fs → f ∈ fs →
  ∃ k, _trace_frames graph !! k = Some f.
Proof.
  intros Hm Hf. destruct (mapR_Ok_elem_of _ _ _ _ Hm Hf) as (k & _ & Hk).
  exists k. by apply getitem_Ok.
Qed.

Lemma _add_trace_annotation_with_keeps (Q : TrimmedTraceGraph → Prop)
    (pt : TrimmedTraceGraph → list Z → result TrimmedTraceGraph)
    (s s' : TrimmedTraceGraph) (a : TraceFrameAnnotation) :
  trace_stable graph Q →
  (∀ s ids s', Q s → pt s ids = Ok s' → Q s') →
  Q s → _add_trace_annotation_with graph pt s a = Ok s' → Q s'.
Proof.
  intros Hst Hpt HQ Ha. unfold _add_trace_annotation_with in Ha. bind_inv Ha.
  eapply Hpt; [|exact Ha].
  apply foldl_invariant; [intros; by apply (ts_annotation_assoc _ _ Hst)|].
  by apply (ts_annotation _ _ Hst).
Qed.

Lemma _add_trace_frame_with_keeps_after (Q : TrimmedTraceGraph → Prop)
    (pt : TrimmedTraceGraph → list Z → result TrimmedTraceGraph)
    (s s' : TrimmedTraceGraph) (f : TraceFrame) :
  trace_stable graph Q →
  (∀ s ids s', Q s → pt s ids = Ok s' → Q s') →
  Q (on_tg (add_trace_frame f) s) → _add_trace_frame_with graph pt s f = Ok s' → Q s'.
Proof.
  intros Hst Hpt HQ Ha. unfold _add_trace_frame_with in Ha.
  bind_inv Ha. bind_inv Ha. bind_inv Ha. bind_inv Ha. bind_inv Ha.
  assert (Hx0' : Q x0).
  { eapply (foldM_invariant Q); [|exact HQ|exact Hx0].
    intros s0 a s1 _ HQ0. by apply _add_trace_annotation_with_keeps. }
  assert (Hsh := ts_shared_text _ _ Hst).
  assert (Hx3' : Q x3).
  { eapply _populate_shared_text_keeps; [exact Hsh| |exact Hx3].
    eapply _populate_shared_text_keeps; [exact Hsh| |exact Hx2].
    eapply _populate_shared_text_keeps; [exact Hsh| |exact Hx1]. done. }
  eapply (foldM_invariant Q); [|exact Hx3'|exact Ha].
  intros s0 row s1 _ HQ0 Hrow. cbv beta in Hrow. bind_inv Hrow. inversion Hrow; subst.
  apply (ts_leaf_assoc _ _ Hst). destruct (mem _ _); auto.
Qed.

Lemma _add_trace_frame_with_keeps (Q : TrimmedTraceGraph → Prop)
    (pt : TrimmedTraceGraph → list Z → result TrimmedTraceGraph)
    (s s' : TrimmedTraceGraph) (k : Z) (f : TraceFrame) :
  trace_stable graph Q →
  (∀ s ids s', Q s → pt s ids = Ok s' → Q s') →
  _trace_frames graph !! k = Some f →
  Q s → _add_trace_frame_with graph pt s f = Ok s' → Q s'.
Proof.
  intros Hst Hpt Hf HQ. apply _add_trace_frame_with_keeps_after; [done..|].
  by apply (ts_frame _ _ Hst _ k).
Qed.

(** The presence of a frame is stable. *)
Lemma frame_present_stable (id : Z) :
  trace_stable graph (λ s, id ∈ dom (_trace_frames (tg s))).
Proof.
  split; simpl; intros; try done.
  - unfold add_shared_text. by destruct (existsb _ _).
  - rewrite dom_insert_L. set_solver.
Qed.

Lemma _populate_trace_keeps (fuel : nat) :
  ∀ (Q : TrimmedTraceGraph → Prop) (s : TrimmedTraceGraph) (ids : list Z)
    (s' : TrimmedTraceGraph),
    trace_stable graph Q →
    Q s → _populate_trace graph fuel s ids = Ok s' → Q s'.
Proof.
  induction fuel as [|fuel IH]; intros Q s ids s' Hst HQ Hp.
  - destruct ids; simpl in Hp; [by inversion Hp; subst | done].
  - destruct ids as [|id ids]; simpl in Hp.
    + by inversion Hp; subst.
    + destruct (bool_decide (id ∈ _visited_trace_frame_ids s)).
      * by eapply (IH Q).
      * bind_inv Hp. bind_inv Hp. bind_inv Hp.
        apply getitem_Ok in Hx.
        eapply (IH Q); [done| |exact Hp].
        apply (ts_visited _ _ Hst _ id x); [done| |].
        -- eapply (_add_trace_frame_with_keeps_after (λ s, tf_id x ∈ dom (_trace_frames (tg s))));
             [apply frame_present_stable| | |exact Hx0].
           ++ intros s1 ids1 s1' HQ1 Hp1.
              eapply (IH (λ s, tf_id x ∈ dom (_trace_frames (tg s))) s1);
                [apply frame_present_stable | exact HQ1 | exact Hp1].
           ++ simpl. rewrite dom_insert_L. set_solver.
        -- eapply (_add_trace_frame_with_keeps Q); [done| |exact Hx|done|exact Hx0].
           intros s1 ids1 s1' HQ1 Hp1. by eapply (IH Q s1).
Qed.

Lemma _add_trace_frame_keeps (Q : TrimmedTraceGraph → Prop) (fuel : nat)
    (s s' : TrimmedTraceGraph) (k : Z) (f : TraceFrame) :
  trace_stable graph Q → _trace_frames graph !! k = Some f →
  Q s → _add_trace_frame graph fuel s f = Ok s' → Q s'.
Proof.
  intros Hst Hf HQ Ha. eapply _add_trace_frame_with_keeps; [done| |done|done|exact Ha].
  intros s1 ids1 s1' HQ1 Hp1. by eapply _populate_trace_keeps.
Qed.

Lemma _populate_issue_keeps (Q : TrimmedTraceGraph → Prop) (s s' : TrimmedTraceGraph) (k : Z) :
  issue_stable h Q →
  (∀ r s, _issue_instances graph !! k = Some r → Q s → Q (on_tg (add_issue_instance h r) s)) →
  Q s → _populate_issue h graph s k = Ok s' → Q s'.
Proof.
  intros Hst Hinst HQ Hp. unfold _populate_issue in Hp.
  bind_inv Hp. bind_inv Hp. bind_inv Hp. bind_inv Hp. bind_inv Hp.
  apply getitem_Ok in Hx.
  assert (Hsh := is_shared_text _ _ Hst).
  assert (Hx3' : Q x3).
  { eapply _populate_shared_text_keeps; [exact Hsh| |exact Hx3].
    eapply _populate_shared_text_keeps; [exact Hsh| |exact Hx2].
    eapply _populate_shared_text_keeps; [exact Hsh| |exact Hx1]. done. }
  eapply (foldM_invariant Q); [| |exact Hp].
  - intros s0 id s1 _ HQ0 Hrow. cbv beta in Hrow. bind_inv Hrow. inversion Hrow; subst.
    apply (is_text_assoc _ _ Hst). destruct (mem _ _); auto.
  - assert (Hadded : Q (on_tg (add_issue x0) (on_tg (add_issue_instance h x) x3))).
    { apply (is_issue _ _ Hst). by apply Hinst. }
    destruct (_issue_instance_fix_info graph !! k); [|done].
    by apply (is_fix_info _ _ Hst).
Qed.

Lemma _populate_issue_trace_keeps (Q : TrimmedTraceGraph → Prop) (fuel : nat)
    (s s' : TrimmedTraceGraph) (k : Z) (kind : option TraceKind) :
  trace_stable graph Q →
  (∀ r f s, _issue_instances graph !! k = Some r →
            Q s → Q (on_tg (add_issue_instance_trace_frame_assoc (deref h r) f) s)) →
  Q s → _populate_issue_trace h graph fuel s k kind = Ok s' → Q s'.
Proof.
  intros Hst Hassoc HQ Hp. unfold _populate_issue_trace in Hp.
  bind_inv Hp. bind_inv Hp. apply getitem_Ok in Hx.
  eapply _populate_trace_keeps; [done| |exact Hp].
  refine (foldM_invariant (λ acc : TrimmedTraceGraph * list Z, Q acc.1) _ _ _ (s, []) x0 HQ Hx0).
  intros acc id acc' _ HQ0 Hrow. cbv beta in Hrow. bind_inv Hrow.
  destruct (bool_decide _); inversion Hrow; subst; simpl; [|done].
  by apply Hassoc.
Qed.

Lemma _populate_issue_and_traces_keeps (Q : TrimmedTraceGraph → Prop) (fuel : nat)
    (s s' : TrimmedTraceGraph) (k : Z) :
  populate_stable h graph Q →
  Q s → _populate_issue_and_traces h graph fuel s k = Ok s' → Q s'.
Proof.
  intros Hst HQ Hp. unfold _populate_issue_and_traces in Hp. bind_inv Hp.
  eapply _populate_issue_trace_keeps; [apply Hst| | |exact Hp].
  - intros r f s0 Hr. by apply (ps_frame_assoc _ _ _ Hst _ k).
  - eapply _populate_issue_keeps; [apply Hst| |exact HQ|exact Hx].
    intros r s0 Hr. by apply (ps_instance _ _ _ Hst _ k).
Qed.

Lemma _populate_affected_issues_keeps (Q : TrimmedTraceGraph → Prop) (fuel : nat)
    (s s' : TrimmedTraceGraph) :
  populate_stable h graph Q →
  Q s → _populate_affected_issues h graph fuel s = Ok s' → Q s'.
Proof.
  intros Hst HQ Hp. unfold _populate_affected_issues in Hp. bind_inv Hp.
  eapply (foldM_invariant Q); [|exact HQ|exact Hp].
  intros s0 id s1 _ HQ0 Hrow. cbv beta in Hrow. destruct (mem _ _).
  - by inversion Hrow; subst.
  - by eapply _populate_issue_and_traces_keeps.
Qed.

Lemma _visit_instance_keeps (Q : TrimmedTraceGraph → Prop) (condition : TraceFrame)
    (leaves : gset Z) (s s' : TrimmedTraceGraph) (k : Z) :
  populate_stable h graph Q →
  Q s → _visit_instance h graph condition leaves s k = Ok s' → Q s'.
Proof.
  intros Hst HQ Hv. unfold _visit_instance in Hv. bind_inv Hv. bind_inv Hv.
  apply getitem_Ok in Hx.
  destruct (bool_decide _); [|by inversion Hv; subst].
  bind_inv Hv. inversion Hv; subst.
  apply (ps_frame_assoc _ _ _ Hst _ k); [done|].
  destruct (mem _ _); [by inversion Hx1; subst|].
  eapply _populate_issue_keeps; [apply Hst| |exact HQ|exact Hx1].
  intros r s0 Hr. by apply (ps_instance _ _ _ Hst _ k).
Qed.

Lemma _expand_keeps (Q : TrimmedTraceGraph → Prop) (s : TrimmedTraceGraph)
    (visited : gmap Z (gset Z)) (que : list (TraceFrame * gset Z)) (condition : TraceFrame)
    (leaves : gset Z) (st' : search_state) :
  populate_stable h graph Q →
  Q s → _expand h graph s visited que condition leaves = Ok st' → Q (s_self st').
Proof.
  intros Hst HQ He. unfold _expand in He. bind_inv He. bind_inv He.
  inversion He; subst; simpl.
  eapply (foldM_invariant Q); [|exact HQ|exact Hx].
  intros s0 k s1 _ HQ0. by apply _visit_instance_keeps.
Qed.

Lemma _search_step_keeps (Q : TrimmedTraceGraph → Prop) (st st' : search_state) :
  populate_stable h graph Q →
  Q (s_self st) → _search_step h graph st = Ok st' → Q (s_self st').
Proof.
  intros Hst HQ Hs. unfold _search_step in Hs.
  destruct (s_que st) as [|[condition leaves] que]; [by inversion Hs; subst|].
  destruct (s_visited st !! tf_id condition).
  - destruct (bool_decide _); [by inversion Hs; subst|]. by eapply _expand_keeps.
  - by eapply _expand_keeps.
Qed.

Lemma _search_loop_keeps (Q : TrimmedTraceGraph → Prop) (fuel : nat) (st st' : search_state) :
  populate_stable h graph Q →
  Q (s_self st) → _search_loop h graph fuel st = Ok st' → Q (s_self st').
Proof.
  intros Hst. revert st. induction fuel as [|fuel IH]; intros st HQ Hl; simpl in Hl.
  - destruct (s_que st); [by inversion Hl; subst | done].
  - destruct (s_que st) eqn:Hque; [by inversion Hl; subst|].
    bind_inv Hl. eapply IH; [|exact Hl]. by eapply _search_step_keeps.
Qed.

Lemma _populate_issues_from_affected_conditions_keeps (Q : TrimmedTraceGraph → Prop)
    (fuel : nat) (s s' : TrimmedTraceGraph) (initial : list TraceFrame) :
  populate_stable h graph Q →
  Q s → _populate_issues_from_affected_conditions h graph fuel s initial = Ok s' → Q s'.
Proof.
  intros Hst HQ Hp. unfold _populate_issues_from_affected_conditions in Hp.
  bind_inv Hp. bind_inv Hp.
  assert (Hx' : Q (s_self x)).
  { unfold backward_search in Hx. eapply (_search_loop_keeps Q); [done| |exact Hx]. done. }
  eapply (foldM_invariant Q); [| |exact Hp].
  - intros s0 id s1 _ HQ0 Hrow. cbv beta in Hrow. bind_inv Hrow. apply getitem_Ok in Hx1.
    eapply _add_trace_frame_keeps; [apply Hst|exact Hx1|exact HQ0|exact Hrow].
  - eapply _populate_trace_keeps; [apply Hst|exact Hx'|exact Hx0].
Qed.

Lemma repair_instance_keeps (Q : TrimmedTraceGraph → Prop) (fuel : nat)
    (s s' : TrimmedTraceGraph) (k : Z) :
  trace_stable graph Q →
  (∀ r f s, _issue_instances graph !! k = Some r →
            Q s → Q (on_tg (add_issue_instance_trace_frame_assoc (deref h r) f) s)) →
  Q s → repair_instance h graph fuel s k = Ok s' → Q s'.
Proof.
  intros Hst Hassoc HQ Hr. unfold repair_instance in Hr. bind_inv Hr. bind_inv Hr. bind_inv Hr.
  assert (Hx1' : Q x1).
  { destruct (bool_decide (size x = 0%nat)); [|by inversion Hx1; subst].
    eapply _populate_issue_trace_keeps; [exact Hst|exact Hassoc|exact HQ|exact Hx1]. }
  destruct (bool_decide (size x0 = 0%nat)); [|by inversion Hr; subst].
  eapply _populate_issue_trace_keeps; [exact Hst|exact Hassoc|exact Hx1'|exact Hr].
Qed.

(** A stable predicate that holds when [populate_from_trace_graph] starts
    holds of the graph it has populated. *)
Lemma populate_graph_keeps (Q : TrimmedTraceGraph → Prop) (fuel : nat)
    (s s' : TrimmedTraceGraph) :
  populate_stable h graph Q →
  Q (set_visited ∅ s) → populate_graph h graph fuel s = Ok s' → Q s'.
Proof.
  intros Hst HQ Hp. unfold populate_graph in Hp. bind_inv Hp.
  assert (Hx' : Q x) by (by eapply _populate_affected_issues_keeps).
  destruct (_affected_issues_only x); [by inversion Hp; subst|].
  bind_inv Hp.
  eapply (foldM_invariant Q); [| |exact Hp].
  - intros s0 k s1 _ HQ0. apply repair_instance_keeps; [apply Hst| |exact HQ0].
    intros r f s2 Hr. by apply (ps_frame_assoc _ _ _ Hst _ k).
  - unfold _populate_issues_from_affected_trace_frames in Hx0. bind_inv Hx0.
    by eapply _populate_issues_from_affected_conditions_keeps.
Qed.

(** ** The derived metrics *)

Lemma least_or_zero_unique (P : Z → Prop) (m m' : Z) :
  least_or_zero P m → least_or_zero P m' → m = m'.
Proof.
  intros [[Hm Hle]|[Hno ->]] [[Hm' Hle']|[Hno' ->]].
  - specialize (Hle _ Hm'). specialize (Hle' _ Hm). lia.
  - by destruct (Hno' m).
  - by destruct (Hno m').
  - done.
Qed.

Lemma least_or_zero_ext (P P' : Z → Prop) (m : Z) :
  (∀ d, P d ↔ P' d) → least_or_zero P m → least_or_zero P' m.
Proof.
  intros Hext [[Hm Hle]|[Hno ->]]; [left|right].
  - split; [by apply Hext|]. intros d Hd. by apply Hle, Hext.
  - split; [|done]. intros d Hd. by apply (Hno d), Hext.
Qed.

Lemma foldr_min_least (d : Z) (l : list Z) :
  foldr Z.min d l ∈ d :: l ∧ ∀ x, x ∈ d :: l → foldr Z.min d l ≤ x.
Proof.
  induction l as [|y l [Hin Hle]]; simpl.
  - split; [apply list_elem_of_here|]. intros x Hx.
    apply list_elem_of_singleton in Hx. lia.
  - split.
    + destruct (Z.min_spec y (foldr Z.min d l)) as [[_ ->]|[_ ->]].
      * apply list_elem_of_further, list_elem_of_here.
      * apply elem_of_cons in Hin as [Hin|Hin]; [rewrite Hin; apply list_elem_of_here|].
        by do 2 apply list_elem_of_further.
    + intros x Hx. apply elem_of_cons in Hx as [->|Hx].
      * specialize (Hle d (list_elem_of_here _ _)). lia.
      * apply elem_of_cons in Hx as [->|Hx]; [lia|].
        specialize (Hle x (list_elem_of_further _ _ _ Hx)). lia.
Qed.

Lemma minimum_or_zero_least (l : list Z) : least_or_zero (λ d, d ∈ l) (minimum_or_zero l).
Proof.
  destruct l as [|d l]; simpl.
  - right. split; [|done]. intros d. apply not_elem_of_nil.
  - left. apply foldr_min_least.
Qed.

Lemma running_min_ext (S S' : Z → Prop) (acc : option Z) :
  (∀ d, S d ↔ S' d) → running_min S acc → running_min S' acc.
Proof.
  intros Hext. destruct acc as [m|]; simpl.
  - intros [Hm Hle]. split; [by apply Hext|]. intros d Hd. by apply Hle, Hext.
  - intros Hno d Hd. by apply (Hno d), Hext.
Qed.

Lemma min_leaf_depth_rows (self : TraceGraph) (rows : list (Z * option Z)) :
  ∀ (S : Z → Prop) (acc acc' : option Z),
    running_min S acc →
    foldM (λ (min_depth : option Z) (row : Z * option Z),
        let* text := get_shared_text_by_local_id self row.1 in
        let kind := st_kind text in
        if bool_decide (kind = SOURCE ∨ kind = SINK) then
          match row.2 with
          | Some depth =>
              match min_depth with
              | None => Ok (Some depth)
              | Some m => if depth <? m then Ok (Some depth) else Ok min_depth
              end
          | None => Ok min_depth
          end
        else Ok min_depth) acc rows = Ok acc' →
    running_min (λ d, S d ∨ ∃ row, row ∈ rows ∧ row_counts self row d) acc'.
Proof.
  induction rows as [|row rows IH]; intros S acc acc' Hacc Hfold; simpl in Hfold.
  - inversion Hfold; subst. eapply running_min_ext; [|exact Hacc].
    intros d. split; [by left|]. intros [Hd|(row & Hin & _)]; [done|].
    by apply not_elem_of_nil in Hin.
  - bind_inv Hfold. bind_inv Hx. apply getitem_Ok in Hx0.
    eapply running_min_ext; [|eapply (IH (λ d, S d ∨ row_counts self row d)); [|exact Hfold]].
    + intros d. split.
      * intros [[Hd|Hd]|(row' & Hin & Hd)]; [by left|right..].
        -- exists row. split; [apply list_elem_of_here|done].
        -- exists row'. split; [by apply list_elem_of_further|done].
      * intros [Hd|(row' & Hin & Hd)]; [by left; left|].
        apply elem_of_cons in Hin as [->|Hin]; [by left; right|].
        right. exists row'. by split.
    + assert (Hskip : ¬ (∃ d, row_counts self row d) → running_min (λ d, S d ∨ row_counts self row d) acc).
      { intros Hno. eapply running_min_ext; [|exact Hacc].
        intros d. split; [by left|]. intros [Hd|Hd]; [done|]. destruct Hno. eauto. }
      destruct (bool_decide (st_kind x0 = SOURCE ∨ st_kind x0 = SINK)) eqn:Hkind.
      * apply bool_decide_eq_true in Hkind.
        destruct row as [leaf [depth|]]; simpl in *.
        -- assert (Hrow : row_counts self (leaf, Some depth) depth).
           { split; [done|]. exists x0. by split. }
           assert (Honly : ∀ d, row_counts self (leaf, Some depth) d → d = depth).
           { intros d [Hd _]. simpl in Hd. congruence. }
           destruct acc as [m|]; simpl in Hacc.
           ++ destruct Hacc as [Hm Hle].
              destruct (depth <? m) eqn:Hlt; inversion Hx; subst; simpl.
              ** apply Z.ltb_lt in Hlt. split; [by right|].
                 intros d [Hd|Hd]; [specialize (Hle d Hd); lia|].
                 rewrite (Honly d Hd). lia.
              ** apply Z.ltb_ge in Hlt. split; [by left|].
                 intros d [Hd|Hd]; [by apply Hle|]. rewrite (Honly d Hd). lia.
           ++ inversion Hx; subst; simpl. split; [by right|].
              intros d [Hd|Hd]; [by destruct (Hacc d)|]. rewrite (Honly d Hd). lia.
        -- inversion Hx; subst. apply Hskip. intros [d [Hd _]]. simpl in Hd. congruence.
      * apply bool_decide_eq_false in Hkind. inversion Hx; subst.
        apply Hskip. intros [d [_ (text & Ht & Hk)]]. rewrite Hx0 in Ht.
        inversion Ht; subst. done.
Qed.

Lemma min_leaf_depth_frames (self : TraceGraph) (tfs : list Z) :
  ∀ (S : Z → Prop) (acc acc' : option Z),
    running_min S acc →
    foldM (λ (min_depth : option Z) (tf_id : Z),
      let leaf_depths := dget (_trace_frame_leaf_assoc self) tf_id in
      foldM (λ (min_depth : option Z) (row : Z * option Z),
        let* text := get_shared_text_by_local_id self row.1 in
        let kind := st_kind text in
        if bool_decide (kind = SOURCE ∨ kind = SINK) then
          match row.2 with
          | Some depth =>
              match min_depth with
              | None => Ok (Some depth)
              | Some m => if depth <? m then Ok (Some depth) else Ok min_depth
              end
          | None => Ok min_depth
          end
        else Ok min_depth)
      min_depth (elements leaf_depths)) acc tfs = Ok acc' →
    running_min (λ d, S d ∨ ∃ tf row, tf ∈ tfs ∧
                          row ∈ dget (_trace_frame_leaf_assoc self) tf ∧
                          row_counts self row d) acc'.
Proof.
  induction tfs as [|tf tfs IH]; intros S acc acc' Hacc Hfold; simpl in Hfold.
  - inversion Hfold; subst. eapply running_min_ext; [|exact Hacc].
    intros d. split; [by left|]. intros [Hd|(tf & row & Hin & _)]; [done|].
    by apply not_elem_of_nil in Hin.
  - bind_inv Hfold.
    pose proof (min_leaf_depth_rows self _ S acc x Hacc Hx) as Hrows.
    eapply running_min_ext; [|eapply (IH _ x acc' Hrows Hfold)].
    intros d. split.
    + intros [[Hd|(row & Hin & Hd)]|(tf' & row & Hin & Hrow & Hd)]; [by left|right..].
      * exists tf, row. split; [apply list_elem_of_here|]. split; [|done].
        by apply elem_of_elements.
      * exists tf', row. split; [by apply list_elem_of_further|done].
    + intros [Hd|(tf' & row & Hin & Hrow & Hd)]; [by left; left|].
      apply elem_of_cons in Hin as [->|Hin].
      * left. right. exists row. split; [by apply elem_of_elements|done].
      * right. exists tf', row. by split.
Qed.

Lemma _get_min_leaf_depth_spec (self : TraceGraph) (ids : gset Z) (m : Z) :
  _get_min_leaf_depth self ids = Ok m →
  least_or_zero (λ d, ∃ tf row, tf ∈ ids ∧ row ∈ dget (_trace_frame_leaf_assoc self) tf ∧
                                row_counts self row d) m.
Proof.
  intros Hm. unfold _get_min_leaf_depth in Hm. bind_inv Hm.
  pose proof (min_leaf_depth_frames self _ (λ _, False) None x (λ d Hd, Hd) Hx) as Hrun.
  destruct x as [m'|]; inversion Hm; subst; simpl in Hrun.
  - left. destruct Hrun as [Hseen Hle].
    destruct Hseen as [Hf|(tf & row & Hin & Hd)]; [done|]. split.
    + exists tf, row. split; [by apply elem_of_elements|done].
    + intros d (tf' & row' & Hin' & Hd'). apply Hle. right.
      exists tf', row'. split; [by apply elem_of_elements|done].
  - right. split; [|done]. intros d (tf & row & Hin & Hd). apply (Hrun d). right.
    exists tf, row. split; [by apply elem_of_elements|done].
Qed.

Lemma filterR_Ok_elem_of {A : Type} (p : A → result bool) (l r : list A) (x : A) :
  filterR p l = Ok r → x ∈ r ↔ x ∈ l ∧ p x = Ok true.
Proof.
  revert r. induction l as [|a l IH]; intros r Hf; simpl in Hf.
  - inversion Hf; subst. split; [by intros ?%not_elem_of_nil | by intros [?%not_elem_of_nil _]].
  - bind_inv Hf. bind_inv Hf. inversion Hf; subst. specialize (IH _ Hx0).
    destruct x0.
    + rewrite !elem_of_cons, IH. split; [intros [->|[? ?]]; auto|].
      intros [[->|?] ?]; auto.
    + rewrite elem_of_cons, IH. split; [intros [? ?]; auto|].
      intros [[->|?] ?]; [congruence|auto].
Qed.

Lemma first_hops_of_kind_spec (self : TraceGraph) (i : Z) (kind : TraceKind) (ids : gset Z)
    (tf : Z) :
  first_hops_of_kind self i kind = Ok ids →
  tf ∈ ids ↔ tf ∈ dget (_issue_instance_trace_frame_assoc self) i ∧
             ∃ f, _trace_frames self !! tf = Some f ∧ tf_kind f = kind.
Proof.
  intros Hf. unfold first_hops_of_kind in Hf. bind_inv Hf. inversion Hf; subst.
  rewrite elem_of_list_to_set, (filterR_Ok_elem_of _ _ _ _ Hx), elem_of_elements.
  unfold get_trace_frame_from_id, getitem.
  split; intros [Hin Hk]; (split; [done|]).
  - destruct (_trace_frames self !! tf) as [f|]; simpl in Hk; [|done].
    inversion Hk as [Hb]. apply bool_decide_eq_true in Hb. eauto.
  - destruct Hk as (f & -> & Hk). simpl. by rewrite bool_decide_eq_true_2.
Qed.

(** The first hops of every instance could be read. *)
Lemma _get_min_depth_least (self : TraceGraph) (i : Z) (kind : TraceKind) (m : Z) :
  (let* first_hop_tf_ids := first_hops_of_kind self i kind in
   _get_min_leaf_depth self first_hop_tf_ids) = Ok m →
  least_or_zero (leaf_depth_at self i kind) m.
Proof.
  intros Hm. bind_inv Hm. apply _get_min_leaf_depth_spec in Hm.
  eapply least_or_zero_ext; [|exact Hm].
  intros d. unfold leaf_depth_at. split.
  - intros (tf & row & Hin & Hrow & Hd).
    apply (first_hops_of_kind_spec _ _ _ _ _ Hx) in Hin as (Hin & f & Hf & Hk).
    exists tf, f, row. done.
  - intros (tf & f & row & Hin & Hf & Hk & Hrow & Hd). exists tf, row.
    split; [|done]. apply (first_hops_of_kind_spec _ _ _ _ _ Hx). eauto.
Qed.

Lemma elem_of_leaf_depths (self : TraceGraph) (i : Z) (kind : TraceKind) (d : Z) :
  d ∈ leaf_depths self i kind [SOURCE; SINK] ↔ leaf_depth_at self i kind d.
Proof.
  unfold leaf_depths, leaf_depth_at. rewrite list_elem_of_bind. split.
  - intros (tf & Hd & Hin%elem_of_elements).
    destruct (_trace_frames self !! tf) as [f|] eqn:Hf; [|by apply not_elem_of_nil in Hd].
    destruct (decide (tf_kind f = kind)) as [Hk|]; [|by apply not_elem_of_nil in Hd].
    apply list_elem_of_bind in Hd as (row & Hd & Hrow%elem_of_elements).
    exists tf, f, row. repeat (split; [done|]). unfold row_counts.
    destruct row as [leaf [depth|]]; simpl in *; [|by apply not_elem_of_nil in Hd].
    destruct (_shared_texts self !! leaf) as [text|]; [|by apply not_elem_of_nil in Hd].
    destruct (decide (st_kind text ∈ [SOURCE; SINK])) as [Hkind|];
      [|by apply not_elem_of_nil in Hd].
    apply list_elem_of_singleton in Hd as ->. split; [done|]. exists text. split; [done|].
    set_solver.
  - intros (tf & f & row & Hin & Hf & Hk & Hrow & Hd & text & Ht & Hkind).
    exists tf. split; [|by apply elem_of_elements]. rewrite Hf, decide_True by done.
    apply list_elem_of_bind. exists row. split; [|by apply elem_of_elements].
    rewrite Hd, Ht, decide_True by set_solver. apply list_elem_of_here.
Qed.

Lemma _get_min_depth_to_sources_spec (self : TraceGraph) (i m : Z) :
  _get_min_depth_to_sources self i = Ok m →
  m = minimum_or_zero (leaf_depths self i POSTCONDITION [SOURCE; SINK]).
Proof.
  intros Hm. apply _get_min_depth_least in Hm.
  eapply least_or_zero_unique; [exact Hm|].
  eapply least_or_zero_ext; [|apply minimum_or_zero_least].
  intros d. apply elem_of_leaf_depths.
Qed.

Lemma _get_min_depth_to_sinks_spec (self : TraceGraph) (i m : Z) :
  _get_min_depth_to_sinks self i = Ok m →
  m = minimum_or_zero (leaf_depths self i PRECONDITION [SOURCE; SINK]).
Proof.
  intros Hm. apply _get_min_depth_least in Hm.
  eapply least_or_zero_unique; [exact Hm|].
  eapply least_or_zero_ext; [|apply minimum_or_zero_least].
  intros d. apply elem_of_leaf_depths.
Qed.

Lemma deref_insert (heap : gmap nat IssueInstance) (r : nat) (x : IssueInstance) :
  deref (<[r := x]> heap) r = x.
Proof. unfold deref. apply lookup_total_insert_eq. Qed.

Lemma deref_insert_ne (heap : gmap nat IssueInstance) (r r' : nat) (x : IssueInstance) :
  r ≠ r' → deref (<[r := x]> heap) r' = deref heap r'.
Proof. intros Hne. unfold deref. by apply lookup_total_insert_ne. Qed.

Lemma recompute_instance_spec (self : TraceGraph) (histo : Z → Z)
    (heap heap' : gmap nat IssueInstance) (r : nat) :
  recompute_instance self histo heap r = Ok heap' →
  heap' = <[r := recomputed self histo (deref heap r)]> heap.
Proof.
  intros Hr. unfold recompute_instance in Hr. bind_inv Hr. bind_inv Hr.
  rewrite !deref_insert in *. simpl in *.
  apply _get_min_depth_to_sources_spec in Hx. apply _get_min_depth_to_sinks_spec in Hx0.
  inversion Hr; subst. by rewrite !insert_insert_eq.
Qed.

Lemma recomputed_idempotent (self : TraceGraph) (histo : Z → Z) (x : IssueInstance) :
  recomputed self histo (recomputed self histo x) = recomputed self histo x.
Proof. reflexivity. Qed.

(** The loop of [_recompute_instance_properties]: the objects it runs over are
    recomputed, the others are not touched. *)
Lemma recompute_loop_spec (self : TraceGraph) (histo : Z → Z) (l : list nat) :
  ∀ heap heap' : gmap nat IssueInstance,
    foldM (recompute_instance self histo) heap l = Ok heap' →
    ∀ r, (r ∈ l → deref heap' r = recomputed self histo (deref heap r)) ∧
         (r ∉ l → heap' !! r = heap !! r).
Proof.
  induction l as [|a l IH]; intros heap heap' Hfold r; simpl in Hfold.
  - inversion Hfold; subst. split; [by intros ?%not_elem_of_nil | done].
  - bind_inv Hfold. apply recompute_instance_spec in Hx. subst x.
    destruct (IH _ _ Hfold r) as [Hin Hout].
    destruct (decide (r = a)) as [->|Hne].
    + split; [intros _ | intros Hnot; exfalso; apply Hnot, list_elem_of_here].
      destruct (decide (a ∈ l)) as [Ha|Ha].
      * by rewrite (Hin Ha), deref_insert, recomputed_idempotent.
      * unfold deref at 1. unfold lookup_total, map_lookup_total.
        rewrite (Hout Ha), lookup_insert_eq. done.
    + split.
      * intros [Heq|Hr]%elem_of_cons; [done|].
        by rewrite (Hin Hr), deref_insert_ne.
      * intros Hnot. rewrite Hout by (intros Hr; apply Hnot; by apply list_elem_of_further).
        by rewrite lookup_insert_ne.
Qed.

(** ** The instances of a trimmed graph are the objects of the source graph *)




Lemma elem_of_instance_values (g : TraceGraph) (r : nat) :
  r ∈ instance_values g ↔ ∃ i, _issue_instances g !! i = Some r.
Proof.
  unfold instance_values. rewrite list_elem_of_fmap. split.
  - intros ([i r'] & -> & Hin). exists i. by apply elem_of_map_to_list.
  - intros [i Hi]. exists (i, r). split; [done|]. by apply elem_of_map_to_list.
Qed.

Lemma populate_from_trace_graph_inv (fuel : nat) (self : TrimmedTraceGraph)
    (h' : gmap nat IssueInstance) (out : TrimmedTraceGraph) :
  populate_from_trace_graph h graph fuel self = Ok (h', out) →
  populate_graph h graph fuel self = Ok out ∧
  _recompute_instance_properties h (tg out) = Ok h'.
Proof.
  intros Hp. unfold populate_from_trace_graph in Hp. bind_inv Hp. bind_inv Hp.
  by inversion Hp; subst.
Qed.



End TrimmerProperties.

Lemma ex_run_result : ex_run = Ok (ex_heap_after, ex_out).
Proof. vm_compute. reflexivity. Qed.





(** ** The backward search: the hits *)

Section SearchProperties.

Context (h : gmap nat IssueInstance) (graph : TraceGraph).

(** Every instance of the trimmed graph satisfies [X]. *)
Lemma instances_within_stable (X : Z → Prop) :
  trace_stable graph (λ s, ∀ i, is_Some (_issue_instances (tg s) !! i) → X i) ∧
  issue_stable h (λ s, ∀ i, is_Some (_issue_instances (tg s) !! i) → X i).
Proof.
  split; split; intros; simpl in *;
    try (unfold add_shared_text in *; destruct (existsb _ _); simpl in * );
    by auto.
Qed.

Lemma visited_le_refl (visited : gmap Z (gset Z)) : visited_le visited visited.
Proof. intros c seen Hc. eauto. Qed.

Lemma visited_le_trans (v1 v2 v3 : gmap Z (gset Z)) :
  visited_le v1 v2 → visited_le v2 v3 → visited_le v1 v3.
Proof.
  intros H12 H23 c seen Hc. destruct (H12 c seen Hc) as (seen2 & Hc2 & Hsub).
  destruct (H23 c seen2 Hc2) as (seen3 & Hc3 & Hsub3). exists seen3. split; [done|set_solver].
Qed.

Lemma visited_le_insert (visited : gmap Z (gset Z)) (c : Z) (seen' : gset Z) :
  (∀ seen, visited !! c = Some seen → seen ⊆ seen') →
  visited_le visited (<[c := seen']> visited).
Proof.
  intros Hsub c' seen Hc'. destruct (decide (c = c')) as [<-|Hne].
  - exists seen'. rewrite lookup_insert_eq. split; [done | by apply Hsub].
  - exists seen. by rewrite lookup_insert_ne.
Qed.

Lemma hit_at_mono (visited visited' : gmap Z (gset Z)) (i : Z) :
  visited_le visited visited' → hit_at h graph visited i → hit_at h graph visited' i.
Proof.
  intros Hle (c & active & k & r & leaves & Hc & Hk & Hr & Hid & Hleaves & Hmeet).
  destruct (Hle c active Hc) as (active' & Hc' & Hsub).
  exists c, active', k, r, leaves. repeat (split; [done|]). set_solver.
Qed.

(** The hit test of one instance: the instance it may add has local id
    [inst_id] of the object, and its leaves meet [leaves]. *)
Lemma _visit_instance_hit (X : Z → Prop) (condition : TraceFrame) (leaves : gset Z)
    (s s' : TrimmedTraceGraph) (k : Z) :
  (∀ r issue_leaves,
     _issue_instances graph !! k = Some r →
     _get_instance_leaf_ids graph (inst_id (deref h r)) = Ok issue_leaves →
     issue_leaves ∩ leaves ≠ ∅ → X (inst_id (deref h r))) →
  (∀ i, is_Some (_issue_instances (tg s) !! i) → X i) →
  _visit_instance h graph condition leaves s k = Ok s' →
  ∀ i, is_Some (_issue_instances (tg s') !! i) → X i.
Proof.
  intros Hhit HX Hv. unfold _visit_instance in Hv. bind_inv Hv. bind_inv Hv.
  apply getitem_Ok in Hx.
  destruct (bool_decide (0 < size (x0 ∩ leaves))%nat) eqn:Hsize; [|by inversion Hv; subst].
  apply bool_decide_eq_true in Hsize.
  assert (Hmeet : x0 ∩ leaves ≠ ∅).
  { intros Hempty. rewrite Hempty, size_empty in Hsize. lia. }
  bind_inv Hv. inversion Hv; subst. simpl.
  destruct (mem k (_issue_instances (tg s))); [by inversion Hx1; subst|].
  destruct (instances_within_stable X) as [_ Hst].
  eapply (_populate_issue_keeps h graph _ s x1 k Hst); [|exact HX|exact Hx1].
  intros r s0 Hr HX0 i Hi. simpl in Hi.
  rewrite Hr in Hx. inversion Hx; subst.
  apply lookup_insert_is_Some in Hi as [<-|[_ Hi]]; [by eapply Hhit | by apply HX0].
Qed.

(** The invariant of the loop: an instance that the search has added has a
    hit at a frame the search has recorded. *)
Lemma _search_step_hits (base : gmap Z nat) (st st' : search_state) :
  (∀ i, is_Some (_issue_instances (tg (s_self st)) !! i) →
        base !! i = None → hit_at h graph (s_visited st) i) →
  _search_step h graph st = Ok st' →
  visited_le (s_visited st) (s_visited st') ∧
  ∀ i, is_Some (_issue_instances (tg (s_self st')) !! i) →
       base !! i = None → hit_at h graph (s_visited st') i.
Proof.
  intros Hinv Hs. unfold _search_step in Hs.
  destruct (s_que st) as [|[condition leaves] que]; [inversion Hs; subst|].
  { split; [apply visited_le_refl | done]. }
  assert (Hexpand : ∀ new_leaves seen' st1,
    (∀ seen, s_visited st !! tf_id condition = Some seen → seen ⊆ seen') →
    new_leaves ⊆ seen' →
    _expand h graph (s_self st) (<[tf_id condition := seen']> (s_visited st)) que
            condition new_leaves = Ok st1 →
    visited_le (s_visited st) (s_visited st1) ∧
    ∀ i, is_Some (_issue_instances (tg (s_self st1)) !! i) →
         base !! i = None → hit_at h graph (s_visited st1) i).
  { clear Hs. intros new_leaves seen' st1 Hseen Hnew He.
    unfold _expand in He. bind_inv He. bind_inv He.
    inversion He; subst; simpl.
    pose proof (visited_le_insert (s_visited st) (tf_id condition) seen' Hseen) as Hle.
    split; [done|].
    refine (foldM_invariant
              (λ s, ∀ i, is_Some (_issue_instances (tg s) !! i) → base !! i = None →
                         hit_at h graph (<[tf_id condition := seen']> (s_visited st)) i)
              _ _ _ (s_self st) x _ Hx).
    - intros s k s1 Hk%elem_of_elements HX Hvisit.
      apply (_visit_instance_hit
               (λ i, base !! i = None →
                     hit_at h graph (<[tf_id condition := seen']> (s_visited st)) i)
               condition new_leaves s s1 k); [|exact HX|exact Hvisit].
      intros r issue_leaves Hr Hleaves Hmeet _.
      exists (tf_id condition), seen', k, r, issue_leaves.
      rewrite lookup_insert_eq. repeat (split; [done|]). set_solver.
    - intros i Hi Hbase. eapply hit_at_mono; [exact Hle|]. by apply Hinv. }
  destruct (s_visited st !! tf_id condition) as [seen|] eqn:Hseen.
  - destruct (bool_decide (size (leaves ∖ seen) = 0%nat)).
    + inversion Hs; subst; simpl. split; [apply visited_le_refl | done].
    + eapply Hexpand; [| |exact Hs]; [intros ? [= <-]|]; set_solver.
  - eapply Hexpand; [| |exact Hs]; [intros ? [=]|done].
Qed.

Lemma _search_loop_hits (base : gmap Z nat) (fuel : nat) (st st' : search_state) :
  (∀ i, is_Some (_issue_instances (tg (s_self st)) !! i) →
        base !! i = None → hit_at h graph (s_visited st) i) →
  _search_loop h graph fuel st = Ok st' →
  visited_le (s_visited st) (s_visited st') ∧
  ∀ i, is_Some (_issue_instances (tg (s_self st')) !! i) →
       base !! i = None → hit_at h graph (s_visited st') i.
Proof.
  revert st. induction fuel as [|fuel IH]; intros st Hinv Hl; simpl in Hl.
  - destruct (s_que st); [inversion Hl; subst | done].
    split; [apply visited_le_refl | done].
  - destruct (s_que st) eqn:Hque; [inversion Hl; subst|].
    { split; [apply visited_le_refl | done]. }
    bind_inv Hl. destruct (_search_step_hits base st x Hinv Hx) as [Hle Hinv'].
    destruct (IH x Hinv' Hl) as [Hle' Hfinal].
    split; [by eapply visited_le_trans | done].
Qed.

(** C1: an issue instance that step 3 ([_populate_issues_from_affected_conditions])
    brings into the trimmed graph has a hit: the search has recorded a frame
    that the source graph associates with the instance, and the instance's
    own source and sink leaf ids meet the active leaf ids recorded for that
    frame.  An instance whose leaf ids are disjoint from the active leaf ids
    of every recorded frame is not added by step 3. *)
Theorem backward_search_adds_only_leaf_sharing_instances (fuel : nat)
    (self self' : TrimmedTraceGraph) (initial_conditions : list TraceFrame) :
  _populate_issues_from_affected_conditions h graph fuel self initial_conditions = Ok self' →
  ∃ st,
    backward_search h graph fuel self initial_conditions = Ok st ∧
    (∀ i, is_Some (_issue_instances (tg self') !! i) →
          _issue_instances (tg self) !! i = None →
          hit_at h graph (s_visited st) i) ∧
    (∀ i leaves,
          _get_instance_leaf_ids graph i = Ok leaves →
          (∀ cond_id active, s_visited st !! cond_id = Some active → leaves ∩ active = ∅) →
          _issue_instances (tg self) !! i = None →
          _issue_instances (tg self') !! i = None).
Proof.
  intros Hp. unfold _populate_issues_from_affected_conditions in Hp.
  bind_inv Hp. bind_inv Hp. exists x. split; [done|].
  assert (Hhits : ∀ i, is_Some (_issue_instances (tg self') !! i) →
                       _issue_instances (tg self) !! i = None →
                       hit_at h graph (s_visited x) i).
  { unfold backward_search in Hx.
    destruct (_search_loop_hits (_issue_instances (tg self)) fuel _ x
                (λ i (Hi : is_Some (_issue_instances (tg self) !! i))
                   (Hnone : _issue_instances (tg self) !! i = None),
                   False_ind _ (is_Some_None (eq_ind _ is_Some Hi _ Hnone)))
                Hx) as [_ Hsearch].
    destruct (instances_within_stable
                (λ i, _issue_instances (tg self) !! i = None → hit_at h graph (s_visited x) i))
      as [Hst _].
    set (Q := λ s : TrimmedTraceGraph,
                ∀ i, is_Some (_issue_instances (tg s) !! i) →
                     _issue_instances (tg self) !! i = None →
                     hit_at h graph (s_visited x) i) in *.
    change (Q self').
    refine (foldM_invariant Q _ _ _ x0 self' _ Hp).
    - intros s frame_id s1 _ HX Hrow. cbv beta in Hrow. bind_inv Hrow.
      apply getitem_Ok in Hx1.
      exact (_add_trace_frame_keeps graph Q fuel s s1 frame_id x1 Hst Hx1 HX Hrow).
    - exact (_populate_trace_keeps graph fuel Q (s_self x) _ x0 Hst Hsearch Hx0). }
  split; [exact Hhits|].
  intros i leaves Hleaves Hdisjoint Hnone.
  destruct (_issue_instances (tg self') !! i) as [r|] eqn:Hi; [|done].
  destruct (Hhits i (mk_is_Some _ _ Hi) Hnone)
    as (c & active & k & r' & leaves' & Hc & _ & _ & _ & Hleaves' & Hmeet).
  rewrite Hleaves in Hleaves'. inversion Hleaves'; subst.
  by destruct Hmeet, (Hdisjoint c active Hc).
Qed.

End SearchProperties.

(** ** The backward search: termination *)

Section SearchTermination.

Context (h : gmap nat IssueInstance) (graph : TraceGraph).

Lemma ran_out_bind {A B : Type} (m : result A) (f : A → result B) :
  ran_out m = false → (∀ a, m = Ok a → ran_out (f a) = false) → ran_out (bind m f) = false.
Proof. destruct m as [a|e]; simpl; [by auto | done]. Qed.

Lemma ran_out_getitem `{Countable K} {V : Type} (d : gmap K V) (k : K) :
  ran_out (getitem d k) = false.
Proof. unfold getitem. by destruct (d !! k). Qed.

Lemma ran_out_foldM {A S : Type} (f : S → A → result S) (l : list A) (s : S) :
  (∀ s a, ran_out (f s a) = false) → ran_out (foldM f s l) = false.
Proof.
  intros Hf. revert s. induction l as [|a l IH]; intros s; simpl; [done|].
  apply ran_out_bind; [apply Hf | intros; apply IH].
Qed.

Lemma ran_out_mapR {A B : Type} (f : A → result B) (l : list A) :
  (∀ a, ran_out (f a) = false) → ran_out (mapR f l) = false.
Proof.
  intros Hf. induction l as [|a l IH]; simpl; [done|].
  apply ran_out_bind; [apply Hf | intros b _].
  apply ran_out_bind; [apply IH | done].
Qed.

Lemma ran_out__populate_shared_text (s : TrimmedTraceGraph) (id : Z) :
  ran_out (_populate_shared_text graph s id) = false.
Proof.
  unfold _populate_shared_text. apply ran_out_bind; [apply ran_out_getitem|].
  intros t _. by destruct (mem _ _).
Qed.

Lemma ran_out__get_instance_leaf_ids (i : Z) :
  ran_out (_get_instance_leaf_ids graph i) = false.
Proof.
  assert (Htexts : ∀ kind, ran_out (get_issue_instance_shared_texts graph i kind) = false).
  { intros kind. unfold get_issue_instance_shared_texts.
    apply ran_out_bind; [|done]. apply ran_out_mapR. intros. apply ran_out_getitem. }
  unfold _get_instance_leaf_ids, _get_source_kinds, _get_sink_kinds.
  apply ran_out_bind; [apply ran_out_bind; [apply Htexts | done]|]. intros sources _.
  apply ran_out_bind; [apply ran_out_bind; [apply Htexts | done] | done].
Qed.

Lemma ran_out__populate_issue (s : TrimmedTraceGraph) (k : Z) :
  ran_out (_populate_issue h graph s k) = false.
Proof.
  unfold _populate_issue.
  apply ran_out_bind; [apply ran_out_getitem|]. intros r _.
  apply ran_out_bind; [apply ran_out_getitem|]. intros issue _.
  apply ran_out_bind; [apply ran_out__populate_shared_text|]. intros s1 _.
  apply ran_out_bind; [apply ran_out__populate_shared_text|]. intros s2 _.
  apply ran_out_bind; [apply ran_out__populate_shared_text|]. intros s3 _.
  apply ran_out_foldM. intros s4 id.
  apply ran_out_bind; [apply ran_out_getitem | done].
Qed.

Lemma ran_out__visit_instance (condition : TraceFrame) (leaves : gset Z)
    (s : TrimmedTraceGraph) (k : Z) :
  ran_out (_visit_instance h graph condition leaves s k) = false.
Proof.
  unfold _visit_instance.
  apply ran_out_bind; [apply ran_out_getitem|]. intros r _.
  apply ran_out_bind; [apply ran_out__get_instance_leaf_ids|]. intros issue_leaves _.
  destruct (bool_decide _); [|done].
  apply ran_out_bind; [|done].
  destruct (mem _ _); [done | apply ran_out__populate_issue].
Qed.

Lemma ran_out__get_predecessor_frames (leaves : gset Z) (f : TraceFrame) :
  ran_out (_get_predecessor_frames graph leaves f) = false.
Proof.
  unfold _get_predecessor_frames. apply ran_out_mapR. intros id.
  apply ran_out_bind; [apply ran_out_getitem|]. intros pred _.
  by destruct (leaf_mapping pred).
Qed.

(** An iteration of the search loop spends no fuel. *)
Lemma ran_out__search_step (st : search_state) : ran_out (_search_step h graph st) = false.
Proof.
  assert (Hexpand : ∀ s visited que condition leaves,
            ran_out (_expand h graph s visited que condition leaves) = false).
  { intros. unfold _expand.
    apply ran_out_bind; [apply ran_out_foldM; intros; apply ran_out__visit_instance|].
    intros s1 _. apply ran_out_bind; [apply ran_out__get_predecessor_frames | done]. }
  unfold _search_step. destruct (s_que st) as [|[condition leaves] que]; [done|].
  destruct (s_visited st !! tf_id condition); [|apply Hexpand].
  destruct (bool_decide _); [done | apply Hexpand].
Qed.

Lemma mapR_Ok_length {A B : Type} (f : A → result B) (l : list A) (bs : list B) :
  mapR f l = Ok bs → length bs = length l.
Proof.
  revert bs. induction l as [|a l IH]; intros bs Hm; simpl in Hm.
  - by inversion Hm.
  - bind_inv Hm. bind_inv Hm. inversion Hm; subst. simpl. by rewrite (IH _ Hx0).
Qed.

Lemma mapR_Ok_all {A B : Type} (f : A → result B) (l : list A) (bs : list B) (a : A) :
  mapR f l = Ok bs → a ∈ l → ∃ b, f a = Ok b.
Proof.
  revert bs. induction l as [|a' l IH]; intros bs Hm Ha; simpl in Hm.
  - by apply not_elem_of_nil in Ha.
  - bind_inv Hm. bind_inv Hm. apply elem_of_cons in Ha as [->|Ha]; [eauto|].
    by eapply IH.
Qed.

Lemma search_slots_mono (f : TraceFrame) (L L' : gset Z) :
  L ⊆ L' → search_slots f L ⊆ search_slots f L'.
Proof. unfold search_slots. set_solver. Qed.

Lemma compute_prev_leaf_kinds_caller_leaves (leaves : gset Z) (f : TraceFrame)
    (mapping : list (Z * Z)) :
  leaf_mapping f = Some mapping → compute_prev_leaf_kinds leaves mapping ⊆ caller_leaves f.
Proof.
  intros Hm. unfold compute_prev_leaf_kinds, caller_leaves. rewrite Hm. simpl.
  intros l Hl. apply elem_of_list_to_set in Hl. apply elem_of_list_to_set.
  apply list_elem_of_fmap in Hl as (row & -> & Hrow).
  apply list_elem_of_filter in Hrow as [_ Hrow].
  apply list_elem_of_fmap. eauto.
Qed.

(** The predecessors of a frame: at most one for each frame of the graph,
    each a frame of the graph with leaves among its caller leaves. *)
Lemma _get_predecessor_frames_spec (leaves : gset Z) (condition : TraceFrame)
    (preds : list (TraceFrame * gset Z)) :
  _get_predecessor_frames graph leaves condition = Ok preds →
  (length preds ≤ size (_trace_frames graph))%nat ∧
  ∀ e, e ∈ preds → ∃ k, _trace_frames graph !! k = Some e.1 ∧ e.2 ⊆ caller_leaves e.1.
Proof.
  intros Hp. unfold _get_predecessor_frames in Hp.
  set (ids := dget (_trace_frames_rev_map graph)
                   (tf_kind condition, (caller_id condition, caller_port condition))) in *.
  split.
  - rewrite (mapR_Ok_length _ _ _ Hp). change (size ids ≤ size (_trace_frames graph))%nat.
    transitivity (size (dom (_trace_frames graph))); [|by rewrite size_dom].
    apply subseteq_size. intros id Hid. apply elem_of_elements in Hid.
    destruct (mapR_Ok_all _ _ _ _ Hp Hid) as [b Hb]. bind_inv Hb.
    apply getitem_Ok in Hx. apply elem_of_dom. eauto.
  - intros e He. destruct (mapR_Ok_elem_of _ _ _ _ Hp He) as (id & _ & Hid).
    bind_inv Hid. apply getitem_Ok in Hx.
    destruct (leaf_mapping x) as [mapping|] eqn:Hm; [|done].
    inversion Hid; subst; simpl. exists id. split; [done|].
    by apply compute_prev_leaf_kinds_caller_leaves.
Qed.

Lemma dget_insert (visited : gmap Z (gset Z)) (c c' : Z) (seen : gset Z) :
  dget (<[c := seen]> visited) c' = if decide (c = c') then seen else dget visited c'.
Proof.
  unfold dget. destruct (decide (c = c')) as [->|Hne].
  - by rewrite lookup_insert_eq.
  - by rewrite lookup_insert_ne.
Qed.

Lemma recorded_insert (visited : gmap Z (gset Z)) (c : Z) (seen' : gset Z) (x : Z + Z * Z) :
  dget visited c ⊆ seen' →
  recorded visited x = true → recorded (<[c := seen']> visited) x = true.
Proof.
  intros Hsub. destruct x as [c'|[c' l]]; simpl.
  - rewrite !mem_true. intros Hc'. apply lookup_insert_is_Some.
    destruct (decide (c = c')); [by left | by right].
  - rewrite !bool_decide_eq_true, dget_insert.
    destruct (decide (c = c')) as [->|]; [set_solver | done].
Qed.

(** Recording something new of [U] makes the unrecorded part of [U] smaller. *)
Lemma unrecorded_decreases (U : gset (Z + Z * Z)) (visited visited' : gmap Z (gset Z))
    (x : Z + Z * Z) :
  (∀ y, recorded visited y = true → recorded visited' y = true) →
  x ∈ U → recorded visited x = false → recorded visited' x = true →
  (size (unrecorded U visited') < size (unrecorded U visited))%nat.
Proof.
  intros Hmono HxU Hold Hnew. apply subset_size. unfold unrecorded. split.
  - intros y [Hy HyU]%elem_of_filter. apply elem_of_filter. split; [|done].
    destruct (recorded visited y) eqn:Hr; [|done]. by rewrite (Hmono y Hr) in Hy.
  - intros Hsub. assert (Hx : x ∈ filter (λ y, recorded visited' y = false) U).
    { apply Hsub, elem_of_filter. by split. }
    apply elem_of_filter in Hx as [Hx _]. congruence.
Qed.

Lemma que_within_cons (U : gset (Z + Z * Z)) (e : TraceFrame * gset Z)
    (que : list (TraceFrame * gset Z)) :
  que_within U (e :: que) → search_slots e.1 e.2 ⊆ U ∧ que_within U que.
Proof.
  intros Hq. split; [apply Hq, list_elem_of_here|].
  intros e' He'. by apply Hq, list_elem_of_further.
Qed.

(** An expansion records something new, and a skip shortens the queue: the
    measure goes down with every iteration. *)
Lemma _search_step_potential (U : gset (Z + Z * Z)) (st st' : search_state) :
  frames_within graph U → que_within U (s_que st) → s_que st ≠ [] →
  _search_step h graph st = Ok st' →
  que_within U (s_que st') ∧
  (search_potential graph U (s_visited st') (s_que st')
   < search_potential graph U (s_visited st) (s_que st))%nat.
Proof.
  intros HU Hq Hne Hs. unfold _search_step in Hs.
  destruct (s_que st) as [|[condition leaves] que] eqn:Hque; [done|].
  apply que_within_cons in Hq as [Hhead Hq]. simpl in Hhead.
  assert (Hexpand : ∀ new_leaves seen' slot st1,
    dget (s_visited st) (tf_id condition) ⊆ seen' →
    slot ∈ U → recorded (s_visited st) slot = false →
    recorded (<[tf_id condition := seen']> (s_visited st)) slot = true →
    _expand h graph (s_self st) (<[tf_id condition := seen']> (s_visited st)) que
            condition new_leaves = Ok st1 →
    que_within U (s_que st1) ∧
    (search_potential graph U (s_visited st1) (s_que st1)
     < search_potential graph U (s_visited st) ((condition, leaves) :: que))%nat).
  { clear Hs. intros new_leaves seen' slot st1 Hsub HxU Hold Hnew He.
    unfold _expand in He. bind_inv He. bind_inv He. inversion He; subst; simpl.
    destruct (_get_predecessor_frames_spec _ _ _ Hx0) as [Hlen Hpreds].
    split.
    - intros e [He'|He']%elem_of_app; [|by apply Hq].
      apply list_elem_of_In, in_rev, list_elem_of_In in He'.
      apply list_elem_of_filter in He' as [_ He'].
      destruct (Hpreds e He') as (k & Hk & Hleaves).
      etrans; [by apply search_slots_mono | by eapply HU].
    - unfold search_potential. simpl.
      pose proof (unrecorded_decreases U (s_visited st)
                    (<[tf_id condition := seen']> (s_visited st)) slot
                    (λ y, recorded_insert _ _ _ y Hsub) HxU Hold Hnew) as Hdec.
      rewrite length_app, length_rev.
      pose proof (length_filter (λ p : TraceFrame * gset Z, (0 < size p.2)%nat) x0) as Hfilter.
      nia. }
  destruct (s_visited st !! tf_id condition) as [seen|] eqn:Hseen.
  - destruct (bool_decide (size (leaves ∖ seen) = 0%nat)) eqn:Hsize.
    + inversion Hs; subst; simpl. split; [done|]. unfold search_potential. simpl. lia.
    + apply bool_decide_eq_false in Hsize.
      assert (Hl : ∃ l, l ∈ leaves ∖ seen).
      { apply set_choose_L. intros Hempty. apply Hsize. by rewrite Hempty, size_empty. }
      destruct Hl as [l Hl].
      assert (Hdget : dget (s_visited st) (tf_id condition) = seen)
        by (unfold dget; by rewrite Hseen).
      apply (Hexpand (leaves ∖ seen) (seen ∪ leaves ∖ seen) (inr (tf_id condition, l)) st');
        [rewrite Hdget; set_solver| | | |exact Hs].
      * apply Hhead. unfold search_slots. set_solver.
      * simpl. rewrite Hdget. apply bool_decide_eq_false. set_solver.
      * simpl. rewrite dget_insert, decide_True by done. apply bool_decide_eq_true. set_solver.
  - assert (Hdget : dget (s_visited st) (tf_id condition) = ∅)
      by (unfold dget; by rewrite Hseen).
    apply (Hexpand leaves leaves (inl (tf_id condition)) st');
      [rewrite Hdget; set_solver| | | |exact Hs].
    + apply Hhead. unfold search_slots. set_solver.
    + simpl. by apply mem_false.
    + simpl. apply mem_true. rewrite lookup_insert_eq. eauto.
Qed.

Lemma _search_loop_enough_fuel (U : gset (Z + Z * Z)) (fuel : nat) :
  ∀ st, frames_within graph U → que_within U (s_que st) →
        (search_potential graph U (s_visited st) (s_que st) ≤ fuel)%nat →
        ran_out (_search_loop h graph fuel st) = false.
Proof.
  induction fuel as [|fuel IH]; intros st HU Hq Hfuel; simpl.
  - destruct (s_que st) eqn:Hque; [done|].
    unfold search_potential in Hfuel. rewrite ?Hque in Hfuel. simpl in Hfuel. lia.
  - destruct (s_que st) eqn:Hque; [done|].
    apply ran_out_bind; [apply ran_out__search_step|]. intros st' Hstep.
    destruct (_search_step_potential U st st' HU) as [Hq' Hlt];
      [by rewrite ?Hque|by rewrite ?Hque|done|].
    apply IH; [done..|]. rewrite ?Hque in Hlt. lia.
Qed.

Lemma search_universe_frames (que : list (TraceFrame * gset Z)) :
  frames_within graph (search_universe graph que).
Proof.
  intros k f Hf. unfold search_universe. apply union_subseteq_l'.
  intros x Hx. apply elem_of_union_list.
  exists (search_slots f (caller_leaves f)). split; [|done].
  apply list_elem_of_fmap. exists f. split; [done|].
  unfold frame_values. apply list_elem_of_fmap. exists (k, f). split; [done|].
  by apply elem_of_map_to_list.
Qed.

Lemma search_universe_que (que : list (TraceFrame * gset Z)) :
  que_within (search_universe graph que) que.
Proof.
  intros e He. unfold search_universe. apply union_subseteq_r'.
  intros x Hx. apply elem_of_union_list.
  exists (search_slots e.1 e.2). split; [|done].
  apply list_elem_of_fmap. by exists e.
Qed.

(** The search from any initial conditions ends within [search_bound]
    iterations, whatever the shape of the graph. *)
Lemma backward_search_enough_fuel (self : TrimmedTraceGraph)
    (initial_conditions : list TraceFrame) (extra : nat) :
  ran_out (backward_search h graph (search_bound graph initial_conditions + extra)
                           self initial_conditions) = false.
Proof.
  unfold backward_search.
  apply (_search_loop_enough_fuel
           (search_universe graph (initial_que graph initial_conditions))).
  - apply search_universe_frames.
  - apply search_universe_que.
  - simpl. unfold search_bound. lia.
Qed.

Lemma _expand_shape (s : TrimmedTraceGraph) (visited : gmap Z (gset Z))
    (que : list (TraceFrame * gset Z)) (condition : TraceFrame) (leaves : gset Z)
    (st' : search_state) :
  _expand h graph s visited que condition leaves = Ok st' →
  s_visited st' = visited ∧
  ∃ pushed, s_que st' = pushed ++ que ∧ ∀ p, p ∈ pushed → p.2 ≠ ∅.
Proof.
  intros He. unfold _expand in He. bind_inv He. bind_inv He. inversion He; subst; simpl.
  split; [done|]. eexists. split; [reflexivity|].
  intros p Hp. apply list_elem_of_In, in_rev, list_elem_of_In in Hp.
  apply list_elem_of_filter in Hp as [Hp _]. intros Hempty.
  rewrite Hempty, size_empty in Hp. lia.
Qed.

(** What an iteration records: for an expansion, the new leaves at the
    frame; for a skip, nothing. *)
Lemma _search_step_visited (st st' : search_state) :
  _search_step h graph st = Ok st' →
  s_visited st' = match expansion_of st with
                  | Some e => <[e.1 := dget (s_visited st) e.1 ∪ e.2]> (s_visited st)
                  | None => s_visited st
                  end.
Proof.
  intros Hs. unfold _search_step in Hs. unfold expansion_of.
  destruct (s_que st) as [|[condition leaves] que]; [by inversion Hs; subst|].
  destruct (s_visited st !! tf_id condition) as [seen|] eqn:Hseen.
  - destruct (bool_decide (size (leaves ∖ seen) = 0%nat)); [by inversion Hs; subst|].
    destruct (_expand_shape _ _ _ _ _ _ Hs) as [-> _]. simpl.
    unfold dget. by rewrite Hseen.
  - destruct (_expand_shape _ _ _ _ _ _ Hs) as [-> _]. simpl.
    unfold dget. rewrite Hseen. simpl. by rewrite (left_id_L ∅ (∪)).
Qed.

Lemma expansion_of_new (st : search_state) (e : Z * gset Z) :
  expansion_of st = Some e → e.2 ## dget (s_visited st) e.1.
Proof.
  unfold expansion_of. destruct (s_que st) as [|[condition leaves] que]; [done|].
  destruct (s_visited st !! tf_id condition) as [seen|] eqn:Hseen.
  - destruct (bool_decide _); [done|]. intros [= <-]. simpl.
    unfold dget. rewrite Hseen. simpl. set_solver.
  - intros [= <-]. simpl. unfold dget. rewrite Hseen. simpl. set_solver.
Qed.

(** The leaves of an expansion are new for its frame, so no leaf is expanded
    twice at one frame. *)
Lemma expansions_once_per_leaf (fuel : nat) :
  ∀ st, once_per_leaf (expansions h graph fuel st) ∧
        ∀ e, e ∈ expansions h graph fuel st → e.2 ## dget (s_visited st) e.1.
Proof.
  induction fuel as [|fuel IH]; intros st; simpl.
  - destruct (s_que st); (split; [done | by intros e ?%not_elem_of_nil]).
  - destruct (s_que st) eqn:Hque; [split; [done | by intros e ?%not_elem_of_nil]|].
    destruct (_search_step h graph st) as [st'|err] eqn:Hstep;
      [|split; [done | by intros e ?%not_elem_of_nil]].
    destruct (IH st') as [Honce Hnew].
    rewrite (_search_step_visited _ _ Hstep) in Hnew.
    destruct (expansion_of st) as [e0|] eqn:Hexp; simpl; [|done].
    apply expansion_of_new in Hexp.
    assert (Hrest : ∀ e, e ∈ expansions h graph fuel st' →
                         e.2 ## dget (s_visited st) e.1 ∧ (e.1 = e0.1 → e.2 ## e0.2)).
    { intros e He. specialize (Hnew e He). rewrite dget_insert in Hnew.
      destruct (decide (e0.1 = e.1)) as [Heq|Hne].
      - rewrite <- Heq in *. split; [set_solver | intros _; set_solver].
      - split; [done | congruence]. }
    split.
    + split; [|done]. intros e He. by apply Hrest.
    + intros e [->|He]%elem_of_cons; [done | by apply Hrest].
Qed.

(** C3: the backward condition search ends on every source graph, cyclic
    ones included: fuel [search_bound], computed from the graph and the
    initial conditions, is enough.  With every iteration the leaf sets
    recorded for the frames only grow; a dequeued frame whose leaves are all
    recorded for it already is skipped, the graph and the records unchanged
    and nothing enqueued; a predecessor is enqueued only with a non-empty
    leaf set; and the leaves of the expansions of one frame are pairwise
    disjoint, so a frame is expanded at most once for each leaf id. *)
Theorem backward_search_terminates (self : TrimmedTraceGraph)
    (initial_conditions : list TraceFrame) (extra : nat) :
  ran_out (backward_search h graph (search_bound graph initial_conditions + extra)
                           self initial_conditions) = false ∧
  (∀ st st', _search_step h graph st = Ok st' →
             visited_le (s_visited st) (s_visited st')) ∧
  (∀ st st' condition leaves que seen,
     _search_step h graph st = Ok st' →
     s_que st = (condition, leaves) :: que →
     s_visited st !! tf_id condition = Some seen → leaves ⊆ seen →
     st' = mkSearch (s_self st) (s_visited st) que) ∧
  (∀ st st' e que,
     _search_step h graph st = Ok st' → s_que st = e :: que →
     ∃ pushed, s_que st' = pushed ++ que ∧ ∀ p, p ∈ pushed → p.2 ≠ ∅) ∧
  (∀ fuel st, once_per_leaf (expansions h graph fuel st)).
Proof.
  split; [apply backward_search_enough_fuel|]. split; [|split; [|split]].
  - intros st st' Hs. rewrite (_search_step_visited _ _ Hs).
    destruct (expansion_of st) as [e|]; [|apply visited_le_refl].
    apply visited_le_insert. intros seen Hseen. unfold dget. rewrite Hseen. set_solver.
  - intros st st' condition leaves que seen Hs Hque Hseen Hsub.
    unfold _search_step in Hs. rewrite Hque, Hseen in Hs.
    rewrite bool_decide_eq_true_2 in Hs; [by inversion Hs|].
    assert (Hempty : leaves ∖ seen = ∅) by set_solver. by rewrite Hempty, size_empty.
  - intros st st' e que Hs Hque. unfold _search_step in Hs. rewrite Hque in Hs.
    destruct e as [condition leaves].
    destruct (s_visited st !! tf_id condition).
    + destruct (bool_decide _).
      * inversion Hs; subst; simpl. exists []. split; [done|]. by intros p ?%not_elem_of_nil.
      * by destruct (_expand_shape _ _ _ _ _ _ Hs).
    + by destruct (_expand_shape _ _ _ _ _ _ Hs).
  - intros fuel st. apply expansions_once_per_leaf.
Qed.

End SearchTermination.

Lemma backward_search_adds_only_leaf_sharing_instances_witness :
  ∃ st,
    backward_search ex_heap ex_cycle 20 ex_cycle_self [ex_cycle_f1] = Ok st ∧
    (∀ i, is_Some (_issue_instances (tg ex_cycle_step3) !! i) →
          _issue_instances (tg ex_cycle_self) !! i = None →
          hit_at ex_heap ex_cycle (s_visited st) i) ∧
    (∀ i leaves,
          _get_instance_leaf_ids ex_cycle i = Ok leaves →
          (∀ cond_id active, s_visited st !! cond_id = Some active → leaves ∩ active = ∅) →
          _issue_instances (tg ex_cycle_self) !! i = None →
          _issue_instances (tg ex_cycle_step3) !! i = None).
Proof.
  apply (backward_search_adds_only_leaf_sharing_instances ex_heap ex_cycle 20
           ex_cycle_self ex_cycle_step3 [ex_cycle_f1]).
  vm_compute. reflexivity.
Defined.

(** Of two instances that share a call edge, the search from the frame of
    the edge brings in the one whose leaves the frame reaches, and not the
    other. *)
Example shared_edge_disjoint_leaves :
  match populate_from_trace_graph ex_shared_heap ex_shared 20
          (TrimmedTraceGraph__init__ ["/c/"%string] false) with
  | Ok r => instance_keys (tg r.2)
  | Raise _ => []
  end = [3].
Proof. vm_compute. reflexivity. Qed.

Lemma backward_search_terminates_witness :
  ran_out (backward_search ex_heap ex_cycle (search_bound ex_cycle [ex_cycle_f1] + 0)
                           ex_cycle_self [ex_cycle_f1]) = false.
Proof.
  exact (proj1 (backward_search_terminates ex_heap ex_cycle ex_cycle_self [ex_cycle_f1] 0)).
Defined.

(** The search of the call cycle visits both frames, with the sink leaf. *)
Example cyclic_search_result :
  match backward_search ex_heap ex_cycle 13 ex_cycle_self [ex_cycle_f1] with
  | Ok st => map_to_list (s_visited st)
  | Raise _ => []
  end = [(21, {[5]}); (22, {[5]})].
Proof. vm_compute. reflexivity. Qed.

(** ** Directional completeness *)

Section RepairProperties.

Context (h : gmap nat IssueInstance) (graph : TraceGraph).
Hypothesis Hwf : ids_registered h graph = true.

Lemma registered_instance (k : Z) (r : nat) :
  _issue_instances graph !! k = Some r → inst_id (deref h r) = k.
Proof using Hwf.
  intros Hk. apply andb_prop in Hwf as [Hi _].
  assert (Hin : (k, r) ∈ map_to_list (_issue_instances graph)) by (by apply elem_of_map_to_list).
  apply (forallb_elem_of _ _ _ Hi) in Hin. by apply bool_decide_eq_true in Hin.
Qed.

Lemma registered_frame (k : Z) (f : TraceFrame) :
  _trace_frames graph !! k = Some f → tf_id f = k.
Proof using Hwf.
  intros Hk. apply andb_prop in Hwf as [_ Hf].
  assert (Hin : (k, f) ∈ map_to_list (_trace_frames graph)) by (by apply elem_of_map_to_list).
  apply (forallb_elem_of _ _ _ Hf) in Hin. by apply bool_decide_eq_true in Hin.
Qed.

Lemma dget_dadd `{Countable K} `{Countable V} (d : gmap K (gset V)) (k k' : K) (v : V) :
  dget (dadd d k v) k' = if decide (k = k') then dget d k ∪ {[v]} else dget d k'.
Proof.
  unfold dadd. unfold dget at 1. destruct (decide (k = k')) as [->|Hne].
  - by rewrite lookup_insert_eq.
  - by rewrite lookup_insert_ne.
Qed.

Lemma dget_dadd_subseteq `{Countable K} `{Countable V} (d : gmap K (gset V)) (k k' : K) (v : V) :
  dget d k' ⊆ dget (dadd d k v) k'.
Proof. rewrite dget_dadd. destruct (decide (k = k')) as [->|]; set_solver. Qed.

Lemma grows_refl (s : TrimmedTraceGraph) : grows s s.
Proof. by repeat split. Qed.

(** Consistency with the source graph, and growth from [s0], are kept by
    everything the trimmer does. *)
Lemma consistent_grows_stable (s0 : TrimmedTraceGraph) :
  populate_stable h graph (λ s, trimmed_consistent graph s ∧ grows s0 s).
Proof using Hwf.
  assert (Hframe : ∀ s k f, _trace_frames graph !! k = Some f →
            trimmed_consistent graph s ∧ grows s0 s →
            trimmed_consistent graph (on_tg (add_trace_frame f) s) ∧
            grows s0 (on_tg (add_trace_frame f) s)).
  { intros s k f Hf [(Hci & Hcf & Hcv) (Hga & Hgf & Hgv)].
    pose proof (registered_frame k f Hf) as Hid.
    split; [split; [|split]|split; [|split]]; simpl; try done.
    - intros k' f' [[<- <-]|[_ Hk']]%lookup_insert_Some; [by rewrite Hid | by apply Hcf].
    - intros k' Hk'. apply lookup_insert_is_Some.
      destruct (decide (tf_id f = k')); [by left | right; split; [done | by apply Hcv]].
    - intros k' f' Hk'. specialize (Hgf k' f' Hk').
      destruct (decide (tf_id f = k')) as [<-|Hne]; [|by rewrite lookup_insert_ne].
      rewrite lookup_insert_eq. specialize (Hcf _ _ Hgf). rewrite Hid in Hcf. congruence. }
  split; [split|split| |].
  - intros s t [(Hci & Hcf & Hcv) (Hga & Hgf & Hgv)].
    unfold trimmed_consistent, grows. simpl. unfold add_shared_text.
    by destruct (existsb _ _).
  - exact Hframe.
  - by intros s a [(Hci & Hcf & Hcv) (Hga & Hgf & Hgv)].
  - by intros s a f [(Hci & Hcf & Hcv) (Hga & Hgf & Hgv)].
  - by intros s f t d [(Hci & Hcf & Hcv) (Hga & Hgf & Hgv)].
  - intros s k f Hf Hin [(Hci & Hcf & Hcv) (Hga & Hgf & Hgv)].
    rewrite (registered_frame k f Hf) in Hin.
    split; [split; [|split]|split; [|split]]; simpl; try done.
    + intros k' [Hk'| ->%elem_of_singleton]%elem_of_union; [by apply Hcv | by apply elem_of_dom].
    + set_solver.
  - intros s t [(Hci & Hcf & Hcv) (Hga & Hgf & Hgv)].
    unfold trimmed_consistent, grows. simpl. unfold add_shared_text.
    by destruct (existsb _ _).
  - by intros s i [(Hci & Hcf & Hcv) (Hga & Hgf & Hgv)].
  - by intros s r info [(Hci & Hcf & Hcv) (Hga & Hgf & Hgv)].
  - by intros s r t [(Hci & Hcf & Hcv) (Hga & Hgf & Hgv)].
  - intros s k r Hr [(Hci & Hcf & Hcv) (Hga & Hgf & Hgv)].
    split; [split; [|split]|split; [|split]]; simpl; try done.
    intros i r' [[<- <-]|[_ Hi]]%lookup_insert_Some; [|by apply Hci].
    by rewrite (registered_instance k r Hr).
  - intros s k r f Hr [(Hci & Hcf & Hcv) (Hga & Hgf & Hgv)].
    split; [split; [|split]|split; [|split]]; simpl; try done.
    intros i. etrans; [apply Hga | apply dget_dadd_subseteq].
Qed.

Lemma has_first_hop_grows (s0 s : TrimmedTraceGraph) (i : Z) (kind : TraceKind) :
  grows s0 s → has_first_hop (tg s0) i kind → has_first_hop (tg s) i kind.
Proof.
  intros (Hga & Hgf & _) (tf & f & Hin & Hf & Hk). exists tf, f.
  split; [by apply Hga | split; [by apply Hgf | done]].
Qed.

Lemma first_hops_copied_grows (s0 s : TrimmedTraceGraph) (i : Z) (kind : TraceKind) :
  grows s0 s → first_hops_copied graph s0 i kind → first_hops_copied graph s i kind.
Proof.
  intros (Hga & Hgf & _) Hc tf f Hin Hf Hk. destruct (Hc tf f Hin Hf Hk) as [Ha Hfr].
  split; [by apply Hga | by apply Hgf].
Qed.

(** A frame marked visited stays marked. *)
Lemma visited_mark_stable (id : Z) :
  trace_stable graph (λ s, id ∈ _visited_trace_frame_ids s).
Proof.
  split; simpl; intros; try done. set_solver.
Qed.

(** [_populate_trace] marks every frame of its work list visited. *)
Lemma _populate_trace_visits (fuel : nat) :
  ∀ (s s' : TrimmedTraceGraph) (ids : list Z) (id : Z),
    _populate_trace graph fuel s ids = Ok s' → id ∈ ids → id ∈ _visited_trace_frame_ids s'.
Proof.
  induction fuel as [|fuel IH]; intros s s' ids id Hp Hid.
  - destruct ids; simpl in Hp; [by apply not_elem_of_nil in Hid | done].
  - destruct ids as [|id0 ids]; simpl in Hp; [by apply not_elem_of_nil in Hid|].
    destruct (bool_decide (id0 ∈ _visited_trace_frame_ids s)) eqn:Hvis.
    + apply elem_of_cons in Hid as [->|Hid]; [|by eapply IH].
      apply bool_decide_eq_true in Hvis.
      exact (_populate_trace_keeps graph fuel _ s ids s' (visited_mark_stable id0) Hvis Hp).
    + bind_inv Hp. bind_inv Hp. bind_inv Hp.
      apply elem_of_cons in Hid as [->|Hid].
      * refine (_populate_trace_keeps graph fuel _ _ _ s' (visited_mark_stable id0) _ Hp).
        simpl. set_solver.
      * eapply IH; [exact Hp|]. apply elem_of_app. by right.
Qed.

(** The loop of [_populate_issue_trace]: the first hops of the kind asked for
    are associated with the instance and put on the work list. *)
Lemma first_hops_fold (instance : nat) (kind : option TraceKind) (l : list Z) :
  ∀ acc acc' : TrimmedTraceGraph * list Z,
    foldM (λ (acc : TrimmedTraceGraph * list Z) trace_frame_id,
             let* frame := getitem (_trace_frames graph) trace_frame_id in
             if bool_decide (kind = None ∨ kind = Some (tf_kind frame))
             then Ok (on_tg (add_issue_instance_trace_frame_assoc (deref h instance) frame) acc.1,
                      trace_frame_id :: acc.2)
             else Ok acc)
          acc l = Ok acc' →
    (∀ i, dget (_issue_instance_trace_frame_assoc (tg acc.1)) i
          ⊆ dget (_issue_instance_trace_frame_assoc (tg acc'.1)) i) ∧
    (∀ tf, tf ∈ acc.2 → tf ∈ acc'.2) ∧
    (∀ tf f, tf ∈ l → _trace_frames graph !! tf = Some f →
             kind = None ∨ kind = Some (tf_kind f) →
             tf ∈ dget (_issue_instance_trace_frame_assoc (tg acc'.1))
                       (inst_id (deref h instance)) ∧
             tf ∈ acc'.2).
Proof using Hwf.
  induction l as [|a l IH]; intros acc acc' Hfold; simpl in Hfold.
  - inversion Hfold; subst. split; [done|]. split; [done|].
    by intros tf f ?%not_elem_of_nil.
  - bind_inv Hfold. bind_inv Hx. apply getitem_Ok in Hx0.
    destruct (IH _ _ Hfold) as (Hassoc & Hlist & Hall).
    pose proof (registered_frame a x0 Hx0) as Hid.
    destruct (bool_decide (kind = None ∨ kind = Some (tf_kind x0))) eqn:Hkind;
      inversion Hx; subst x; simpl in *.
    + split; [|split].
      * intros i. etrans; [apply dget_dadd_subseteq | apply Hassoc].
      * intros tf Htf. by apply Hlist, list_elem_of_further.
      * intros tf f [->|Htf]%elem_of_cons Hf Hk; [|by eapply Hall].
        split; [|apply Hlist, list_elem_of_here].
        apply Hassoc. rewrite dget_dadd, decide_True, Hid by done. set_solver.
    + split; [done|]. split; [done|].
      intros tf f [->|Htf]%elem_of_cons Hf Hk; [|by eapply Hall].
      apply bool_decide_eq_false in Hkind. rewrite Hx0 in Hf. inversion Hf; subst. done.
Qed.

Lemma _populate_trace_grows (fuel : nat) (s s' : TrimmedTraceGraph) (ids : list Z) :
  trimmed_consistent graph s → _populate_trace graph fuel s ids = Ok s' →
  trimmed_consistent graph s' ∧ grows s s'.
Proof using Hwf.
  intros Hcons Hp. pose proof (consistent_grows_stable s) as Hst.
  apply (_populate_trace_keeps graph fuel (λ s0, trimmed_consistent graph s0 ∧ grows s s0)
           s ids s' (ps_trace _ _ _ Hst)); [|exact Hp].
  split; [done | apply grows_refl].
Qed.

Lemma _populate_issue_trace_grows (fuel : nat) (s s' : TrimmedTraceGraph) (i : Z)
    (kind : option TraceKind) :
  trimmed_consistent graph s → _populate_issue_trace h graph fuel s i kind = Ok s' →
  trimmed_consistent graph s' ∧ grows s s'.
Proof using Hwf.
  intros Hcons Hp. pose proof (consistent_grows_stable s) as Hst.
  apply (_populate_issue_trace_keeps h graph (λ s0, trimmed_consistent graph s0 ∧ grows s s0)
           fuel s s' i kind (ps_trace _ _ _ Hst)); [| |exact Hp].
  - intros r f s0 Hr. by apply (ps_frame_assoc _ _ _ Hst _ i).
  - split; [done | apply grows_refl].
Qed.

Lemma repair_instance_grows (fuel : nat) (s s' : TrimmedTraceGraph) (i : Z) :
  trimmed_consistent graph s → repair_instance h graph fuel s i = Ok s' →
  trimmed_consistent graph s' ∧ grows s s'.
Proof using Hwf.
  intros Hcons Hp. pose proof (consistent_grows_stable s) as Hst.
  apply (repair_instance_keeps h graph (λ s0, trimmed_consistent graph s0 ∧ grows s s0)
           fuel s s' i (ps_trace _ _ _ Hst)); [| |exact Hp].
  - intros r f s0 Hr. by apply (ps_frame_assoc _ _ _ Hst _ i).
  - split; [done | apply grows_refl].
Qed.

Lemma _populate_issue_trace_copies (fuel : nat) (s s' : TrimmedTraceGraph) (i : Z)
    (kind : TraceKind) :
  trimmed_consistent graph s →
  _populate_issue_trace h graph fuel s i (Some kind) = Ok s' →
  first_hops_copied graph s' i kind.
Proof using Hwf.
  intros Hcons Hp.
  pose proof (_populate_issue_trace_grows _ _ _ _ _ Hcons Hp) as Hs'.
  destruct Hs' as [(_ & Hcf' & Hcv') _].
  unfold _populate_issue_trace in Hp. bind_inv Hp. bind_inv Hp. apply getitem_Ok in Hx.
  destruct (first_hops_fold _ _ _ _ _ Hx0) as (_ & _ & Hall).
  rewrite (registered_instance i x Hx) in Hall.
  assert (Hx0' : trimmed_consistent graph x0.1 ∧ grows s x0.1).
  { pose proof (consistent_grows_stable s) as Hst.
    refine (foldM_invariant
              (λ acc : TrimmedTraceGraph * list Z,
                 trimmed_consistent graph acc.1 ∧ grows s acc.1)
              _ _ _ (s, []) x0 (conj Hcons (grows_refl s)) Hx0).
    intros acc id acc' _ HQ Hrow. cbv beta in Hrow. bind_inv Hrow.
    destruct (bool_decide _); inversion Hrow; subst; simpl; [|done].
    by apply (ps_frame_assoc _ _ _ Hst _ i). }
  pose proof (_populate_trace_grows _ _ _ _ (proj1 Hx0') Hp) as Hgrows.
  destruct Hgrows as [_ (Hga & _ & _)].
  intros tf f Hin Hf Hk.
  destruct (Hall tf f) as [Hassoc Hlist]; [by apply elem_of_elements|done|right; by rewrite Hk|].
  split; [by apply Hga|].
  pose proof (_populate_trace_visits _ _ _ _ _ Hp Hlist) as Hvisited.
  destruct (Hcv' tf Hvisited) as [f' Hf']. rewrite Hf'.
  specialize (Hcf' _ _ Hf'). congruence.
Qed.

Lemma first_hops_copied_has (s : TrimmedTraceGraph) (i : Z) (kind : TraceKind) :
  first_hops_copied graph s i kind →
  has_first_hop graph i kind → has_first_hop (tg s) i kind.
Proof.
  intros Hc (tf & f & Hin & Hf & Hk). destruct (Hc tf f Hin Hf Hk) as [Ha Hfr].
  by exists tf, f.
Qed.

Lemma first_hops_nonempty (s : TraceGraph) (i : Z) (kind : TraceKind) (ids : gset Z) :
  first_hops_of_kind s i kind = Ok ids →
  size ids ≠ 0%nat ↔ has_first_hop s i kind.
Proof.
  intros Hids. split.
  - intros Hsize. destruct (set_choose_L ids) as [tf Htf].
    { intros Hempty. by rewrite Hempty, size_empty in Hsize. }
    apply (first_hops_of_kind_spec _ _ _ _ _ Hids) in Htf as (Hin & f & Hf & Hk).
    by exists tf, f.
  - intros (tf & f & Hin & Hf & Hk) Hsize. apply size_empty_iff in Hsize.
    assert (Htf : tf ∈ ids) by (apply (first_hops_of_kind_spec _ _ _ _ _ Hids); eauto).
    set_solver.
Qed.

(** One iteration of the repair loop: a direction that has no first hop is
    populated from the source graph, and afterwards the instance has a first
    hop of each kind of which the source graph has one for it. *)
Lemma repair_instance_completes (fuel : nat) (s s' : TrimmedTraceGraph) (i : Z)
    (kind : TraceKind) :
  trimmed_consistent graph s →
  repair_instance h graph fuel s i = Ok s' →
  (trimmed_consistent graph s' ∧ grows s s') ∧
  (¬ has_first_hop (tg s) i kind → first_hops_copied graph s' i kind) ∧
  (has_first_hop graph i kind → has_first_hop (tg s') i kind).
Proof using Hwf.
  intros Hcons Hr.
  pose proof (repair_instance_grows _ _ _ _ Hcons Hr) as Hs'.
  split; [exact Hs'|].
  unfold repair_instance in Hr. bind_inv Hr. bind_inv Hr. bind_inv Hr.
  pose proof (first_hops_nonempty _ _ _ _ Hx) as Hfwd.
  pose proof (first_hops_nonempty _ _ _ _ Hx0) as Hbwd.
  assert (Hx1' : trimmed_consistent graph x1 ∧ grows s x1 ∧
                 (size x = 0%nat → first_hops_copied graph x1 i POSTCONDITION)).
  { destruct (bool_decide (size x = 0%nat)) eqn:Hsize.
    - pose proof (_populate_issue_trace_grows _ _ _ _ _ Hcons Hx1) as Hk.
      destruct Hk as [Hc1 Hg1]. split; [done|]. split; [done|]. intros _.
      exact (_populate_issue_trace_copies _ _ _ _ _ Hcons Hx1).
    - apply bool_decide_eq_false in Hsize. inversion Hx1; subst.
      split; [done|]. split; [apply grows_refl | done]. }
  destruct Hx1' as (Hc1 & Hg1 & Hcopy1).
  assert (Hg2 : grows x1 s' ∧ (size x0 = 0%nat → first_hops_copied graph s' i PRECONDITION)).
  { destruct (bool_decide (size x0 = 0%nat)) eqn:Hsize.
    - pose proof (_populate_issue_trace_grows _ _ _ _ _ Hc1 Hr) as Hk.
      split; [apply Hk|]. intros _. exact (_populate_issue_trace_copies _ _ _ _ _ Hc1 Hr).
    - apply bool_decide_eq_false in Hsize. inversion Hr; subst.
      split; [apply grows_refl | done]. }
  destruct Hg2 as [Hg2 Hcopy2].
  assert (Hcopied : ¬ has_first_hop (tg s) i kind → first_hops_copied graph s' i kind).
  { intros Hnone. destruct kind.
    - apply Hcopy2. destruct (decide (size x0 = 0%nat)) as [|Hne]; [done|].
      by destruct Hnone, Hbwd as [Hb _]; apply Hb.
    - eapply first_hops_copied_grows; [exact Hg2|]. apply Hcopy1.
      destruct (decide (size x = 0%nat)) as [|Hne]; [done|].
      by destruct Hnone, Hfwd as [Hf _]; apply Hf. }
  split; [exact Hcopied|].
  intros Hsource.
  assert (Hdec : has_first_hop (tg s) i kind ∨ ¬ has_first_hop (tg s) i kind).
  { destruct kind.
    - destruct (decide (size x0 = 0%nat)) as [Hz|Hne]; [right|left; by apply Hbwd].
      intros Hhas. by apply Hbwd in Hhas.
    - destruct (decide (size x = 0%nat)) as [Hz|Hne]; [right|left; by apply Hfwd].
      intros Hhas. by apply Hfwd in Hhas. }
  destruct Hdec as [Hhas|Hnone].
  - eapply has_first_hop_grows; [apply Hs' | exact Hhas].
  - apply first_hops_copied_has; [by apply Hcopied | exact Hsource].
Qed.

Lemma grows_trans (s1 s2 s3 : TrimmedTraceGraph) : grows s1 s2 → grows s2 s3 → grows s1 s3.
Proof.
  intros (Ha & Hf & Hv) (Ha' & Hf' & Hv'). split; [|split].
  - intros i. etrans; [apply Ha | apply Ha'].
  - intros k f Hk. by apply Hf', Hf.
  - set_solver.
Qed.

Lemma repair_loop_completes (fuel : nat) (l : list Z) :
  ∀ s s', trimmed_consistent graph s →
          foldM (repair_instance h graph fuel) s l = Ok s' →
          (trimmed_consistent graph s' ∧ grows s s') ∧
          ∀ i kind, i ∈ l → has_first_hop graph i kind → has_first_hop (tg s') i kind.
Proof using Hwf.
  induction l as [|a l IH]; intros s s' Hcons Hfold; simpl in Hfold.
  - inversion Hfold; subst. split; [split; [done | apply grows_refl]|].
    by intros i kind ?%not_elem_of_nil.
  - bind_inv Hfold.
    destruct (repair_instance_grows _ _ _ _ Hcons Hx) as [Hcx Hgx].
    destruct (IH _ _ Hcx Hfold) as [[Hcs' Hgs'] Hrest].
    split; [split; [done | by eapply grows_trans]|].
    intros i kind [->|Hi]%elem_of_cons Hsource; [|by apply Hrest].
    destruct (repair_instance_completes fuel s x a kind Hcons Hx) as (_ & _ & Hhas).
    eapply has_first_hop_grows; [exact Hgs' | by apply Hhas].
Qed.

(** The repair loop and the flood fill add no instance. *)
Lemma same_instances_stable (m : gmap Z nat) :
  trace_stable graph (λ s, _issue_instances (tg s) = m).
Proof.
  split; simpl; intros; try done. unfold add_shared_text. by destruct (existsb _ _).
Qed.

Lemma repair_loop_instances (fuel : nat) (l : list Z) (s s' : TrimmedTraceGraph) :
  foldM (repair_instance h graph fuel) s l = Ok s' →
  _issue_instances (tg s') = _issue_instances (tg s).
Proof.
  intros Hfold.
  refine (foldM_invariant (λ s0, _issue_instances (tg s0) = _issue_instances (tg s))
            _ _ _ s s' eq_refl Hfold).
  intros s0 i s1 _ HQ Hrow.
  by apply (repair_instance_keeps h graph
              (λ s2, _issue_instances (tg s2) = _issue_instances (tg s))
              fuel s0 s1 i (same_instances_stable _)).
Qed.

Lemma affected_issues_only_stable (b : bool) :
  populate_stable h graph (λ s, _affected_issues_only s = b).
Proof. split; [split|split| |]; intros; done. Qed.

Lemma consistent_init (files : list string) (aio : bool) :
  trimmed_consistent graph (set_visited ∅ (TrimmedTraceGraph__init__ files aio)).
Proof.
  split; [|split]; simpl.
  - intros i r Hi. by rewrite lookup_empty in Hi.
  - intros k f Hk. by rewrite lookup_empty in Hk.
  - intros k Hk. by apply not_elem_of_empty in Hk.
Qed.


End RepairProperties.

Lemma ex_repair_run_result : ex_repair_run = Ok (ex_repair_heap_after, ex_repair_out).
Proof. vm_compute. reflexivity. Qed.

(** Step 3 finds the instance of the example from its sink-ward frame and
    associates that frame only; the repair step adds the source-ward one. *)
Example repair_adds_the_missing_direction :
  match _populate_issues_from_affected_trace_frames ex_heap ex_repair 20
          (TrimmedTraceGraph__init__ ["/a/"%string] false) with
  | Ok s => elements (dget (_issue_instance_trace_frame_assoc (tg s)) 2)
  | Raise _ => []
  end = [41] ∧
  elements (dget (_issue_instance_trace_frame_assoc (tg ex_repair_out)) 2) = [41; 42].
Proof. split; vm_compute; reflexivity. Qed.

(** ** Using the bulk saver: adding, the statistics and the rows submitted *)

Section BulkSaverUsage.

Import BulkSaver.

Lemma pending_insert (self : saver) (pk : gmap string Z) (cls cls' : model) (l : list item) :
  pending (mkSaver pk (<[__name__ cls := l]> (saving self))) cls'
  = if decide (cls = cls') then l else pending self cls'.
Proof.
  unfold pending. simpl. destruct (decide (cls = cls')) as [->|Hne].
  - by rewrite lookup_insert_eq.
  - rewrite lookup_insert_ne; [done|]. intros Heq. by apply Hne, __name___inj.
Qed.

Lemma well_formed_insert (self : saver) (pk : gmap string Z) (cls : model) (l : list item) :
  well_formed self = true → cls ∈ SAVING_CLASSES_ORDER →
  well_formed (mkSaver pk (<[__name__ cls := l]> (saving self))) = true.
Proof.
  intros Hwf%bool_decide_eq_true Hin. apply bool_decide_eq_true. simpl.
  rewrite dom_insert_L, Hwf.
  assert (Hname : __name__ cls ∈ (list_to_set (map __name__ SAVING_CLASSES_ORDER) : gset string)).
  { apply elem_of_list_to_set, list_elem_of_fmap. eauto. }
  apply subseteq_union_1_L. by apply singleton_subseteq_l.
Qed.

Lemma add_spec (it : item) (self : saver) :
  well_formed self = true → item_model it ∈ SAVING_CLASSES_ORDER →
  add it self
  = Ok (mkSaver (primary_key_generator self)
                (<[__name__ (item_model it) := it :: pending self (item_model it)]>
                   (saving self))).
Proof.
  intros Hwf Hin. unfold add. rewrite bool_decide_eq_true_2 by done.
  unfold getitem. by rewrite (well_formed_registered self _ Hwf Hin).
Qed.

Lemma add_all_spec (first : item) (rest : list item) (self : saver) :
  well_formed self = true → item_model first ∈ SAVING_CLASSES_ORDER →
  add_all (first :: rest) self
  = Ok (mkSaver (primary_key_generator self)
                (<[__name__ (item_model first)
                   := rev (first :: rest) ++ pending self (item_model first)]>
                   (saving self))).
Proof.
  intros Hwf Hin. unfold add_all. rewrite bool_decide_eq_true_2 by done.
  unfold getitem. by rewrite (well_formed_registered self _ Hwf Hin).
Qed.

Lemma get_items_to_add_insert (self : saver) (pk : gmap string Z) (cls cls' : model)
    (l : list item) :
  cls' ≠ cls →
  get_items_to_add (mkSaver pk (<[__name__ cls := l]> (saving self))) cls'
  = get_items_to_add self cls'.
Proof.
  intros Hne. unfold get_items_to_add, getitem. simpl.
  rewrite lookup_insert_ne; [done|]. intros Heq. by apply Hne, eq_sym, __name___inj.
Qed.

(** X1: on a saver whose pending lists are those of [__init__], [add] of an
    item whose model is not a class of [SAVING_CLASSES_ORDER] fails its
    assertion; [add] of an item of one of these classes returns, the item is
    then the last of [get_items_to_add] of its class, after the items that
    were pending, and [get_items_to_add] of every other class is as it
    was. *)
Theorem add_then_get_items_to_add (it : item) (self : saver) :
  well_formed self = true →
  (item_model it ∉ SAVING_CLASSES_ORDER → add it self = Raise AssertionError) ∧
  (item_model it ∈ SAVING_CLASSES_ORDER →
   ∃ self', add it self = Ok self' ∧
            well_formed self' = true ∧
            get_items_to_add self' (item_model it)
            = Ok (it :: pending self (item_model it)) ∧
            ∀ cls, cls ≠ item_model it →
                   get_items_to_add self' cls = get_items_to_add self cls).
Proof.
  intros Hwf. split.
  - intros Hnot. unfold add. by rewrite bool_decide_eq_false_2.
  - intros Hin. eexists. split; [exact (add_spec it self Hwf Hin)|].
    split; [by apply well_formed_insert|]. split.
    + unfold get_items_to_add, getitem. simpl. by rewrite lookup_insert_eq.
    + intros cls Hne. by apply get_items_to_add_insert.
Qed.

Lemma fold_add_spec (cls : model) (rest : list item) :
  ∀ (first : item) (self : saver),
    well_formed self = true → cls ∈ SAVING_CLASSES_ORDER →
    (∀ it, it ∈ first :: rest → item_model it = cls) →
    foldM (λ s it, add it s) self (first :: rest)
    = Ok (mkSaver (primary_key_generator self)
                  (<[__name__ cls := rev (first :: rest) ++ pending self cls]> (saving self))).
Proof.
  induction rest as [|second rest IH]; intros first self Hwf Hin Hall.
  - simpl. assert (Hm : item_model first = cls) by (apply Hall; set_solver).
    rewrite add_spec by (by rewrite ?Hm). simpl. by rewrite Hm.
  - assert (Hm : item_model first = cls) by (apply Hall; set_solver).
    change (foldM (λ s it, add it s) self (first :: second :: rest))
      with (let* s := add first self in foldM (λ s it, add it s) s (second :: rest)).
    rewrite add_spec by (by rewrite ?Hm). cbn [bind]. rewrite Hm.
    rewrite IH; [|by apply well_formed_insert|done|intros it' Hit'; apply Hall; set_solver].
    f_equal. rewrite pending_insert, decide_True by done. simpl.
    rewrite insert_insert_eq. f_equal. f_equal. by rewrite <- !app_assoc.
Qed.

(** X2: on a saver whose pending lists are those of [__init__], [add_all] of
    a list of items of one class of [SAVING_CLASSES_ORDER] is [add] of each
    of them in turn. *)
Theorem add_all_is_repeated_add (items : list item) (cls : model) (self : saver) :
  well_formed self = true → cls ∈ SAVING_CLASSES_ORDER →
  (∀ it, it ∈ items → item_model it = cls) →
  add_all items self = foldM (λ s it, add it s) self items.
Proof.
  intros Hwf Hin Hall. destruct items as [|first rest]; [done|].
  assert (Hm : item_model first = cls) by (apply Hall; set_solver).
  rewrite (fold_add_spec cls rest first self Hwf Hin Hall).
  rewrite add_all_spec by (by rewrite ?Hm). by rewrite Hm.
Qed.

(** X3: [add_all] looks at the class of the first item only: when that is a
    class of [SAVING_CLASSES_ORDER], every item of the list, whatever its own
    class, is appended in order to the pending list of the first item's
    class, and no other pending list changes. *)
Theorem add_all_files_under_first_class (first : item) (rest : list item) (self : saver) :
  well_formed self = true → item_model first ∈ SAVING_CLASSES_ORDER →
  ∃ self', add_all (first :: rest) self = Ok self' ∧
           well_formed self' = true ∧
           pending self' (item_model first)
           = rev (first :: rest) ++ pending self (item_model first) ∧
           ∀ cls, cls ≠ item_model first → pending self' cls = pending self cls.
Proof.
  intros Hwf Hin. eexists. split; [exact (add_all_spec first rest self Hwf Hin)|].
  split; [by apply well_formed_insert|]. split.
  - by rewrite pending_insert, decide_True.
  - intros cls Hne. by rewrite pending_insert, decide_False.
Qed.



Lemma keys_leb_total (a b : list string) : keys_leb a b = false → keys_leb b a = true.
Proof.
  revert b. induction a as [|x a IH]; intros [|y b]; simpl; try done.
  unfold String.ltb. rewrite (String.compare_antisym y x).
  destruct (String.compare x y) eqn:Hc; simpl; try done.
  apply String.compare_eq_iff in Hc as ->. rewrite String.eqb_refl. apply IH.
Qed.

Lemma insert_sorted_Sorted (k : list (string * Z)) (l : list (list (string * Z))) :
  keys_sorted l → keys_sorted (insert_sorted k l).
Proof.
  unfold keys_sorted. induction 1 as [|k' l Hs IH Hhd]; simpl.
  - by repeat constructor.
  - destruct (keys_leb (keys k) (keys k')) eqn:Hle.
    + constructor; [by constructor | by constructor].
    + constructor; [exact IH|].
      destruct l as [|k'' l]; simpl.
      * constructor. by apply keys_leb_total.
      * destruct (keys_leb (keys k) (keys k'')); constructor;
          [by apply keys_leb_total | by inversion Hhd].
Qed.

Lemma sorted_Sorted (l : list (list (string * Z))) : keys_sorted (sorted l).
Proof.
  induction l as [|k l IH]; simpl; [constructor | by apply insert_sorted_Sorted].
Qed.

Lemma insert_sorted_Permutation (k : list (string * Z)) (l : list (list (string * Z))) :
  insert_sorted k l ≡ₚ k :: l.
Proof.
  induction l as [|k' l IH]; simpl; [done|].
  destruct (keys_leb (keys k) (keys k')); [done|].
  by rewrite IH, Permutation_swap.
Qed.

Lemma sorted_Permutation (l : list (list (string * Z))) : sorted l ≡ₚ l.
Proof.
  induction l as [|k l IH]; simpl; [done|].
  by rewrite insert_sorted_Permutation, IH.
Qed.

(** X4: [_save] of a class that has a pending list returns and empties the
    list; the rows it submits for the class are the prepared rows of the
    pending items, each once, in the order of their key lists, and it submits
    no row for another class. *)
Theorem _save_submits_sorted_rows (self : saver) (db : DB) (cls : model)
    (pk_gen : gmap string Z) (items : list item) :
  saving self !! __name__ cls = Some items →
  ∃ self' db' pk_gen' rows,
    _save self db cls pk_gen = Ok (self', db', pk_gen') ∧
    pending self' cls = [] ∧
    rows ≡ₚ (prepare cls pk_gen items).1 ∧
    keys_sorted rows ∧
    submitted cls (db_trace db') = submitted cls (db_trace db) ++ rows ∧
    ∀ c, c ≠ cls → submitted c (db_trace db') = submitted c (db_trace db).
Proof.
  intros Hitems. unfold _save, getitem. rewrite Hitems. simpl.
  rewrite consume_all. simpl.
  exists (mkSaver (primary_key_generator self) (<[__name__ cls := []]> (saving self))).
  eexists _, _, (sorted (prepare cls pk_gen items).1).
  split; [reflexivity|]. split; [|split; [|split; [|split]]].
  - unfold pending. simpl. by rewrite lookup_insert_eq.
  - apply sorted_Permutation.
  - apply sorted_Sorted.
  - rewrite insert_groups_trace, submitted_app, submitted_inserts, decide_True by done.
    by rewrite split_every_concat.
  - intros c Hne. rewrite insert_groups_trace, submitted_app, submitted_inserts.
    rewrite decide_False by done. by rewrite app_nil_r.
Qed.

Lemma reservations_app (t1 t2 : list event) :
  reservations (t1 ++ t2) = reservations t1 ++ reservations t2.
Proof.
  induction t1 as [|e t1 IH]; simpl; [done|].
  destruct e; simpl; by rewrite IH.
Qed.

Lemma reservations_inserts (cls : model) (groups : list (list (list (string * Z)))) :
  reservations (map (BulkInsert cls) groups) = [].
Proof. induction groups as [|g groups IH]; simpl; done. Qed.

(** The loop of [save_all] appends to the trace, and reserves nothing. *)
Lemma save_loop_trace (classes : list model) :
  ∀ (self : saver) (db : DB) (pk_gen : gmap string Z) (r : saver * DB * gmap string Z),
    foldM (λ (acc : saver * DB * gmap string Z) cls,
             let db := mkDB (db_last_key acc.1.2) (db_trace acc.1.2 ++ [Saving cls]) in
             _save acc.1.1 db cls acc.2)
          (self, db, pk_gen) classes = Ok r →
    ∃ tail, db_trace r.1.2 = db_trace db ++ tail ∧ reservations tail = [].
Proof.
  induction classes as [|cls classes IH]; intros self db pk_gen r Hr; simpl in Hr.
  - injection Hr as <-. exists []. by rewrite app_nil_r.
  - apply bind_Ok in Hr as ([[self1 db1] pk1] & Hsave & Hr).
    apply IH in Hr as (tail & Htail & Hres).
    unfold _save in Hsave. cbv zeta in Hsave.
    apply bind_Ok in Hsave as (items & _ & Hsave). injection Hsave as <- <- <-.
    rewrite insert_groups_trace in Htail. simpl in Htail.
    eexists. split; [rewrite Htail, <- !app_assoc; reflexivity|].
    rewrite !reservations_app, reservations_inserts, Hres. done.
Qed.

Lemma mapR_Ok_map {A B : Type} (f : A → result B) (g : A → B) (l : list A) :
  (∀ a, a ∈ l → f a = Ok (g a)) → mapR f l = Ok (map g l).
Proof.
  induction l as [|a l IH]; intros Hf; simpl; [done|].
  rewrite (Hf a) by apply list_elem_of_here. simpl.
  rewrite IH by (intros a' Ha'; apply Hf; by apply list_elem_of_further). done.
Qed.

Lemma lookup_counts (g : model → nat) (l : list model) (c : model) :
  (list_to_map (map (λ cls, (__name__ cls, g cls)) l) : gmap string nat) !! __name__ c
  = if decide (c ∈ l) then Some (g c) else None.
Proof.
  induction l as [|cls l IH].
  - simpl. rewrite lookup_empty. destruct (decide (c ∈ [])) as [Hin|]; [|done].
    by apply elem_of_nil in Hin.
  - simpl.
    destruct (decide (cls = c)) as [->|Hne].
    + rewrite lookup_insert_eq. by rewrite decide_True by apply list_elem_of_here.
    + rewrite lookup_insert_ne by (intros Heq; by apply Hne, __name___inj).
      rewrite IH. destruct (decide (c ∈ l)) as [Hin|Hnot].
      * by rewrite decide_True by (by apply list_elem_of_further).
      * rewrite decide_False; [done|]. intros [Heq|Hin]%elem_of_cons; [by apply Hne|done].
Qed.

(** X5: [save_all] on a saver whose pending lists are those of [__init__]
    reserves keys once, before it saves or inserts anything: for the classes
    that have pending items, in the order of [SAVING_CLASSES_ORDER], and for
    each class as many keys as the class has pending items, which is the
    number of rows it then submits for the class. *)
Theorem save_all_reserves_what_it_inserts (self : saver) (database : DB) :
  well_formed self = true →
  ∃ self' database' item_counts tail,
    save_all self database = Ok (self', database') ∧
    db_trace database'
    = db_trace database
      ++ Reserve (filter (λ cls, pending self cls ≠ []) SAVING_CLASSES_ORDER) item_counts
         :: tail ∧
    reservations tail = [] ∧
    (∀ cls, cls ∈ SAVING_CLASSES_ORDER →
            default 0%nat (item_counts !! __name__ cls) = length (pending self cls) ∧
            length (submitted cls tail) = length (pending self cls)).
Proof.
  intros Hwf.
  destruct (save_all_spec self database Hwf) as (self' & database' & Hsave & _ & _ & _ & Hlen).
  exists self', database'. pose proof Hsave as Hrun.
  unfold save_all in Hsave. rewrite (saving_classes_spec self Hwf) in Hsave. cbn [bind] in Hsave.
  set (classes := filter (λ cls, pending self cls ≠ []) SAVING_CLASSES_ORDER) in *.
  assert (Hsub : ∀ cls, cls ∈ classes → cls ∈ SAVING_CLASSES_ORDER).
  { intros cls Hin. by apply list_elem_of_filter in Hin as [_ Hin]. }
  rewrite (mapR_Ok_map _ (λ cls, (__name__ cls, length (pending self cls)))) in Hsave.
  2:{ intros cls Hin. unfold get_items_to_add, getitem.
      by rewrite (well_formed_registered self cls Hwf (Hsub cls Hin)). }
  cbn [bind] in Hsave. cbv zeta in Hsave.
  apply bind_Ok in Hsave as (r & Hloop & Hsave). injection Hsave as <- <-.
  apply save_loop_trace in Hloop as (tail & Htail & Hres).
  rewrite reserve_trace in Htail.
  eexists _, tail. split; [exact Hrun|]. split; [by rewrite Htail, <- app_assoc|].
  split; [exact Hres|]. intros cls Hin. split.
  - rewrite (lookup_counts (λ cls, length (pending self cls))).
    destruct (decide (cls ∈ classes)) as [|Hnot]; [done|].
    by rewrite (not_saved_nothing_pending self cls Hin Hnot).
  - specialize (Hlen cls Hin). rewrite Htail in Hlen.
    rewrite <- app_assoc, submitted_app, length_app in Hlen. simpl in Hlen. lia.
Qed.

Lemma dump_stats_loop (self self' : saver) (l : list model) :
  ∀ acc : string,
    (∀ cls, cls ∈ l → ∃ n, length <$> saving self !! __name__ cls = Some n ∧
                           length <$> saving self' !! __name__ cls = Some n) →
    ∃ out,
      foldM (λ (stat_str : string) cls,
               let* pending := getitem (saving self) (__name__ cls) in
               Ok (stat_str +:+ __name__ cls +:+ ": " +:+ pretty (length pending) +:+ newline))
            acc l = Ok out ∧
      foldM (λ (stat_str : string) cls,
               let* pending := getitem (saving self') (__name__ cls) in
               Ok (stat_str +:+ __name__ cls +:+ ": " +:+ pretty (length pending) +:+ newline))
            acc l = Ok out.
Proof.
  induction l as [|cls l IH]; intros acc Hsame; simpl; [eauto|].
  destruct (Hsame cls) as (n & Hn & Hn'); [apply list_elem_of_here|].
  unfold getitem at 1 3.
  destruct (saving self !! __name__ cls) as [p|]; [|done].
  destruct (saving self' !! __name__ cls) as [p'|]; [|done].
  simpl in *. injection Hn as <-. injection Hn' as ->.
  apply IH. intros c Hc. apply Hsame. by apply list_elem_of_further.
Qed.

Lemma __init___well_formed : well_formed __init__ = true.
Proof. vm_compute. reflexivity. Qed.

(** X6: [dump_stats] of a saver whose pending lists are those of [__init__]
    returns, and it depends on the numbers of pending items only; after
    [save_all] it is the [dump_stats] of a new saver, with the count 0 for
    every class. *)
Theorem dump_stats_after_save_all (self self' : saver) (database database' : DB) :
  well_formed self = true →
  save_all self database = Ok (self', database') →
  (∃ out, dump_stats self = Ok out) ∧
  (∀ other, well_formed other = true →
            (∀ cls, cls ∈ SAVING_CLASSES_ORDER →
                    length (pending other cls) = length (pending self cls)) →
            dump_stats other = dump_stats self) ∧
  dump_stats self' = dump_stats __init__.
Proof.
  intros Hwf Hsave.
  assert (Hext : ∀ a b, well_formed a = true → well_formed b = true →
            (∀ cls, cls ∈ SAVING_CLASSES_ORDER →
                    length (pending a cls) = length (pending b cls)) →
            ∃ out, dump_stats a = Ok out ∧ dump_stats b = Ok out).
  { intros a b Ha Hb Hlen. apply dump_stats_loop. intros cls Hin.
    exists (length (pending a cls)).
    rewrite (well_formed_registered a cls Ha Hin), (well_formed_registered b cls Hb Hin).
    simpl. by rewrite (Hlen cls Hin). }
  split; [|split].
  - destruct (Hext self self Hwf Hwf) as (out & Hout & _); eauto.
  - intros other Hother Hlen.
    destruct (Hext other self Hother Hwf Hlen) as (out & -> & ->). done.
  - destruct (save_all_spec self database Hwf) as (s1 & d1 & Hs1 & _ & Hempty & Hdom & _).
    rewrite Hsave in Hs1. injection Hs1 as <- <-.
    assert (Hwf' : well_formed self' = true).
    { apply bool_decide_eq_true. rewrite Hdom. by apply bool_decide_eq_true in Hwf. }
    destruct (Hext self' __init__ Hwf' __init___well_formed) as (out & -> & ->); [|done].
    intros cls Hin. rewrite (Hempty cls Hin).
    revert Hin. clear. intros Hin.
    repeat (apply elem_of_cons in Hin as [->|Hin]; [vm_compute; reflexivity|]).
    by apply elem_of_nil in Hin.
Qed.



(** X7: whatever is called on a new saver ([add], [add_all] and [save_all],
    in any order and number, each call returning), the keys of [saving] stay
    the names of the classes of [SAVING_CLASSES_ORDER]: [get_items_to_add] of
    each of these classes returns, and so does [save_all]. *)
Theorem saver_keys_are_the_class_names (calls : list call) (database : DB)
    (self : saver) (database' : DB) :
  foldM run_call (__init__, database) calls = Ok (self, database') →
  dom (saving self) = list_to_set (map __name__ SAVING_CLASSES_ORDER) ∧
  (∀ cls, cls ∈ SAVING_CLASSES_ORDER → get_items_to_add self cls = Ok (pending self cls)) ∧
  ∃ r, save_all self database' = Ok r.
Proof.
  intros Hrun.
  assert (Hwf : well_formed (self, database').1 = true).
  { refine (foldM_invariant (λ st, well_formed st.1 = true) run_call calls _
              (__init__, database) _ __init___well_formed Hrun).
    intros [s d] c [s' d'] _ Hs Hc. simpl in Hs. destruct c as [it|items|]; simpl in Hc.
    - apply bind_Ok in Hc as (s1 & Hadd & Hc). injection Hc as <- <-. simpl.
      unfold add in Hadd. case_bool_decide as Hin; [|done].
      apply bind_Ok in Hadd as (l & _ & Hadd). injection Hadd as <-.
      by apply well_formed_insert.
    - apply bind_Ok in Hc as (s1 & Hadd & Hc). injection Hc as <- <-. simpl.
      destruct items as [|first rest]; simpl in Hadd; [by injection Hadd as <-|].
      case_bool_decide as Hin; [|done].
      apply bind_Ok in Hadd as (l & _ & Hadd). injection Hadd as <-.
      by apply well_formed_insert.
    - destruct (save_all_spec s d Hs) as (s1 & d1 & Hs1 & _ & _ & Hdom & _).
      rewrite Hc in Hs1. injection Hs1 as <- <-. simpl.
      apply bool_decide_eq_true. rewrite Hdom. by apply bool_decide_eq_true in Hs. }
  simpl in Hwf. split; [by apply bool_decide_eq_true in Hwf|]. split.
  - intros cls Hin. unfold get_items_to_add, getitem.
    by rewrite (well_formed_registered self cls Hwf Hin).
  - destruct (save_all_spec self database' Hwf) as (s1 & d1 & Hs1 & _). eauto.
Qed.

Lemma ex_saver_well_formed : well_formed ex_saver = true.
Proof. vm_compute. reflexivity. Qed.

Lemma add_then_get_items_to_add_witness :
  ∃ self', add (mkItem Issue 7 []) ex_saver = Ok self' ∧
           well_formed self' = true ∧
           get_items_to_add self' Issue = Ok (mkItem Issue 7 [] :: pending ex_saver Issue) ∧
           ∀ cls, cls ≠ Issue → get_items_to_add self' cls = get_items_to_add ex_saver cls.
Proof.
  apply (proj2 (add_then_get_items_to_add (mkItem Issue 7 []) ex_saver ex_saver_well_formed)).
  apply (bool_decide_unpack _). vm_compute. exact I.
Defined.

Lemma add_all_is_repeated_add_witness :
  add_all [mkItem SharedText 3 []; mkItem SharedText 4 []] ex_saver
  = foldM (λ s it, add it s) ex_saver [mkItem SharedText 3 []; mkItem SharedText 4 []].
Proof.
  apply (add_all_is_repeated_add _ SharedText ex_saver ex_saver_well_formed).
  - apply (bool_decide_unpack _). vm_compute. exact I.
  - intros it Hin. repeat (apply elem_of_cons in Hin as [->|Hin]; [reflexivity|]).
    by apply elem_of_nil in Hin.
Defined.

(** An issue and a run, added as one list: both are pending as issues. *)
Lemma add_all_files_under_first_class_witness :
  ∃ self', add_all [mkItem Issue 7 []; mkItem Run 1 []] ex_saver = Ok self' ∧
           well_formed self' = true ∧
           pending self' Issue
           = rev [mkItem Issue 7 []; mkItem Run 1 []] ++ pending ex_saver Issue ∧
           ∀ cls, cls ≠ Issue → pending self' cls = pending ex_saver cls.
Proof.
  apply (add_all_files_under_first_class (mkItem Issue 7 []) [mkItem Run 1 []] ex_saver
           ex_saver_well_formed).
  apply (bool_decide_unpack _). vm_compute. exact I.
Defined.

Lemma _save_submits_sorted_rows_witness :
  ∃ self' db' pk_gen' rows,
    _save ex_saver ex_db SharedText ∅ = Ok (self', db', pk_gen') ∧
    pending self' SharedText = [] ∧
    rows ≡ₚ (prepare SharedText ∅ (pending ex_saver SharedText)).1 ∧
    keys_sorted rows ∧
    submitted SharedText (db_trace db') = submitted SharedText (db_trace ex_db) ++ rows ∧
    ∀ c, c ≠ SharedText → submitted c (db_trace db') = submitted c (db_trace ex_db).
Proof.
  apply (_save_submits_sorted_rows ex_saver ex_db SharedText ∅ (pending ex_saver SharedText)).
  vm_compute. reflexivity.
Defined.

Lemma save_all_reserves_what_it_inserts_witness :
  ∃ self' database' item_counts tail,
    save_all ex_saver ex_db = Ok (self', database') ∧
    db_trace database'
    = db_trace ex_db
      ++ Reserve (filter (λ cls, pending ex_saver cls ≠ []) SAVING_CLASSES_ORDER) item_counts
         :: tail ∧
    reservations tail = [] ∧
    (∀ cls, cls ∈ SAVING_CLASSES_ORDER →
            default 0%nat (item_counts !! __name__ cls) = length (pending ex_saver cls) ∧
            length (submitted cls tail) = length (pending ex_saver cls)).
Proof. exact (save_all_reserves_what_it_inserts ex_saver ex_db ex_saver_well_formed). Defined.

Lemma dump_stats_after_save_all_witness :
  ∃ self' database',
    save_all ex_saver ex_db = Ok (self', database') ∧
    (∃ out, dump_stats ex_saver = Ok out) ∧
    dump_stats self' = dump_stats __init__.
Proof.
  destruct (save_all ex_saver ex_db) as [[self' database']|e] eqn:Hrun;
    [|vm_compute in Hrun; discriminate Hrun].
  exists self', database'. split; [reflexivity|].
  destruct (dump_stats_after_save_all ex_saver self' ex_db database' ex_saver_well_formed Hrun)
    as (Hout & _ & Hafter).
  by split.
Defined.

Lemma saver_keys_are_the_class_names_witness :
  ∃ self database',
    foldM run_call (__init__, ex_db)
          [Add (mkItem Issue 7 []); AddAll [mkItem SharedText 3 []]; SaveAll;
           Add (mkItem TraceFrame 1 [])]
    = Ok (self, database') ∧
    dom (saving self) = list_to_set (map __name__ SAVING_CLASSES_ORDER) ∧
    (∀ cls, cls ∈ SAVING_CLASSES_ORDER → get_items_to_add self cls = Ok (pending self cls)) ∧
    ∃ r, save_all self database' = Ok r.
Proof.
  destruct (foldM run_call (__init__, ex_db)
              [Add (mkItem Issue 7 []); AddAll [mkItem SharedText 3 []]; SaveAll;
               Add (mkItem TraceFrame 1 [])]) as [[self database']|e] eqn:Hrun;
    [|vm_compute in Hrun; discriminate Hrun].
  exists self, database'. split; [reflexivity|].
  exact (saver_keys_are_the_class_names _ _ _ _ Hrun).
Defined.

End BulkSaverUsage.

(** ** The helpers of the trimmer *)

Section HelperProperties.

Context (graph : TraceGraph).

Lemma prefix_append (p s : string) : String.prefix p s = true ↔ ∃ rest, s = p +:+ rest.
Proof.
  revert s. induction p as [|a p IH]; intros s.
  - split; [intros _; by exists s | intros _; by destruct s].
  - destruct s as [|b s]; simpl.
    + split; [done | intros [rest Hrest]; discriminate Hrest].
    + destruct (Ascii.ascii_dec a b) as [->|Hne].
      * rewrite IH. split; intros [rest Hrest]; exists rest; [by rewrite Hrest|].
        by injection Hrest.
      * split; [done|]. intros [rest Hrest]. injection Hrest as Hab _. by destruct Hne.
Qed.

(** X8: [_is_filename_prefixed_with] holds exactly when the filename is one
    of the prefixes followed by some rest: on characters, with no regard to
    path separators, and for no filename when there is no prefix. *)
Theorem _is_filename_prefixed_with_iff (filename : string) (prefixes : list string) :
  _is_filename_prefixed_with filename prefixes = true ↔
  ∃ p rest, p ∈ prefixes ∧ filename = p +:+ rest.
Proof.
  unfold _is_filename_prefixed_with. rewrite existsb_exists. split.
  - intros (p & Hin%list_elem_of_In & [rest Hrest]%prefix_append). eauto.
  - intros (p & rest & Hin & Hrest). exists p. split; [by apply list_elem_of_In|].
    apply prefix_append. eauto.
Qed.

Lemma mapR_Ok_elem_of_l {A B : Type} (f : A → result B) (l : list A) (bs : list B) (a : A) :
  mapR f l = Ok bs → a ∈ l → ∃ b, b ∈ bs ∧ f a = Ok b.
Proof.
  revert bs. induction l as [|a' l IH]; intros bs Hm Ha; [by apply elem_of_nil in Ha|].
  simpl in Hm. apply bind_Ok in Hm as (b' & Hb' & Hm). apply bind_Ok in Hm as (bs' & Hbs' & Hm).
  injection Hm as <-. apply elem_of_cons in Ha as [->|Ha].
  - exists b'. split; [apply list_elem_of_here | done].
  - destruct (IH bs' Hbs' Ha) as (b & Hb & Hfb). exists b. split; [by apply list_elem_of_further | done].
Qed.

Lemma mapR_Raise {A B : Type} (f : A → result B) (l : list A) (e : exn) :
  mapR f l = Raise e → ∃ a, a ∈ l ∧ f a = Raise e.
Proof.
  induction l as [|a l IH]; simpl; [done|].
  destruct (f a) as [b|e'] eqn:Hfa; simpl.
  - destruct (mapR f l) as [bs|e'] eqn:Hm; simpl; [done|].
    intros [= ->]. destruct (IH eq_refl) as (a' & Ha' & Hfa').
    exists a'. split; [by apply list_elem_of_further | done].
  - intros [= ->]. exists a. split; [apply list_elem_of_here | done].
Qed.

(** X9: [_get_predecessor_frames] returns exactly when every id of the
    frame's entry in the reverse index is a frame of the graph that has a
    leaf mapping; it then returns one pair for each id, the frame with the
    leaves [compute_prev_leaf_kinds] gives for its leaf mapping; and when
    every id is a frame of the graph and one of them has no leaf mapping, it
    fails its assertion. *)
Theorem _get_predecessor_frames_asserts_leaf_mappings (leaves : gset Z)
    (trace_frame : TraceFrame) :
  ((∃ preds, _get_predecessor_frames graph leaves trace_frame = Ok preds) ↔
   ∀ id, id ∈ predecessor_ids graph trace_frame →
         ∃ f mapping, _trace_frames graph !! id = Some f ∧ leaf_mapping f = Some mapping) ∧
  (∀ preds, _get_predecessor_frames graph leaves trace_frame = Ok preds →
     length preds = size (predecessor_ids graph trace_frame) ∧
     ∀ p, p ∈ preds ↔
          ∃ id mapping, id ∈ predecessor_ids graph trace_frame ∧
                        _trace_frames graph !! id = Some p.1 ∧
                        leaf_mapping p.1 = Some mapping ∧
                        p.2 = compute_prev_leaf_kinds leaves mapping) ∧
  ((∀ id, id ∈ predecessor_ids graph trace_frame → is_Some (_trace_frames graph !! id)) →
   (∃ id f, id ∈ predecessor_ids graph trace_frame ∧
            _trace_frames graph !! id = Some f ∧ leaf_mapping f = None) →
   _get_predecessor_frames graph leaves trace_frame = Raise AssertionError).
Proof.
  unfold _get_predecessor_frames. fold (predecessor_ids graph trace_frame).
  set (ids := predecessor_ids graph trace_frame).
  set (g := λ trace_frame_id : Z,
         let* predecessor := getitem (_trace_frames graph) trace_frame_id in
         match leaf_mapping predecessor with
         | None => Raise AssertionError
         | Some mapping => Ok (predecessor, compute_prev_leaf_kinds leaves mapping)
         end).
  assert (Hg : ∀ id p, g id = Ok p ↔
            ∃ mapping, _trace_frames graph !! id = Some p.1 ∧
                       leaf_mapping p.1 = Some mapping ∧
                       p.2 = compute_prev_leaf_kinds leaves mapping).
  { intros id p. unfold g, getitem. destruct (_trace_frames graph !! id) as [f|]; simpl.
    - destruct (leaf_mapping f) as [m|] eqn:Hm.
      + split.
        * intros [= <-]. simpl. eauto.
        * destruct p as [pf pl]. simpl. intros (m' & [= <-] & Hm' & ->).
          rewrite Hm in Hm'. by injection Hm' as <-.
      + split; [done|]. destruct p as [pf pl]. simpl. intros (m' & [= <-] & Hm' & _).
        by rewrite Hm in Hm'.
    - split; [done|]. by intros (m' & Hf & _). }
  split; [|split].
  - split.
    + intros [preds Hpreds] id Hid.
      destruct (mapR_Ok_all g (elements ids) preds id Hpreds) as [p Hp];
        [by apply elem_of_elements|].
      apply Hg in Hp as (m & Hf & Hm & _). eauto.
    + intros Hall. apply mapR_total. intros id Hid%elem_of_elements.
      destruct (Hall id Hid) as (f & m & Hf & Hm).
      exists (f, compute_prev_leaf_kinds leaves m). apply Hg. simpl. eauto.
  - intros preds Hpreds. split.
    + rewrite (mapR_Ok_length g _ _ Hpreds). done.
    + intros p. split.
      * intros Hp. destruct (mapR_Ok_elem_of g _ _ p Hpreds Hp) as (id & Hid & Hgid).
        apply Hg in Hgid as (m & Hf & Hm & Hl). exists id, m.
        split; [by apply elem_of_elements|done].
      * intros (id & m & Hid & Hf & Hm & Hl).
        destruct (mapR_Ok_elem_of_l g _ _ id Hpreds) as (p' & Hp' & Hgid);
          [by apply elem_of_elements|].
        assert (Hgp : g id = Ok p) by (apply Hg; eauto).
        rewrite Hgid in Hgp. by injection Hgp as <-.
  - intros Hres (id & f & Hid & Hf & Hnone).
    destruct (mapR g (elements ids)) as [preds|e] eqn:Hm.
    + destruct (mapR_Ok_all g _ _ id Hm) as [p Hp]; [by apply elem_of_elements|].
      apply Hg in Hp as (m & Hf' & Hm' & _). rewrite Hf in Hf'. injection Hf' as Heq.
      rewrite <- Heq in Hm'. by rewrite Hnone in Hm'.
    + apply mapR_Raise in Hm as (id' & Hid'%elem_of_elements & Hraise).
      destruct (Hres id' Hid') as [f' Hf']. unfold g, getitem in Hraise.
      rewrite Hf' in Hraise. simpl in Hraise.
      destruct (leaf_mapping f'); [done | by injection Hraise as <-].
Qed.

Lemma visited_kept (id : Z) : trace_stable graph (λ s, id ∈ _visited_trace_frame_ids s).
Proof.
  split; simpl; intros; try done. apply elem_of_union. by left.
Qed.

Lemma visited_all_kept (V : gset Z) :
  trace_stable graph (λ s, V ⊆ _visited_trace_frame_ids s).
Proof.
  split; simpl; intros; try done. by apply union_subseteq_l'.
Qed.

Lemma _populate_trace_marks (fuel : nat) :
  ∀ (s s' : TrimmedTraceGraph) (ids : list Z) (id : Z),
    _populate_trace graph fuel s ids = Ok s' → id ∈ ids → id ∈ _visited_trace_frame_ids s'.
Proof.
  induction fuel as [|fuel IH]; intros s s' ids id Hp Hid.
  - destruct ids; simpl in Hp; [by apply elem_of_nil in Hid | done].
  - destruct ids as [|id0 ids]; simpl in Hp; [by apply elem_of_nil in Hid|].
    destruct (bool_decide (id0 ∈ _visited_trace_frame_ids s)) eqn:Hvis.
    + apply elem_of_cons in Hid as [->|Hid]; [|by eapply IH].
      apply bool_decide_eq_true in Hvis.
      exact (_populate_trace_keeps graph fuel _ s ids s' (visited_kept id0) Hvis Hp).
    + apply bind_Ok in Hp as (f & Hf & Hp). apply bind_Ok in Hp as (s1 & Hs1 & Hp).
      apply bind_Ok in Hp as (nexts & Hnexts & Hp).
      apply elem_of_cons in Hid as [->|Hid].
      * refine (_populate_trace_keeps graph fuel _ _ _ s' (visited_kept id0) _ Hp).
        simpl. apply elem_of_union. right. by apply elem_of_singleton.
      * eapply IH; [exact Hp|]. apply elem_of_app. by right.
Qed.

Lemma _populate_trace_skips (ids : list Z) :
  ∀ (fuel : nat) (s : TrimmedTraceGraph),
    (∀ id, id ∈ ids → id ∈ _visited_trace_frame_ids s) → (length ids ≤ fuel)%nat →
    _populate_trace graph fuel s ids = Ok s.
Proof.
  induction ids as [|id ids IH]; intros fuel s Hvis Hfuel; [by destruct fuel|].
  destruct fuel as [|fuel]; simpl in Hfuel; [lia|]. simpl.
  rewrite bool_decide_eq_true_2 by apply Hvis, list_elem_of_here.
  apply IH; [|lia]. intros id' Hid'. by apply Hvis, list_elem_of_further.
Qed.

(** X10: when [_populate_trace] returns, every frame id of its work list is
    marked visited and no mark is lost; a second call on the same work list,
    with fuel for an iteration for each id, changes nothing. *)
Theorem _populate_trace_twice (fuel : nat) (s s' : TrimmedTraceGraph) (ids : list Z) :
  _populate_trace graph fuel s ids = Ok s' →
  (∀ id, id ∈ ids → id ∈ _visited_trace_frame_ids s') ∧
  _visited_trace_frame_ids s ⊆ _visited_trace_frame_ids s' ∧
  ∀ fuel', (length ids ≤ fuel')%nat → _populate_trace graph fuel' s' ids = Ok s'.
Proof.
  intros Hp. assert (Hmarks : ∀ id, id ∈ ids → id ∈ _visited_trace_frame_ids s').
  { intros id Hid. by eapply _populate_trace_marks. }
  split; [exact Hmarks|]. split.
  - by refine (_populate_trace_keeps graph fuel _ s ids s' (visited_all_kept _) _ Hp).
  - intros fuel' Hfuel. by apply _populate_trace_skips.
Qed.

End HelperProperties.

Lemma _get_predecessor_frames_asserts_leaf_mappings_witness :
  _get_predecessor_frames ex_unmapped {[5]} ex_cycle_f1 = Raise AssertionError.
Proof.
  apply (proj2 (proj2 (_get_predecessor_frames_asserts_leaf_mappings ex_unmapped {[5]}
                         ex_cycle_f1))).
  - intros id Hid.
    assert (Hids : predecessor_ids ex_unmapped ex_cycle_f1 = {[22; 23]})
      by (vm_compute; reflexivity).
    rewrite Hids in Hid.
    apply elem_of_union in Hid as [Hid|Hid]; apply elem_of_singleton in Hid; subst id;
      vm_compute; eauto.
  - exists 23, ex_unmapped_frame. split; [|split].
    + apply (bool_decide_unpack _). vm_compute. exact I.
    + vm_compute. reflexivity.
    + reflexivity.
Defined.

Lemma _populate_trace_twice_witness :
  ∃ s', _populate_trace ex_cycle 5 ex_cycle_self [21] = Ok s' ∧
        (∀ id, id ∈ [21] → id ∈ _visited_trace_frame_ids s') ∧
        _visited_trace_frame_ids ex_cycle_self ⊆ _visited_trace_frame_ids s' ∧
        ∀ fuel', (length [21] ≤ fuel')%nat → _populate_trace ex_cycle fuel' s' [21] = Ok s'.
Proof.
  destruct (_populate_trace ex_cycle 5 ex_cycle_self [21]) as [s'|e] eqn:Hrun;
    [|vm_compute in Hrun; discriminate Hrun].
  exists s'. split; [reflexivity|].
  exact (_populate_trace_twice ex_cycle 5 ex_cycle_self s' [21] Hrun).
Defined.

(** ** What the trimmer copies *)

Section CopyProperties.

Context (h : gmap nat IssueInstance) (graph : TraceGraph).
Hypothesis Hwf : ids_registered h graph = true.

Lemma affected_files_stable (files : list string) :
  populate_stable h graph (λ s, _affected_files s = files).
Proof. split; [split|split| |]; intros; done. Qed.

Lemma elem_of_visited_keys (visited : gmap Z (gset Z)) (k : Z) :
  k ∈ (map_to_list visited).*1 ↔ k ∈ dom visited.
Proof.
  rewrite list_elem_of_fmap, elem_of_dom. split.
  - intros ([k' seen] & -> & Hin). exists seen. by apply elem_of_map_to_list.
  - intros [seen Hk]. exists (k, seen). split; [done|]. by apply elem_of_map_to_list.
Qed.

(** X11: on a source graph whose instances and frames are registered under
    their own ids, the trimmed graph is a subgraph of it: every issue
    instance and every trace frame of the output is the one the source graph
    has under the same id, and every frame id marked visited is a frame of
    the output. *)
Theorem trimmed_graph_is_a_subgraph (fuel : nat) (files : list string) (aio : bool)
    (h' : gmap nat IssueInstance) (out : TrimmedTraceGraph) :
  populate_from_trace_graph h graph fuel (TrimmedTraceGraph__init__ files aio) = Ok (h', out) →
  (∀ i r, _issue_instances (tg out) !! i = Some r → _issue_instances graph !! i = Some r) ∧
  (∀ k f, _trace_frames (tg out) !! k = Some f → _trace_frames graph !! k = Some f) ∧
  (∀ k, k ∈ _visited_trace_frame_ids out → is_Some (_trace_frames (tg out) !! k)).
Proof using Hwf.
  intros [Hgraph _]%populate_from_trace_graph_inv.
  set (s0 := set_visited ∅ (TrimmedTraceGraph__init__ files aio)).
  pose proof (consistent_grows_stable h graph Hwf s0) as Hst.
  refine (proj1 (populate_graph_keeps h graph _ fuel _ out Hst _ Hgraph)).
  split; [apply consistent_init | apply grows_refl].
Qed.

(** [_add_trace_frame] puts the frame into the trimmed graph. *)
Lemma _add_trace_frame_adds (fuel : nat) (s s' : TrimmedTraceGraph) (k : Z) (f : TraceFrame) :
  trimmed_consistent graph s → _trace_frames graph !! k = Some f →
  _add_trace_frame graph fuel s f = Ok s' →
  (trimmed_consistent graph s' ∧ grows s s') ∧ _trace_frames (tg s') !! k = Some f.
Proof using Hwf.
  intros Hc Hf Hadd.
  set (s1 := on_tg (add_trace_frame f) s).
  assert (Hs1 : trimmed_consistent graph s1 ∧ grows s s1).
  { apply (ts_frame _ _ (ps_trace _ _ _ (consistent_grows_stable h graph Hwf s)) s k f Hf).
    split; [done | apply grows_refl]. }
  pose proof (consistent_grows_stable h graph Hwf s1) as Hst.
  assert (Hs' : trimmed_consistent graph s' ∧ grows s1 s').
  { refine (_add_trace_frame_with_keeps_after graph _ _ s s' f (ps_trace _ _ _ Hst) _ _ Hadd).
    - intros sa ids sb Ha Hp.
      exact (_populate_trace_keeps graph fuel _ sa ids sb (ps_trace _ _ _ Hst) Ha Hp).
    - split; [apply Hs1 | apply grows_refl]. }
  split; [split; [apply Hs' | exact (grows_trans h graph Hwf _ _ _ (proj2 Hs1) (proj2 Hs'))]|].
  destruct Hs' as [_ (_ & Hframes & _)]. apply Hframes. simpl.
  rewrite (registered_frame h graph Hwf k f Hf). by rewrite lookup_insert_eq.
Qed.

(** The last loop of [_populate_issues_from_affected_conditions]. *)
Lemma add_visited_frames_loop (fuel : nat) (l : list Z) :
  ∀ s s', trimmed_consistent graph s →
          foldM (λ self frame_id,
                   let* frame := getitem (_trace_frames graph) frame_id in
                   _add_trace_frame graph fuel self frame) s l = Ok s' →
          (trimmed_consistent graph s' ∧ grows s s') ∧
          ∀ k, k ∈ l → ∃ f, _trace_frames graph !! k = Some f ∧
                            _trace_frames (tg s') !! k = Some f.
Proof using Hwf.
  induction l as [|a l IH]; intros s s' Hc Hfold; simpl in Hfold.
  - injection Hfold as <-. split; [split; [done | apply grows_refl]|].
    by intros k ?%elem_of_nil.
  - apply bind_Ok in Hfold as (s1 & Hs1 & Hfold).
    apply bind_Ok in Hs1 as (f & Hf%getitem_Ok & Hs1).
    destruct (_add_trace_frame_adds fuel s s1 a f Hc Hf Hs1) as [[Hc1 Hg1] Hadded].
    destruct (IH s1 s' Hc1 Hfold) as [[Hc' Hg'] Hrest].
    split; [split; [done | exact (grows_trans h graph Hwf _ _ _ Hg1 Hg')]|].
    intros k [->|Hk]%elem_of_cons; [|by apply Hrest].
    exists f. split; [done|]. destruct Hg' as (_ & Hframes & _). by apply Hframes.
Qed.

(** What [_populate_issues_from_affected_conditions] leaves in the trimmed
    graph. *)
Lemma conditions_copied (fuel : nat) (s s' : TrimmedTraceGraph) (initial : list TraceFrame) :
  trimmed_consistent graph s →
  _populate_issues_from_affected_conditions h graph fuel s initial = Ok s' →
  (trimmed_consistent graph s' ∧ grows s s') ∧
  ∃ st, backward_search h graph fuel s initial = Ok st ∧
        (∀ k, k ∈ dom (s_visited st) →
              ∃ f, _trace_frames graph !! k = Some f ∧ _trace_frames (tg s') !! k = Some f) ∧
        (∀ f, f ∈ initial →
              tf_id f ∈ _visited_trace_frame_ids s' ∧
              is_Some (_trace_frames (tg s') !! tf_id f)).
Proof using Hwf.
  intros Hc Hp. unfold _populate_issues_from_affected_conditions in Hp.
  apply bind_Ok in Hp as (st & Hst & Hp). apply bind_Ok in Hp as (s1 & Hs1 & Hp).
  pose proof (consistent_grows_stable h graph Hwf s) as Hstable.
  assert (Hsearch : trimmed_consistent graph (s_self st) ∧ grows s (s_self st)).
  { unfold backward_search in Hst.
    refine (_search_loop_keeps h graph _ fuel _ st Hstable _ Hst).
    simpl. split; [done | apply grows_refl]. }
  destruct (_populate_trace_grows h graph Hwf fuel _ s1 _ (proj1 Hsearch) Hs1) as [Hc1 Hg1].
  destruct (add_visited_frames_loop fuel _ s1 s' Hc1 Hp) as [[Hc' Hg'] Hkeys].
  split.
  { split; [done|].
    exact (grows_trans h graph Hwf _ _ _ (proj2 Hsearch) (grows_trans h graph Hwf _ _ _ Hg1 Hg')). }
  exists st. split; [done|]. split.
  - intros k Hk. apply Hkeys. by apply elem_of_visited_keys.
  - intros f Hf.
    assert (Hv1 : tf_id f ∈ _visited_trace_frame_ids s1).
    { apply (_populate_trace_marks graph fuel _ s1 _ (tf_id f) Hs1).
      apply list_elem_of_In, in_rev. rewrite rev_involutive.
      apply list_elem_of_In, list_elem_of_fmap. eauto. }
    destruct Hg' as (_ & _ & Hvis). destruct Hc' as (_ & _ & Hcv).
    split; [by apply Hvis | by apply Hcv, Hvis].
Qed.

(** X12: when [_populate_issues_from_affected_conditions] returns, on a
    trimmed graph that is a subgraph of the source graph, every frame the
    backward search recorded in [visited] is in the trimmed graph, as the
    source graph has it, and every initial condition is marked visited and
    is a frame of the trimmed graph. *)
Theorem searched_frames_are_copied (fuel : nat) (s s' : TrimmedTraceGraph)
    (initial : list TraceFrame) :
  trimmed_consistent graph s →
  _populate_issues_from_affected_conditions h graph fuel s initial = Ok s' →
  ∃ st, backward_search h graph fuel s initial = Ok st ∧
        (∀ k, k ∈ dom (s_visited st) →
              ∃ f, _trace_frames graph !! k = Some f ∧ _trace_frames (tg s') !! k = Some f) ∧
        (∀ f, f ∈ initial →
              tf_id f ∈ _visited_trace_frame_ids s' ∧
              is_Some (_trace_frames (tg s') !! tf_id f)).
Proof using Hwf. intros Hc Hp. exact (proj2 (conditions_copied fuel s s' initial Hc Hp)). Qed.

(** The phases of [populate_graph] after [_populate_affected_issues], with
    [affected_issues_only] false. *)
Lemma later_phases_grow (fuel : nat) (s out : TrimmedTraceGraph) :
  trimmed_consistent graph s →
  (let* self := _populate_issues_from_affected_trace_frames h graph fuel s in
   foldM (repair_instance h graph fuel) self (instance_keys (tg self))) = Ok out →
  ∃ s1 initial,
    initial_trace_frames graph (_affected_files s) = Ok initial ∧
    _populate_issues_from_affected_conditions h graph fuel s initial = Ok s1 ∧
    (trimmed_consistent graph s1 ∧ grows s s1) ∧
    (trimmed_consistent graph out ∧ grows s1 out) ∧
    _issue_instances (tg out) = _issue_instances (tg s1).
Proof using Hwf.
  intros Hc Hp. apply bind_Ok in Hp as (s1 & Hs1 & Hp).
  unfold _populate_issues_from_affected_trace_frames in Hs1.
  apply bind_Ok in Hs1 as (initial & Hinitial & Hs1).
  exists s1, initial. split; [done|]. split; [done|].
  destruct (conditions_copied fuel s s1 initial Hc Hs1) as [Hg1 _].
  split; [done|]. split.
  - exact (proj1 (repair_loop_completes h graph Hwf fuel _ s1 out (proj1 Hg1) Hp)).
  - exact (repair_loop_instances h graph fuel _ s1 out Hp).
Qed.

(** X13: on a source graph whose instances and frames are registered under
    their own ids, with [affected_issues_only] false, every trace frame of
    the source graph whose filename has one of the affected prefixes is a
    frame of the output, under its id, and is marked visited. *)
Theorem affected_trace_frames_are_copied (fuel : nat) (files : list string)
    (h' : gmap nat IssueInstance) (out : TrimmedTraceGraph) (k : Z) (f : TraceFrame)
    (filename : string) :
  populate_from_trace_graph h graph fuel (TrimmedTraceGraph__init__ files false)
    = Ok (h', out) →
  _trace_frames graph !! k = Some f →
  get_text graph (tf_filename_id f) = Ok filename →
  _is_filename_prefixed_with filename files = true →
  _trace_frames (tg out) !! k = Some f ∧ k ∈ _visited_trace_frame_ids out.
Proof using Hwf.
  intros [Hgraph _]%populate_from_trace_graph_inv Hf Hname Hprefix.
  unfold populate_graph in Hgraph. apply bind_Ok in Hgraph as (s & Hs & Hgraph).
  set (s0 := set_visited ∅ (TrimmedTraceGraph__init__ files false)) in *.
  assert (Hcs : trimmed_consistent graph s).
  { refine (proj1 (_populate_affected_issues_keeps h graph _ fuel s0 s
                     (consistent_grows_stable h graph Hwf s0) _ Hs)).
    split; [apply consistent_init | apply grows_refl]. }
  assert (Haio : _affected_issues_only s = false).
  { exact (_populate_affected_issues_keeps h graph _ fuel s0 s
             (affected_issues_only_stable h graph false) eq_refl Hs). }
  assert (Hfiles : _affected_files s = files).
  { exact (_populate_affected_issues_keeps h graph _ fuel s0 s
             (affected_files_stable files) eq_refl Hs). }
  rewrite Haio in Hgraph.
  destruct (later_phases_grow fuel s out Hcs Hgraph)
    as (s1 & initial & Hinitial & Hs1 & _ & [Hcout Hgout] & _).
  rewrite Hfiles in Hinitial.
  assert (Hin : f ∈ initial).
  { unfold initial_trace_frames in Hinitial.
    apply (filterR_Ok_elem_of _ _ _ f Hinitial). split.
    - apply list_elem_of_fmap. exists (k, f). split; [done | by apply elem_of_map_to_list].
    - rewrite Hname. simpl. by rewrite Hprefix. }
  destruct (conditions_copied fuel s s1 initial Hcs Hs1) as (_ & st & _ & _ & Hinit).
  destruct (Hinit f Hin) as [Hv _].
  rewrite (registered_frame h graph Hwf k f Hf) in Hv.
  destruct Hgout as (_ & _ & Hvis). apply Hvis in Hv.
  split; [|done]. destruct Hcout as (_ & Hcf & Hcv).
  destruct (Hcv k Hv) as [f' Hf']. rewrite Hf'. f_equal.
  apply Hcf in Hf'. rewrite Hf in Hf'. by injection Hf'.
Qed.

(** [_populate_issue] adds the instance, under its id, and no other. *)
Lemma _populate_issue_adds (s s' : TrimmedTraceGraph) (k : Z) :
  _populate_issue h graph s k = Ok s' →
  ∃ r, _issue_instances graph !! k = Some r ∧
       _issue_instances (tg s') = <[k := r]> (_issue_instances (tg s)).
Proof using Hwf.
  intros Hp. unfold _populate_issue in Hp.
  apply bind_Ok in Hp as (r & Hr%getitem_Ok & Hp).
  apply bind_Ok in Hp as (issue & _ & Hp).
  apply bind_Ok in Hp as (s1 & Hs1 & Hp).
  apply bind_Ok in Hp as (s2 & Hs2 & Hp).
  apply bind_Ok in Hp as (s3 & Hs3 & Hp).
  exists r. split; [done|].
  pose proof (λ m, ts_shared_text _ _ (same_instances_stable graph m)) as Htext.
  assert (Hsame : _issue_instances (tg s3) = _issue_instances (tg s)).
  { set (Q := λ s0 : TrimmedTraceGraph, _issue_instances (tg s0) = _issue_instances (tg s)).
    refine (_populate_shared_text_keeps graph Q _ _ _ (Htext _) _ Hs3).
    refine (_populate_shared_text_keeps graph Q _ _ _ (Htext _) _ Hs2).
    exact (_populate_shared_text_keeps graph Q _ _ _ (Htext _) eq_refl Hs1). }
  refine (foldM_invariant
            (λ s0, _issue_instances (tg s0) = <[k := r]> (_issue_instances (tg s)))
            _ _ _ _ s' _ Hp).
  - intros sa id sb _ Ha Hrow. cbv beta in Hrow.
    apply bind_Ok in Hrow as (t & _ & Hrow). injection Hrow as <-. simpl.
    destruct (mem id (_shared_texts (tg sa))); [exact Ha|]. exact (Htext _ sa t Ha).
  - destruct (_issue_instance_fix_info graph !! k); simpl;
      by rewrite Hsame, (registered_instance h graph Hwf k r Hr).
Qed.

Lemma _populate_issue_grows (s s' : TrimmedTraceGraph) (k : Z) :
  trimmed_consistent graph s → _populate_issue h graph s k = Ok s' →
  trimmed_consistent graph s' ∧ grows s s'.
Proof using Hwf.
  intros Hc Hp. pose proof (consistent_grows_stable h graph Hwf s) as Hst.
  refine (_populate_issue_keeps h graph _ s s' k (ps_issue _ _ _ Hst) _ _ Hp).
  - intros r s0 Hr. by apply (ps_instance _ _ _ Hst _ k).
  - split; [done | apply grows_refl].
Qed.

(** [_populate_issue_trace] copies every first hop of the kind asked for,
    and of both kinds when no kind is given. *)
Lemma _populate_issue_trace_copies_kinds (fuel : nat) (s s' : TrimmedTraceGraph) (i : Z)
    (kind : option TraceKind) (knd : TraceKind) :
  trimmed_consistent graph s →
  _populate_issue_trace h graph fuel s i kind = Ok s' →
  kind = None ∨ kind = Some knd →
  first_hops_copied graph s' i knd.
Proof using Hwf.
  intros Hcons Hp Hkind.
  destruct (_populate_issue_trace_grows h graph Hwf _ _ _ _ _ Hcons Hp)
    as [(_ & Hcf' & Hcv') _].
  unfold _populate_issue_trace in Hp.
  apply bind_Ok in Hp as (r & Hr%getitem_Ok & Hp). apply bind_Ok in Hp as (acc & Hacc & Hp).
  destruct (first_hops_fold h graph Hwf _ _ _ _ _ Hacc) as (_ & _ & Hall).
  rewrite (registered_instance h graph Hwf i r Hr) in Hall.
  assert (Hacc' : trimmed_consistent graph acc.1 ∧ grows s acc.1).
  { pose proof (consistent_grows_stable h graph Hwf s) as Hst.
    refine (foldM_invariant
              (λ acc : TrimmedTraceGraph * list Z,
                 trimmed_consistent graph acc.1 ∧ grows s acc.1)
              _ _ _ (s, []) acc (conj Hcons (grows_refl s)) Hacc).
    intros a id a' _ HQ Hrow. cbv beta in Hrow.
    apply bind_Ok in Hrow as (f & _ & Hrow).
    destruct (bool_decide _); injection Hrow as <-; simpl; [|done].
    by apply (ps_frame_assoc _ _ _ Hst _ i). }
  destruct (_populate_trace_grows h graph Hwf _ _ _ _ (proj1 Hacc') Hp) as [_ (Hga & _ & _)].
  intros tf f Hin Hf Hk.
  destruct (Hall tf f) as [Hassoc Hlist];
    [by apply elem_of_elements | done | destruct Hkind as [->| ->]; [by left | right; by rewrite Hk]|].
  split; [by apply Hga|].
  pose proof (_populate_trace_marks graph _ _ _ _ _ Hp Hlist) as Hvisited.
  destruct (Hcv' tf Hvisited) as [f' Hf']. rewrite Hf'.
  specialize (Hcf' _ _ Hf'). congruence.
Qed.

(** [_populate_issue_and_traces] on an instance of the source graph. *)
Lemma _populate_issue_and_traces_copies (fuel : nat) (s s' : TrimmedTraceGraph) (k : Z) :
  trimmed_consistent graph s → fully_copied graph s →
  _populate_issue_and_traces h graph fuel s k = Ok s' →
  (trimmed_consistent graph s' ∧ grows s s') ∧
  fully_copied graph s' ∧ keeps_instances s s' ∧
  is_Some (_issue_instances (tg s') !! k) ∧
  ∀ i, is_Some (_issue_instances (tg s') !! i) →
       i = k ∨ is_Some (_issue_instances (tg s) !! i).
Proof using Hwf.
  intros Hc Hfull Hp. unfold _populate_issue_and_traces in Hp.
  apply bind_Ok in Hp as (s1 & Hs1 & Hp).
  destruct (_populate_issue_grows s s1 k Hc Hs1) as [Hc1 Hg1].
  destruct (_populate_issue_adds s s1 k Hs1) as (r & Hr & Hinst1).
  destruct (_populate_issue_trace_grows h graph Hwf _ _ _ _ _ Hc1 Hp) as [Hc' Hg'].
  assert (Hinst' : _issue_instances (tg s') = <[k := r]> (_issue_instances (tg s))).
  { rewrite <- Hinst1.
    refine (_populate_issue_trace_keeps h graph (λ s0, _issue_instances (tg s0) = _)
              fuel s1 s' k None (same_instances_stable graph _) _ eq_refl Hp).
    intros r0 f s0 _ Hs0. exact Hs0. }
  pose proof (grows_trans h graph Hwf _ _ _ Hg1 Hg') as Hgrows.
  split; [by split|]. split; [|split; [|split]].
  - intros i Hi kind. rewrite Hinst' in Hi.
    apply lookup_insert_is_Some in Hi as [<-|[_ Hi]].
    + by apply (_populate_issue_trace_copies_kinds fuel s1 s' k None kind Hc1 Hp); left.
    + apply (first_hops_copied_grows graph s s' i kind Hgrows). by apply Hfull.
  - intros i r0 Hi. rewrite Hinst'. destruct (decide (k = i)) as [->|Hne].
    + rewrite lookup_insert_eq. destruct Hc as (Hci & _ & _). apply Hci in Hi. congruence.
    + by rewrite lookup_insert_ne.
  - rewrite Hinst', lookup_insert_eq. eauto.
  - intros i Hi. rewrite Hinst' in Hi.
    apply lookup_insert_is_Some in Hi as [<-|[_ Hi]]; [by left | by right].
Qed.

(** The loop of [_populate_affected_issues]. *)
Lemma affected_issues_loop (fuel : nat) (l : list Z) :
  ∀ s s', trimmed_consistent graph s → fully_copied graph s →
          foldM (λ self instance_id,
                   if mem instance_id (_issue_instances (tg self)) then Ok self
                   else _populate_issue_and_traces h graph fuel self instance_id)
                s l = Ok s' →
          (trimmed_consistent graph s' ∧ grows s s') ∧
          fully_copied graph s' ∧ keeps_instances s s' ∧
          (∀ i, i ∈ l → is_Some (_issue_instances (tg s') !! i)) ∧
          ∀ i, is_Some (_issue_instances (tg s') !! i) →
               i ∈ l ∨ is_Some (_issue_instances (tg s) !! i).
Proof using Hwf.
  induction l as [|a l IH]; intros s s' Hc Hfull Hfold; simpl in Hfold.
  - injection Hfold as <-. split; [split; [done | apply grows_refl]|].
    split; [done|]. split; [by intros i r Hi|]. split; [by intros i ?%elem_of_nil|].
    intros i Hi. by right.
  - apply bind_Ok in Hfold as (s1 & Hs1 & Hfold).
    assert (H1 : (trimmed_consistent graph s1 ∧ grows s s1) ∧
                 fully_copied graph s1 ∧ keeps_instances s s1 ∧
                 is_Some (_issue_instances (tg s1) !! a) ∧
                 ∀ i, is_Some (_issue_instances (tg s1) !! i) →
                      i = a ∨ is_Some (_issue_instances (tg s) !! i)).
    { destruct (mem a (_issue_instances (tg s))) eqn:Hmem.
      - injection Hs1 as <-. apply mem_true in Hmem.
        split; [split; [done | apply grows_refl]|].
        split; [done|]. split; [by intros i r Hi|]. split; [done|]. intros i Hi. by right.
      - by apply (_populate_issue_and_traces_copies fuel s s1 a). }
    destruct H1 as ([Hc1 Hg1] & Hfull1 & Hkeep1 & Ha & Honly1).
    destruct (IH s1 s' Hc1 Hfull1 Hfold) as ([Hc' Hg'] & Hfull' & Hkeep' & Hall & Honly').
    split; [split; [done | exact (grows_trans h graph Hwf _ _ _ Hg1 Hg')]|].
    split; [done|]. split; [|split].
    + intros i r Hi. by apply Hkeep', Hkeep1.
    + intros i [->|Hi]%elem_of_cons; [|by apply Hall].
      destruct Ha as [r Ha]. exists r. by apply Hkeep'.
    + intros i Hi. destruct (Honly' i Hi) as [Hl|H1].
      * left. by apply list_elem_of_further.
      * destruct (Honly1 i H1) as [->|Hs]; [left; apply list_elem_of_here | by right].
Qed.

Lemma instance_present_stable (k : Z) :
  populate_stable h graph (λ s, is_Some (_issue_instances (tg s) !! k)).
Proof.
  split; [split|split| |]; simpl; intros; try done.
  - unfold add_shared_text. by destruct (existsb _ _).
  - unfold add_shared_text. by destruct (existsb _ _).
  - apply lookup_insert_is_Some'. by right.
Qed.

(** The ids that [_populate_affected_issues] iterates over. *)
Lemma elem_of_affected_instance_ids (files : list string) (ids : list Z) (k : Z) :
  affected_instance_ids h graph files = Ok ids →
  k ∈ ids ↔ ∃ r filename, _issue_instances graph !! k = Some r ∧
                          get_text graph (inst_filename_id (deref h r)) = Ok filename ∧
                          _is_filename_prefixed_with filename files = true.
Proof using Hwf.
  intros Hids. unfold affected_instance_ids in Hids.
  apply bind_Ok in Hids as (rs & Hrs & Hids). injection Hids as <-.
  rewrite list_elem_of_fmap. split.
  - intros (r & -> & Hr). apply (filterR_Ok_elem_of _ _ _ r Hrs) in Hr as [Hin Hp].
    apply elem_of_instance_values in Hin as [i Hi].
    rewrite (registered_instance h graph Hwf i r Hi).
    apply bind_Ok in Hp as (filename & Hname & Hp). injection Hp as Hp. eauto.
  - intros (r & filename & Hr & Hname & Hp). exists r.
    split; [by rewrite (registered_instance h graph Hwf k r Hr)|].
    apply (filterR_Ok_elem_of _ _ _ r Hrs). split.
    + apply elem_of_instance_values. eauto.
    + rewrite Hname. simpl. by rewrite Hp.
Qed.

Lemma fully_copied_init (files : list string) (aio : bool) :
  fully_copied graph (set_visited ∅ (TrimmedTraceGraph__init__ files aio)).
Proof. intros i [r Hi]. simpl in Hi. by rewrite lookup_empty in Hi. Qed.

(** [_populate_affected_issues] on a new trimmed graph. *)
Lemma _populate_affected_issues_spec (fuel : nat) (files : list string) (aio : bool)
    (s : TrimmedTraceGraph) :
  _populate_affected_issues h graph fuel (set_visited ∅ (TrimmedTraceGraph__init__ files aio))
    = Ok s →
  ∃ ids, affected_instance_ids h graph files = Ok ids ∧
         trimmed_consistent graph s ∧ fully_copied graph s ∧
         ∀ i, is_Some (_issue_instances (tg s) !! i) ↔ i ∈ ids.
Proof using Hwf.
  intros Hs. unfold _populate_affected_issues in Hs.
  apply bind_Ok in Hs as (ids & Hids & Hs). exists ids. split; [exact Hids|].
  destruct (affected_issues_loop fuel ids _ s (consistent_init graph files aio)
              (fully_copied_init files aio) Hs) as ([Hc _] & Hfull & _ & Hall & Honly).
  split; [done|]. split; [done|]. intros i. split; [|apply Hall].
  intros Hi. destruct (Honly i Hi) as [Hl|[r Hr]]; [done|].
  simpl in Hr. by rewrite lookup_empty in Hr.
Qed.

(** X14: on a source graph whose instances and frames are registered under
    their own ids, every issue instance of the source graph whose filename
    has one of the affected prefixes is an instance of the output, and the
    output has every first hop that the source graph has for it, of both
    kinds, with its frame. *)
Theorem affected_instances_are_copied_with_their_traces (fuel : nat) (files : list string)
    (aio : bool) (h' : gmap nat IssueInstance) (out : TrimmedTraceGraph) (k : Z) (r : nat)
    (filename : string) :
  populate_from_trace_graph h graph fuel (TrimmedTraceGraph__init__ files aio) = Ok (h', out) →
  _issue_instances graph !! k = Some r →
  get_text graph (inst_filename_id (deref h r)) = Ok filename →
  _is_filename_prefixed_with filename files = true →
  _issue_instances (tg out) !! k = Some r ∧
  ∀ kind, first_hops_copied graph out k kind.
Proof using Hwf.
  intros [Hgraph _]%populate_from_trace_graph_inv Hr Hname Hprefix.
  unfold populate_graph in Hgraph. apply bind_Ok in Hgraph as (s & Hs & Hgraph).
  destruct (_populate_affected_issues_spec fuel files aio s Hs)
    as (ids & Hids & Hcs & Hfull & Hiff).
  assert (Hk : is_Some (_issue_instances (tg s) !! k)).
  { apply Hiff, (elem_of_affected_instance_ids files ids k Hids). eauto. }
  assert (Hout : (trimmed_consistent graph out ∧ grows s out) ∧
                 is_Some (_issue_instances (tg out) !! k)).
  { destruct (_affected_issues_only s).
    - injection Hgraph as <-. split; [split; [done | apply grows_refl] | done].
    - destruct (later_phases_grow fuel s out Hcs Hgraph)
        as (s1 & initial & _ & Hs1 & [Hc1 Hg1] & [Hcout Hgout] & Hinst).
      split; [split; [done | exact (grows_trans h graph Hwf _ _ _ Hg1 Hgout)]|].
      rewrite Hinst.
      exact (_populate_issues_from_affected_conditions_keeps h graph _ fuel s s1 initial
               (instance_present_stable k) Hk Hs1). }
  destruct Hout as [[Hcout Hgout] [r' Hr']]. split.
  - rewrite Hr'. f_equal. destruct Hcout as (Hci & _ & _). apply Hci in Hr'. congruence.
  - intros kind. apply (first_hops_copied_grows graph s out k kind Hgout). by apply Hfull.
Qed.

(** X15: on a source graph whose instances and frames are registered under
    their own ids, with [affected_issues_only] true, the issue instances of
    the output are exactly those of the source graph whose filename has one
    of the affected prefixes. *)
Theorem affected_issues_only_copies_the_affected_instances (fuel : nat)
    (files : list string) (h' : gmap nat IssueInstance) (out : TrimmedTraceGraph) :
  populate_from_trace_graph h graph fuel (TrimmedTraceGraph__init__ files true) = Ok (h', out) →
  ∀ i, is_Some (_issue_instances (tg out) !! i) ↔
       ∃ r filename, _issue_instances graph !! i = Some r ∧
                     get_text graph (inst_filename_id (deref h r)) = Ok filename ∧
                     _is_filename_prefixed_with filename files = true.
Proof using Hwf.
  intros [Hgraph _]%populate_from_trace_graph_inv i.
  unfold populate_graph in Hgraph. apply bind_Ok in Hgraph as (s & Hs & Hgraph).
  assert (Haio : _affected_issues_only s = true).
  { exact (_populate_affected_issues_keeps h graph _ fuel
             (set_visited ∅ (TrimmedTraceGraph__init__ files true)) s
             (affected_issues_only_stable h graph true) eq_refl Hs). }
  rewrite Haio in Hgraph. injection Hgraph as <-.
  destruct (_populate_affected_issues_spec fuel files true s Hs) as (ids & Hids & _ & _ & Hiff).
  rewrite Hiff. exact (elem_of_affected_instance_ids files ids i Hids).
Qed.

End CopyProperties.

Lemma ex_repair_registered : ids_registered ex_heap ex_repair = true.
Proof. vm_compute. reflexivity. Qed.

Lemma ex_graph_registered : ids_registered ex_heap ex_graph = true.
Proof. vm_compute. reflexivity. Qed.

Lemma ex_cycle_registered : ids_registered ex_heap ex_cycle = true.
Proof. vm_compute. reflexivity. Qed.

Lemma ex_cycle_step3_result :
  _populate_issues_from_affected_conditions ex_heap ex_cycle 20 ex_cycle_self [ex_cycle_f1]
  = Ok ex_cycle_step3.
Proof. vm_compute. reflexivity. Qed.

Lemma trimmed_graph_is_a_subgraph_witness :
  (∀ i r, _issue_instances (tg ex_repair_out) !! i = Some r →
          _issue_instances ex_repair !! i = Some r) ∧
  (∀ k f, _trace_frames (tg ex_repair_out) !! k = Some f →
          _trace_frames ex_repair !! k = Some f) ∧
  (∀ k, k ∈ _visited_trace_frame_ids ex_repair_out →
        is_Some (_trace_frames (tg ex_repair_out) !! k)).
Proof.
  exact (trimmed_graph_is_a_subgraph ex_heap ex_repair ex_repair_registered 20
           ["/a/"%string] false ex_repair_heap_after ex_repair_out ex_repair_run_result).
Defined.

Lemma searched_frames_are_copied_witness :
  ∃ st, backward_search ex_heap ex_cycle 20 ex_cycle_self [ex_cycle_f1] = Ok st ∧
        (∀ k, k ∈ dom (s_visited st) →
              ∃ f, _trace_frames ex_cycle !! k = Some f ∧
                   _trace_frames (tg ex_cycle_step3) !! k = Some f) ∧
        (∀ f, f ∈ [ex_cycle_f1] →
              tf_id f ∈ _visited_trace_frame_ids ex_cycle_step3 ∧
              is_Some (_trace_frames (tg ex_cycle_step3) !! tf_id f)).
Proof.
  exact (searched_frames_are_copied ex_heap ex_cycle ex_cycle_registered 20 ex_cycle_self
           ex_cycle_step3 [ex_cycle_f1] (consistent_init ex_cycle ["/a/"%string] false)
           ex_cycle_step3_result).
Defined.

Lemma affected_trace_frames_are_copied_witness :
  _trace_frames (tg ex_repair_out) !! 41 = Some ex_repair_pre ∧
  41 ∈ _visited_trace_frame_ids ex_repair_out.
Proof.
  apply (affected_trace_frames_are_copied ex_heap ex_repair ex_repair_registered 20
           ["/a/"%string] ex_repair_heap_after ex_repair_out 41 ex_repair_pre "/a/b.py"
           ex_repair_run_result).
  - vm_compute. reflexivity.
  - vm_compute. reflexivity.
  - vm_compute. reflexivity.
Defined.

Lemma affected_instances_are_copied_with_their_traces_witness :
  _issue_instances (tg ex_out) !! 1 = Some 0%nat ∧
  ∀ kind, first_hops_copied ex_graph ex_out 1 kind.
Proof.
  apply (affected_instances_are_copied_with_their_traces ex_heap ex_graph ex_graph_registered
           10 ["/a/"%string] false ex_heap_after ex_out 1 0%nat "/a/b.py" ex_run_result).
  - vm_compute. reflexivity.
  - vm_compute. reflexivity.
  - vm_compute. reflexivity.
Defined.

Lemma affected_issues_only_copies_the_affected_instances_witness :
  ∃ h' out,
    populate_from_trace_graph ex_heap ex_graph 10 (TrimmedTraceGraph__init__ ["/a/"%string] true)
    = Ok (h', out) ∧
    ∀ i, is_Some (_issue_instances (tg out) !! i) ↔
         ∃ r filename, _issue_instances ex_graph !! i = Some r ∧
                       get_text ex_graph (inst_filename_id (deref ex_heap r)) = Ok filename ∧
                       _is_filename_prefixed_with filename ["/a/"%string] = true.
Proof.
  destruct (populate_from_trace_graph ex_heap ex_graph 10
              (TrimmedTraceGraph__init__ ["/a/"%string] true)) as [[h' out]|e] eqn:Hrun;
    [|vm_compute in Hrun; discriminate Hrun].
  exists h', out. split; [reflexivity|].
  exact (affected_issues_only_copies_the_affected_instances ex_heap ex_graph
           ex_graph_registered 10 ["/a/"%string] h' out Hrun).
Defined.

(** ** The flood fill reaches every successor *)

Section FloodFill.

Context (graph : TraceGraph).

Lemma closed_upto_weaken (V : gset Z) (P P' : Z → Prop) :
  (∀ n, P n → n ∈ V ∨ P' n) → closed_upto graph V P → closed_upto graph V P'.
Proof.
  intros HP Hc k n Hk Hn. destruct (Hc k n Hk Hn) as [Hv|Hp]; [by left | by apply HP].
Qed.

Lemma _populate_shared_text_visited (s s' : TrimmedTraceGraph) (id : Z) :
  _populate_shared_text graph s id = Ok s' →
  _visited_trace_frame_ids s' = _visited_trace_frame_ids s.
Proof.
  intros Hp.
  by refine (_populate_shared_text_keeps graph
               (λ s0, _visited_trace_frame_ids s0 = _visited_trace_frame_ids s)
               s s' id _ eq_refl Hp).
Qed.

Lemma _add_trace_annotation_with_closes
    (pt : TrimmedTraceGraph → list Z → result TrimmedTraceGraph)
    (s s' : TrimmedTraceGraph) (a : TraceFrameAnnotation) (pending : Z → Prop) :
  closes_work_list graph pt →
  closed_upto graph (_visited_trace_frame_ids s) pending →
  _add_trace_annotation_with graph pt s a = Ok s' →
  closed_upto graph (_visited_trace_frame_ids s') pending ∧
  _visited_trace_frame_ids s ⊆ _visited_trace_frame_ids s' ∧
  ∀ children child, get_annotation_trace_frames graph (ann_id a) = Ok children →
                    child ∈ children → tf_id child ∈ _visited_trace_frame_ids s'.
Proof.
  intros Hpt Hc Hadd. unfold _add_trace_annotation_with in Hadd.
  apply bind_Ok in Hadd as (children & Hchildren & Hadd).
  set (s1 := foldl _ _ children) in Hadd.
  assert (Hs1 : _visited_trace_frame_ids s1 = _visited_trace_frame_ids s).
  { unfold s1. by apply (foldl_invariant
      (λ s0, _visited_trace_frame_ids s0 = _visited_trace_frame_ids s)). }
  destruct (Hpt s1 (rev (map tf_id children)) s' pending) as (Hc' & Hsub & Hmarks);
    [|exact Hadd|].
  { rewrite Hs1. eapply closed_upto_weaken; [|exact Hc]. intros n Hn. right. by left. }
  rewrite Hs1 in Hsub. split; [done|]. split; [done|].
  intros children' child Hch Hin. rewrite Hchildren in Hch. injection Hch as <-.
  apply Hmarks. apply list_elem_of_In, in_rev. rewrite rev_involutive.
  apply list_elem_of_In, list_elem_of_fmap. eauto.
Qed.

Lemma add_annotations_closes
    (pt : TrimmedTraceGraph → list Z → result TrimmedTraceGraph)
    (pending : Z → Prop) (annotations : list TraceFrameAnnotation) :
  closes_work_list graph pt →
  ∀ s s', closed_upto graph (_visited_trace_frame_ids s) pending →
          foldM (_add_trace_annotation_with graph pt) s annotations = Ok s' →
          closed_upto graph (_visited_trace_frame_ids s') pending ∧
          _visited_trace_frame_ids s ⊆ _visited_trace_frame_ids s' ∧
          ∀ a children child,
            a ∈ annotations → get_annotation_trace_frames graph (ann_id a) = Ok children →
            child ∈ children → tf_id child ∈ _visited_trace_frame_ids s'.
Proof.
  intros Hpt. induction annotations as [|a annotations IH]; intros s s' Hc Hfold;
    simpl in Hfold.
  - injection Hfold as <-. split; [done|]. split; [done|]. by intros a ch c ?%elem_of_nil.
  - apply bind_Ok in Hfold as (s1 & Hs1 & Hfold).
    destruct (_add_trace_annotation_with_closes pt s s1 a pending Hpt Hc Hs1)
      as (Hc1 & Hsub1 & Hch1).
    destruct (IH s1 s' Hc1 Hfold) as (Hc' & Hsub' & Hch').
    split; [done|]. split; [by etrans|].
    intros a' children child [->|Ha']%elem_of_cons Hchildren Hchild.
    + by apply Hsub', (Hch1 children child).
    + by apply (Hch' a' children child).
Qed.

Lemma _add_trace_frame_with_closes
    (pt : TrimmedTraceGraph → list Z → result TrimmedTraceGraph)
    (s s' : TrimmedTraceGraph) (f : TraceFrame) (pending : Z → Prop) :
  closes_work_list graph pt →
  closed_upto graph (_visited_trace_frame_ids s) pending →
  _add_trace_frame_with graph pt s f = Ok s' →
  closed_upto graph (_visited_trace_frame_ids s') pending ∧
  _visited_trace_frame_ids s ⊆ _visited_trace_frame_ids s' ∧
  ∀ annotations a children child,
    get_condition_annotations graph (tf_id f) = Ok annotations → a ∈ annotations →
    get_annotation_trace_frames graph (ann_id a) = Ok children →
    child ∈ children → tf_id child ∈ _visited_trace_frame_ids s'.
Proof.
  intros Hpt Hc Hadd. unfold _add_trace_frame_with in Hadd. cbv zeta in Hadd.
  apply bind_Ok in Hadd as (annotations & Hann & Hadd).
  apply bind_Ok in Hadd as (s1 & Hs1 & Hadd).
  apply bind_Ok in Hadd as (s2 & Hs2 & Hadd). apply _populate_shared_text_visited in Hs2.
  apply bind_Ok in Hadd as (s3 & Hs3 & Hadd). apply _populate_shared_text_visited in Hs3.
  apply bind_Ok in Hadd as (s4 & Hs4 & Hadd). apply _populate_shared_text_visited in Hs4.
  assert (Hs' : _visited_trace_frame_ids s' = _visited_trace_frame_ids s1).
  { rewrite <- Hs2, <- Hs3, <- Hs4.
    refine (foldM_invariant
              (λ s0, _visited_trace_frame_ids s0 = _visited_trace_frame_ids s4)
              _ _ _ s4 s' eq_refl Hadd).
    intros sa row sb _ Ha Hrow. cbv beta in Hrow.
    apply bind_Ok in Hrow as (leaf & _ & Hrow). injection Hrow as <-. simpl.
    by destruct (mem _ _). }
  destruct (add_annotations_closes pt pending annotations Hpt
              (on_tg (add_trace_frame f) s) s1 Hc Hs1) as (Hc1 & Hsub1 & Hch1).
  rewrite Hs'. split; [done|]. split; [done|].
  intros annotations' a children child Hann' Ha Hchildren Hchild.
  rewrite Hann in Hann'. injection Hann' as <-. by apply (Hch1 a children child).
Qed.

(** The induction on the fuel. *)
Lemma _populate_trace_closes (fuel : nat) : closes_work_list graph (_populate_trace graph fuel).
Proof.
  induction fuel as [|fuel IH]; intros s ids s' pending Hc Hp.
  - destruct ids as [|id ids]; simpl in Hp; [|done]. injection Hp as <-.
    split; [|split; [done | by intros id ?%elem_of_nil]].
    eapply closed_upto_weaken; [|exact Hc].
    intros n [Hn|Hn%elem_of_nil]; [by right | done].
  - destruct ids as [|id ids]; simpl in Hp.
    { injection Hp as <-. split; [|split; [done | by intros id ?%elem_of_nil]].
      eapply closed_upto_weaken; [|exact Hc].
      intros n [Hn|Hn%elem_of_nil]; [by right | done]. }
    destruct (bool_decide (id ∈ _visited_trace_frame_ids s)) eqn:Hvis.
    + apply bool_decide_eq_true in Hvis.
      destruct (IH s ids s' pending) as (Hc' & Hsub & Hmarks); [|exact Hp|].
      { eapply closed_upto_weaken; [|exact Hc].
        intros n [Hn|[->|Hn]%elem_of_cons]; [right; by left | by left | right; by right]. }
      split; [done|]. split; [done|].
      intros id' [->|Hid']%elem_of_cons; [by apply Hsub | by apply Hmarks].
    + apply bool_decide_eq_false in Hvis.
      apply bind_Ok in Hp as (f & Hf%getitem_Ok & Hp).
      apply bind_Ok in Hp as (s1 & Hs1 & Hp).
      apply bind_Ok in Hp as (nexts & Hnexts & Hp).
      destruct (_add_trace_frame_with_closes _ s s1 f _ IH Hc Hs1) as (Hc1 & Hsub1 & Hch1).
      set (s2 := set_visited (_visited_trace_frame_ids s1 ∪ {[id]}) s1) in *.
      destruct (IH s2 (rev (filter (λ id, id ∉ _visited_trace_frame_ids s2) (map tf_id nexts))
                        ++ ids) s' pending) as (Hc' & Hsub' & Hmarks); [|exact Hp|].
      { intros k n Hk Hn. simpl in Hk. apply elem_of_union in Hk as [Hk|Hk].
        - destruct (Hc1 k n Hk Hn) as [Hv|[Hpn|[->|Hrest]%elem_of_cons]].
          + left. simpl. apply elem_of_union. by left.
          + right. by left.
          + left. simpl. apply elem_of_union. right. by apply elem_of_singleton.
          + right. right. apply elem_of_app. by right.
        - apply elem_of_singleton in Hk as ->.
          destruct Hn as (f' & Hf' & Hn). rewrite Hf in Hf'. injection Hf' as <-.
          destruct Hn as [(nexts' & next & Hnexts' & Hnext & <-)
                         |(annotations & a & children & child & Hann & Ha & Hch & Hchild & <-)].
          + rewrite Hnexts in Hnexts'. injection Hnexts' as <-.
            destruct (decide (tf_id next ∈ _visited_trace_frame_ids s2)) as [Hin|Hnot];
              [by left|].
            right. right. apply elem_of_app. left.
            apply list_elem_of_In, in_rev. rewrite rev_involutive. apply list_elem_of_In.
            apply list_elem_of_filter. split; [done|]. apply list_elem_of_fmap. eauto.
          + left. simpl. apply elem_of_union. left.
            by apply (Hch1 annotations a children child). }
      simpl in Hsub'. split; [done|]. split.
      * etrans; [exact Hsub1|]. etrans; [|exact Hsub']. apply union_subseteq_l.
      * intros id' [->|Hid']%elem_of_cons.
        -- apply Hsub'. apply elem_of_union. right. by apply elem_of_singleton.
        -- apply Hmarks. apply elem_of_app. by right.
Qed.

(** X16: [_populate_trace], started on a visited set that has every frame
    reachable from one of its frames (through next frames and through the
    child frames of annotations), returns with such a visited set, one that
    has the frames of its work list. *)
Theorem _populate_trace_reaches_every_successor (fuel : nat) (s s' : TrimmedTraceGraph)
    (ids : list Z) :
  successors_closed graph (_visited_trace_frame_ids s) →
  _populate_trace graph fuel s ids = Ok s' →
  successors_closed graph (_visited_trace_frame_ids s') ∧
  ∀ id, id ∈ ids → id ∈ _visited_trace_frame_ids s'.
Proof.
  intros Hc Hp.
  destruct (_populate_trace_closes fuel s ids s' (λ _, False)) as (Hc' & _ & Hmarks);
    [|exact Hp|].
  - intros k n Hk Hn. left. by apply (Hc k n).
  - split; [|exact Hmarks]. intros k n Hk Hn. by destruct (Hc' k n Hk Hn).
Qed.

(** *** Only the flood fill marks frames

    A property of the visited set that [_populate_trace] keeps is kept by
    every step of the population: nothing else changes the visited set. *)

Section OnlyTheFloodFillMarks.

Context (h : gmap nat IssueInstance).
Variable Q : gset Z → Prop.
Hypothesis HQ : ∀ fuel s ids s',
  Q (_visited_trace_frame_ids s) → _populate_trace graph fuel s ids = Ok s' →
  Q (_visited_trace_frame_ids s').

Lemma _add_trace_frame_marks (fuel : nat) (s s' : TrimmedTraceGraph) (f : TraceFrame) :
  Q (_visited_trace_frame_ids s) → _add_trace_frame graph fuel s f = Ok s' →
  Q (_visited_trace_frame_ids s').
Proof using HQ.
  intros Hs Hadd. unfold _add_trace_frame, _add_trace_frame_with in Hadd. cbv zeta in Hadd.
  apply bind_Ok in Hadd as (annotations & _ & Hadd).
  apply bind_Ok in Hadd as (s1 & Hs1 & Hadd).
  apply bind_Ok in Hadd as (s2 & Hs2 & Hadd). apply _populate_shared_text_visited in Hs2.
  apply bind_Ok in Hadd as (s3 & Hs3 & Hadd). apply _populate_shared_text_visited in Hs3.
  apply bind_Ok in Hadd as (s4 & Hs4 & Hadd). apply _populate_shared_text_visited in Hs4.
  assert (Hs' : _visited_trace_frame_ids s' = _visited_trace_frame_ids s1).
  { rewrite <- Hs2, <- Hs3, <- Hs4.
    refine (foldM_invariant
              (λ s0, _visited_trace_frame_ids s0 = _visited_trace_frame_ids s4)
              _ _ _ s4 s' eq_refl Hadd).
    intros sa row sb _ Ha Hrow. cbv beta in Hrow.
    apply bind_Ok in Hrow as (leaf & _ & Hrow). injection Hrow as <-. simpl.
    by destruct (mem _ _). }
  rewrite Hs'.
  refine (foldM_invariant (λ s0, Q (_visited_trace_frame_ids s0)) _ _ _
            (on_tg (add_trace_frame f) s) s1 Hs Hs1).
  intros sa a sb _ Ha Hann. unfold _add_trace_annotation_with in Hann.
  apply bind_Ok in Hann as (children & _ & Hann).
  refine (HQ fuel _ _ sb _ Hann).
  by apply (foldl_invariant (λ s0, Q (_visited_trace_frame_ids s0))).
Qed.

Lemma _populate_issue_visited (s s' : TrimmedTraceGraph) (k : Z) :
  _populate_issue h graph s k = Ok s' →
  _visited_trace_frame_ids s' = _visited_trace_frame_ids s.
Proof.
  intros Hp.
  refine (_populate_issue_keeps h graph
            (λ s0, _visited_trace_frame_ids s0 = _visited_trace_frame_ids s)
            s s' k _ _ eq_refl Hp); [split|]; by intros.
Qed.

Lemma _populate_issue_trace_marks (fuel : nat) (s s' : TrimmedTraceGraph) (k : Z)
    (kind : option TraceKind) :
  Q (_visited_trace_frame_ids s) → _populate_issue_trace h graph fuel s k kind = Ok s' →
  Q (_visited_trace_frame_ids s').
Proof using HQ.
  intros Hs Hp. unfold _populate_issue_trace in Hp.
  apply bind_Ok in Hp as (r & _ & Hp). apply bind_Ok in Hp as (acc & Hacc & Hp).
  refine (HQ fuel _ _ s' _ Hp).
  refine (foldM_invariant (λ acc : TrimmedTraceGraph * list Z, Q (_visited_trace_frame_ids acc.1))
            _ _ _ (s, []) acc Hs Hacc).
  intros a id a' _ Ha Hrow. cbv beta in Hrow. apply bind_Ok in Hrow as (f & _ & Hrow).
  by destruct (bool_decide _); injection Hrow as <-.
Qed.

Lemma _populate_affected_issues_marks (fuel : nat) (s s' : TrimmedTraceGraph) :
  Q (_visited_trace_frame_ids s) → _populate_affected_issues h graph fuel s = Ok s' →
  Q (_visited_trace_frame_ids s').
Proof using HQ.
  intros Hs Hp. unfold _populate_affected_issues in Hp.
  apply bind_Ok in Hp as (ids & _ & Hp).
  refine (foldM_invariant (λ s0, Q (_visited_trace_frame_ids s0)) _ _ _ s s' Hs Hp).
  intros sa id sb _ Ha Hrow. cbv beta in Hrow.
  destruct (mem _ _); [by injection Hrow as <-|].
  unfold _populate_issue_and_traces in Hrow. apply bind_Ok in Hrow as (s1 & Hs1 & Hrow).
  apply (_populate_issue_trace_marks fuel s1 sb id None); [|exact Hrow].
  by rewrite (_populate_issue_visited sa s1 id Hs1).
Qed.

Lemma _search_step_visited_frames (st st' : search_state) :
  _search_step h graph st = Ok st' →
  _visited_trace_frame_ids (s_self st') = _visited_trace_frame_ids (s_self st).
Proof.
  assert (Hexpand : ∀ s visited que condition leaves st0,
            _expand h graph s visited que condition leaves = Ok st0 →
            _visited_trace_frame_ids (s_self st0) = _visited_trace_frame_ids s).
  { intros s visited que condition leaves st0 He. unfold _expand in He.
    apply bind_Ok in He as (s1 & Hs1 & He). apply bind_Ok in He as (preds & _ & He).
    injection He as <-. simpl.
    refine (foldM_invariant
              (λ s0, _visited_trace_frame_ids s0 = _visited_trace_frame_ids s)
              _ _ _ s s1 eq_refl Hs1).
    intros sa id sb _ Ha Hv. unfold _visit_instance in Hv.
    apply bind_Ok in Hv as (r & _ & Hv). apply bind_Ok in Hv as (leaves' & _ & Hv).
    destruct (bool_decide _); [|by injection Hv as <-].
    apply bind_Ok in Hv as (s2 & Hs2 & Hv). injection Hv as <-. simpl.
    destruct (mem _ _); [by injection Hs2 as <-|].
    by rewrite (_populate_issue_visited sa s2 id Hs2). }
  intros Hstep. unfold _search_step in Hstep.
  destruct (s_que st) as [|[condition leaves] que]; [by injection Hstep as <-|].
  destruct (s_visited st !! tf_id condition) as [seen|]; [|by apply Hexpand in Hstep].
  destruct (bool_decide _); [by injection Hstep as <- | by apply Hexpand in Hstep].
Qed.

Lemma _search_loop_visited_frames (fuel : nat) :
  ∀ st st', _search_loop h graph fuel st = Ok st' →
            _visited_trace_frame_ids (s_self st') = _visited_trace_frame_ids (s_self st).
Proof.
  induction fuel as [|fuel IH]; intros st st' Hl; simpl in Hl.
  - destruct (s_que st); [by injection Hl as <- | done].
  - destruct (s_que st) eqn:Hque; [by injection Hl as <-|].
    apply bind_Ok in Hl as (st1 & Hst1 & Hl).
    rewrite (IH st1 st' Hl). by apply _search_step_visited_frames.
Qed.

Lemma populate_graph_marks (fuel : nat) (s s' : TrimmedTraceGraph) :
  Q ∅ → populate_graph h graph fuel s = Ok s' → Q (_visited_trace_frame_ids s').
Proof using HQ.
  intros Hempty Hp. unfold populate_graph in Hp.
  apply bind_Ok in Hp as (s1 & Hs1 & Hp).
  apply (_populate_affected_issues_marks fuel _ s1) in Hs1; [|exact Hempty].
  destruct (_affected_issues_only s1); [by injection Hp as <-|].
  apply bind_Ok in Hp as (s2 & Hs2 & Hp).
  refine (foldM_invariant (λ s0, Q (_visited_trace_frame_ids s0)) _ _ _ s2 s' _ Hp).
  - intros sa i sb _ Ha Hrep. unfold repair_instance in Hrep.
    apply bind_Ok in Hrep as (fwd & _ & Hrep). apply bind_Ok in Hrep as (bwd & _ & Hrep).
    apply bind_Ok in Hrep as (s3 & Hs3 & Hrep).
    assert (H3 : Q (_visited_trace_frame_ids s3)).
    { destruct (bool_decide (size fwd = 0%nat)); [|by injection Hs3 as <-].
      by apply (_populate_issue_trace_marks fuel sa s3 i (Some POSTCONDITION)). }
    destruct (bool_decide (size bwd = 0%nat)); [|by injection Hrep as <-].
    by apply (_populate_issue_trace_marks fuel s3 sb i (Some PRECONDITION)).
  - unfold _populate_issues_from_affected_trace_frames in Hs2.
    apply bind_Ok in Hs2 as (initial & _ & Hs2).
    unfold _populate_issues_from_affected_conditions in Hs2.
    apply bind_Ok in Hs2 as (st & Hst & Hs2). apply bind_Ok in Hs2 as (s3 & Hs3 & Hs2).
    unfold backward_search in Hst. apply _search_loop_visited_frames in Hst. simpl in Hst.
    refine (foldM_invariant (λ s0, Q (_visited_trace_frame_ids s0)) _ _ _ s3 s2 _ Hs2).
    + intros sa id sb _ Ha Hrow. cbv beta in Hrow.
      apply bind_Ok in Hrow as (f & _ & Hrow). by apply (_add_trace_frame_marks fuel sa sb f).
    + refine (HQ fuel _ _ s3 _ Hs3). by rewrite Hst.
Qed.

End OnlyTheFloodFillMarks.

(** X17: the frames marked visited in the output of
    [populate_from_trace_graph] are closed under reachability in the source
    graph: from a visited frame, its next frames and the child frames of its
    annotations are visited too. *)
Theorem visited_frames_are_closed (h h' : gmap nat IssueInstance) (fuel : nat)
    (self out : TrimmedTraceGraph) :
  populate_from_trace_graph h graph fuel self = Ok (h', out) →
  successors_closed graph (_visited_trace_frame_ids out).
Proof.
  intros [Hgraph _]%populate_from_trace_graph_inv.
  refine (populate_graph_marks h (successors_closed graph) _ fuel self out _ Hgraph).
  - intros fuel' s ids s' Hs Hp.
    destruct (_populate_trace_closes fuel' s ids s' (λ _, False)) as (Hc' & _ & _);
      [|exact Hp|].
    + intros k n Hk Hn. left. by apply (Hs k n).
    + intros k n Hk Hn. by destruct (Hc' k n Hk Hn).
  - intros k n Hk. by apply not_elem_of_empty in Hk.
Qed.

End FloodFill.

Lemma _populate_trace_reaches_every_successor_witness :
  ∃ s', _populate_trace ex_cycle 5 ex_cycle_self [21] = Ok s' ∧
        successors_closed ex_cycle (_visited_trace_frame_ids s') ∧
        ∀ id, id ∈ [21] → id ∈ _visited_trace_frame_ids s'.
Proof.
  destruct (_populate_trace ex_cycle 5 ex_cycle_self [21]) as [s'|e] eqn:Hrun;
    [|vm_compute in Hrun; discriminate Hrun].
  exists s'. split; [reflexivity|].
  apply (_populate_trace_reaches_every_successor ex_cycle 5 ex_cycle_self s' [21]); [|exact Hrun].
  intros k n Hk. by apply not_elem_of_empty in Hk.
Defined.

Lemma visited_frames_are_closed_witness :
  successors_closed ex_repair (_visited_trace_frame_ids ex_repair_out).
Proof.
  exact (visited_frames_are_closed ex_repair ex_heap ex_repair_heap_after 20 _ ex_repair_out
           ex_repair_run_result).
Defined.

(** ** Recomputing twice *)

Section RecomputeProperties.

Context (self : TraceGraph).

(** Whether an iteration of the loop returns depends on the id of the
    instance only. *)
Lemma recompute_instance_again (histo histo' : Z → Z) (heap heap1 hfix : gmap nat IssueInstance)
    (r : nat) (v : IssueInstance) :
  recompute_instance self histo heap r = Ok heap1 →
  hfix !! r = Some v → inst_id v = inst_id (deref heap r) →
  recomputed self histo' v = v →
  recompute_instance self histo' hfix r = Ok hfix.
Proof.
  intros Hfirst Hv Hid Hfixed.
  assert (Hderef : deref hfix r = v).
  { unfold deref. by rewrite (lookup_total_correct _ _ _ Hv). }
  assert (Hruns : ∃ hfix', recompute_instance self histo' hfix r = Ok hfix').
  { unfold recompute_instance in *.
    apply bind_Ok in Hfirst as (to_sources & Hsources & Hfirst).
    apply bind_Ok in Hfirst as (to_sinks & Hsinks & _).
    rewrite deref_insert in Hsinks. simpl in Hsinks.
    rewrite Hderef, Hid, Hsources. cbn [bind]. rewrite deref_insert. simpl.
    rewrite Hid, Hsinks. cbn [bind]. eauto. }
  destruct Hruns as [hfix' Hsecond]. rewrite Hsecond. f_equal.
  apply recompute_instance_spec in Hsecond as ->.
  rewrite Hderef, Hfixed. by apply insert_id.
Qed.

Lemma recompute_loop_again (histo histo' : Z → Z) (l : list nat) :
  ∀ heap heap' hfix : gmap nat IssueInstance,
    foldM (recompute_instance self histo) heap l = Ok heap' →
    (∀ r, r ∈ l → ∃ v, hfix !! r = Some v ∧ inst_id v = inst_id (deref heap r) ∧
                       recomputed self histo' v = v) →
    foldM (recompute_instance self histo') hfix l = Ok hfix.
Proof.
  induction l as [|a l IH]; intros heap heap' hfix Hfold Hfixed; simpl in *; [done|].
  apply bind_Ok in Hfold as (heap1 & Hheap1 & Hfold).
  destruct (Hfixed a) as (v & Hv & Hid & Hrec); [apply list_elem_of_here|].
  rewrite (recompute_instance_again histo histo' heap heap1 hfix a v Hheap1 Hv Hid Hrec).
  cbn [bind]. apply (IH heap1 heap' hfix Hfold).
  intros r Hr. destruct (Hfixed r) as (v' & Hv' & Hid' & Hrec'); [by apply list_elem_of_further|].
  exists v'. split; [done|]. split; [|done].
  apply recompute_instance_spec in Hheap1 as ->.
  destruct (decide (a = r)) as [->|Hne]; [by rewrite deref_insert | by rewrite deref_insert_ne].
Qed.

Lemma recompute_loop_dom (histo : Z → Z) (l : list nat) :
  ∀ heap heap' : gmap nat IssueInstance,
    foldM (recompute_instance self histo) heap l = Ok heap' →
    ∀ r, r ∈ l ∨ is_Some (heap !! r) → is_Some (heap' !! r).
Proof.
  induction l as [|a l IH]; intros heap heap' Hfold r Hr; simpl in Hfold.
  - injection Hfold as <-. by destruct Hr as [Hr%elem_of_nil|Hr].
  - apply bind_Ok in Hfold as (heap1 & Hheap1 & Hfold).
    apply (IH heap1 heap' Hfold r).
    apply recompute_instance_spec in Hheap1 as ->.
    destruct (decide (a = r)) as [->|Hne]; [right; rewrite lookup_insert_eq; eauto|].
    rewrite lookup_insert_ne by done.
    destruct Hr as [[Heq|Hr]%elem_of_cons|Hr]; [by destruct Hne | by left | by right].
Qed.

Lemma length_filter_ext {A : Type} (P P' : A → Prop) `{∀ a, Decision (P a)}
    `{∀ a, Decision (P' a)} (l : list A) :
  (∀ a, a ∈ l → P a ↔ P' a) → length (filter P l) = length (filter P' l).
Proof.
  induction l as [|a l IH]; intros Hext; [done|].
  rewrite !filter_cons.
  assert (Ha : P a ↔ P' a) by apply Hext, list_elem_of_here.
  assert (Hl : length (filter P l) = length (filter P' l)).
  { apply IH. intros a' Ha'. by apply Hext, list_elem_of_further. }
  destruct (decide (P a)) as [HP|HP], (decide (P' a)) as [HP'|HP']; simpl;
    [by rewrite Hl | by apply Ha in HP | by apply Ha in HP' | done].
Qed.

(** X18: [_recompute_instance_properties] is idempotent: when it returns, a
    second call on the same graph returns and leaves every issue instance as
    the first call left it. *)
Theorem _recompute_instance_properties_twice (h h' : gmap nat IssueInstance) :
  _recompute_instance_properties h self = Ok h' →
  _recompute_instance_properties h' self = Ok h'.
Proof.
  unfold _recompute_instance_properties. cbv zeta. intros Hfirst.
  pose proof (recompute_loop_spec self _ _ _ _ Hfirst) as Hspec.
  pose proof (recompute_loop_dom _ _ _ _ Hfirst) as Hdom.
  apply (recompute_loop_again (callables_histo h self) (callables_histo h' self) _ h h' h' Hfirst).
  intros r Hr. destruct (Hdom r) as [v Hv]; [by left|].
  assert (Hderef : deref h' r = v).
  { unfold deref. by rewrite (lookup_total_correct _ _ _ Hv). }
  destruct (Hspec r) as [Hrec _]. specialize (Hrec Hr). rewrite Hderef in Hrec.
  exists v. split; [done|]. split; [by rewrite Hrec|].
  rewrite Hrec. unfold recomputed. simpl. f_equal.
  unfold callables_histo. f_equal. apply length_filter_ext.
  intros r' Hr'. destruct (Hspec r') as [Hrec' _]. by rewrite (Hrec' Hr').
Qed.

End RecomputeProperties.

Lemma _recompute_instance_properties_twice_witness :
  _recompute_instance_properties ex_heap_after (tg ex_out) = Ok ex_heap_after.
Proof.
  apply (_recompute_instance_properties_twice (tg ex_out) ex_heap ex_heap_after).
  vm_compute. reflexivity.
Defined.

(** ** Every hit of the backward search is added *)

Section HitProperties.

Context (h : gmap nat IssueInstance) (graph : TraceGraph).
Hypothesis Hwf : ids_registered h graph = true.

Lemma hit_recorded_stable (cond_id i : Z) :
  populate_stable h graph (λ s, hit_recorded s cond_id i).
Proof.
  unfold hit_recorded.
  split; [split|split| |]; simpl; intros; try done;
    try (unfold add_shared_text; by destruct (existsb _ _)).
  - destruct H0 as [Hi Ha]. split; [|done]. apply lookup_insert_is_Some'. by right.
  - destruct H0 as [Hi Ha]. split; [done|].
    rewrite dget_dadd. destruct (decide _) as [<-|]; [apply elem_of_union; by left | done].
Qed.

(** A visit of an instance whose leaves meet the leaves of the condition. *)
Lemma _visit_instance_records (condition : TraceFrame) (active : gset Z)
    (s s' : TrimmedTraceGraph) (k : Z) (r : nat) (leaves : gset Z) :
  _visit_instance h graph condition active s k = Ok s' →
  _issue_instances graph !! k = Some r →
  _get_instance_leaf_ids graph (inst_id (deref h r)) = Ok leaves →
  leaves ∩ active ≠ ∅ →
  hit_recorded s' (tf_id condition) (inst_id (deref h r)).
Proof using Hwf.
  intros Hv Hr Hleaves Hmeet. unfold _visit_instance in Hv.
  apply bind_Ok in Hv as (r' & Hr'%getitem_Ok & Hv).
  rewrite Hr in Hr'. injection Hr' as <-.
  rewrite Hleaves in Hv. cbn [bind] in Hv.
  rewrite bool_decide_eq_true_2 in Hv.
  2:{ destruct (decide (size (leaves ∩ active) = 0%nat)) as [Hzero|Hpos]; [|lia].
      apply size_empty_inv, leibniz_equiv in Hzero. done. }
  apply bind_Ok in Hv as (s1 & Hs1 & Hv). injection Hv as <-.
  pose proof (registered_instance h graph Hwf k r Hr) as Hid.
  split; simpl.
  - rewrite Hid. destruct (mem k (_issue_instances (tg s))) eqn:Hmem.
    + injection Hs1 as <-. by apply mem_true.
    + destruct (_populate_issue_adds h graph Hwf s s1 k Hs1) as (r' & _ & ->).
      rewrite lookup_insert_eq. eauto.
  - rewrite dget_dadd, decide_True by done. apply elem_of_union. right.
    by apply elem_of_singleton.
Qed.

Lemma visit_loop_records (condition : TraceFrame) (active : gset Z) (l : list Z) :
  ∀ s s', foldM (_visit_instance h graph condition active) s l = Ok s' →
          ∀ k r leaves, k ∈ l → _issue_instances graph !! k = Some r →
                        _get_instance_leaf_ids graph (inst_id (deref h r)) = Ok leaves →
                        leaves ∩ active ≠ ∅ →
                        hit_recorded s' (tf_id condition) (inst_id (deref h r)).
Proof using Hwf.
  induction l as [|a l IH]; intros s s' Hfold k r leaves Hk Hr Hleaves Hmeet;
    simpl in Hfold; [by apply elem_of_nil in Hk|].
  apply bind_Ok in Hfold as (s1 & Hs1 & Hfold).
  destruct (decide (k ∈ l)) as [Hl|Hl]; [by apply (IH s1 s' Hfold k r leaves)|].
  apply elem_of_cons in Hk as [->|Hk]; [|done].
  refine (foldM_invariant (λ s0, hit_recorded s0 (tf_id condition) (inst_id (deref h r)))
            _ _ _ s1 s' _ Hfold).
  - intros sa id sb _ Ha Hvisit.
    exact (_visit_instance_keeps h graph _ condition active sa sb id
             (hit_recorded_stable _ _) Ha Hvisit).
  - by apply (_visit_instance_records condition active s s1 a r leaves).
Qed.

(** An expansion of a condition with the leaves [active], recorded with the
    leaves [seen'], which are those recorded before and [active]. *)
Lemma _expand_records (s : TrimmedTraceGraph) (visited : gmap Z (gset Z))
    (que : list (TraceFrame * gset Z)) (condition : TraceFrame) (active seen' : gset Z)
    (st' : search_state) :
  hits_recorded h graph visited s →
  seen' ⊆ dget visited (tf_id condition) ∪ active →
  _expand h graph s (<[tf_id condition := seen']> visited) que condition active = Ok st' →
  hits_recorded h graph (s_visited st') (s_self st').
Proof using Hwf.
  intros Hinv Hseen He.
  assert (Hkeeps : ∀ c i, hit_recorded s c i → hit_recorded (s_self st') c i).
  { intros c i Hci.
    exact (_expand_keeps h graph _ s _ que condition active st'
             (hit_recorded_stable c i) Hci He). }
  unfold _expand in He. apply bind_Ok in He as (s1 & Hs1 & He).
  apply bind_Ok in He as (preds & _ & He). injection He as <-. simpl in *.
  intros cond_id active' k r leaves Hc Hk Hr Hleaves Hmeet.
  destruct (decide (tf_id condition = cond_id)) as [<-|Hne].
  - rewrite lookup_insert_eq in Hc. injection Hc as <-.
    apply set_choose_L in Hmeet as [x [Hx Hx']%elem_of_intersection].
    apply Hseen, elem_of_union in Hx' as [Hold|Hnew].
    + apply Hkeeps. unfold dget in Hold.
      destruct (visited !! tf_id condition) as [seen|] eqn:Hvis; simpl in Hold;
        [|by apply not_elem_of_empty in Hold].
      apply (Hinv (tf_id condition) seen k r leaves Hvis Hk Hr Hleaves).
      intros Hempty. apply (not_elem_of_empty (C := gset Z) x). rewrite <- Hempty.
      by apply elem_of_intersection.
    + apply (visit_loop_records condition active _ s s1 Hs1 k r leaves);
        [by apply elem_of_elements | done | done |].
      intros Hempty. apply (not_elem_of_empty (C := gset Z) x). rewrite <- Hempty.
      by apply elem_of_intersection.
  - rewrite lookup_insert_ne in Hc by done. apply Hkeeps.
    by apply (Hinv cond_id active' k r leaves).
Qed.

Lemma _search_step_records (st st' : search_state) :
  hits_recorded h graph (s_visited st) (s_self st) →
  _search_step h graph st = Ok st' →
  hits_recorded h graph (s_visited st') (s_self st').
Proof using Hwf.
  intros Hinv Hstep. unfold _search_step in Hstep.
  destruct (s_que st) as [|[condition leaves] que]; [by injection Hstep as <-|].
  destruct (s_visited st !! tf_id condition) as [seen|] eqn:Hvis.
  - destruct (bool_decide _); [by injection Hstep as <-|].
    apply (_expand_records _ _ _ _ _ _ _ Hinv) in Hstep; [done|].
    unfold dget. rewrite Hvis. simpl. set_solver.
  - apply (_expand_records _ _ _ _ _ _ _ Hinv) in Hstep; [done|]. set_solver.
Qed.

Lemma _search_loop_records (fuel : nat) :
  ∀ st st', hits_recorded h graph (s_visited st) (s_self st) →
            _search_loop h graph fuel st = Ok st' →
            hits_recorded h graph (s_visited st') (s_self st').
Proof using Hwf.
  induction fuel as [|fuel IH]; intros st st' Hinv Hl; simpl in Hl.
  - destruct (s_que st); [by injection Hl as <- | done].
  - destruct (s_que st) eqn:Hque; [by injection Hl as <-|].
    apply bind_Ok in Hl as (st1 & Hst1 & Hl).
    apply (IH st1 st'); [|done]. by apply (_search_step_records st st1).
Qed.

(** X19: when [_populate_issues_from_affected_conditions] returns, on a
    source graph whose instances and frames are registered under their own
    ids, every instance that the source graph associates with a frame the
    search visited, and whose source and sink leaves meet the leaves recorded
    for that frame, is in the trimmed graph, with the frame as one of its
    first hops. *)
Theorem backward_search_adds_every_leaf_sharing_instance (fuel : nat)
    (self self' : TrimmedTraceGraph) (initial_conditions : list TraceFrame) :
  _populate_issues_from_affected_conditions h graph fuel self initial_conditions = Ok self' →
  ∃ st, backward_search h graph fuel self initial_conditions = Ok st ∧
        hits_recorded h graph (s_visited st) self' ∧
        ∀ i, hit_at h graph (s_visited st) i → is_Some (_issue_instances (tg self') !! i).
Proof using Hwf.
  intros Hp. unfold _populate_issues_from_affected_conditions in Hp.
  apply bind_Ok in Hp as (st & Hst & Hp). apply bind_Ok in Hp as (s1 & Hs1 & Hp).
  exists st. split; [done|].
  assert (Hsearch : hits_recorded h graph (s_visited st) (s_self st)).
  { unfold backward_search in Hst. apply (_search_loop_records fuel _ st) in Hst; [done|].
    intros c active k r leaves Hc. simpl in Hc. by rewrite lookup_empty in Hc. }
  assert (Hall : hits_recorded h graph (s_visited st) self').
  { intros c active k r leaves Hc Hk Hr Hleaves Hmeet.
    pose proof (ps_trace _ _ _ (hit_recorded_stable c (inst_id (deref h r)))) as Hstable.
    refine (foldM_invariant (λ s0, hit_recorded s0 c (inst_id (deref h r))) _ _ _ s1 self' _ Hp).
    - intros sa id sb _ Ha Hrow. cbv beta in Hrow.
      apply bind_Ok in Hrow as (f & Hf%getitem_Ok & Hrow).
      exact (_add_trace_frame_keeps graph _ fuel sa sb id f Hstable Hf Ha Hrow).
    - refine (_populate_trace_keeps graph fuel _ _ _ s1 Hstable _ Hs1).
      by apply (Hsearch c active k r leaves). }
  split; [done|].
  intros i (c & active & k & r & leaves & Hc & Hk & Hr & <- & Hleaves & Hmeet).
  by destruct (Hall c active k r leaves Hc Hk Hr Hleaves Hmeet).
Qed.

End HitProperties.

Lemma backward_search_adds_every_leaf_sharing_instance_witness :
  ∃ st, backward_search ex_heap ex_cycle 20 ex_cycle_self [ex_cycle_f1] = Ok st ∧
        hits_recorded ex_heap ex_cycle (s_visited st) ex_cycle_step3 ∧
        ∀ i, hit_at ex_heap ex_cycle (s_visited st) i →
             is_Some (_issue_instances (tg ex_cycle_step3) !! i).
Proof.
  exact (backward_search_adds_every_leaf_sharing_instance ex_heap ex_cycle ex_cycle_registered
           20 ex_cycle_self ex_cycle_step3 [ex_cycle_f1] ex_cycle_step3_result).
Defined.

(** ** The backward search visits every caller *)

Section CallerProperties.

Context (h : gmap nat IssueInstance) (graph : TraceGraph).
Hypothesis Hwf : ids_registered h graph = true.

Lemma elem_of_compute_prev_leaf_kinds (leaves : gset Z) (mapping : list (Z * Z)) (leaf : Z) :
  leaf ∈ compute_prev_leaf_kinds leaves mapping ↔
  ∃ row, row ∈ mapping ∧ row.1 = leaf ∧ row.2 ∈ leaves.
Proof.
  unfold compute_prev_leaf_kinds. rewrite elem_of_list_to_set, list_elem_of_fmap. split.
  - intros (row & -> & [Hin Hrow]%list_elem_of_filter). eauto.
  - intros (row & Hrow & <- & Hin). exists row. split; [done|]. by apply list_elem_of_filter.
Qed.

Lemma compute_prev_leaf_kinds_mono (leaves leaves' : gset Z) (mapping : list (Z * Z)) (leaf : Z) :
  leaves ⊆ leaves' → leaf ∈ compute_prev_leaf_kinds leaves mapping →
  leaf ∈ compute_prev_leaf_kinds leaves' mapping.
Proof.
  rewrite !elem_of_compute_prev_leaf_kinds. intros Hsub (row & Hrow & Hleaf & Hin).
  exists row. split; [done|]. split; [done|]. by apply Hsub.
Qed.

(** The predecessors that [_get_predecessor_frames] returns for the leaves
    [leaves] include every caller frame, with the leaves of its mapping. *)
Lemma predecessor_returned (leaves : gset Z) (condition p : TraceFrame)
    (mapping : list (Z * Z)) (preds : list (TraceFrame * gset Z)) :
  _get_predecessor_frames graph leaves condition = Ok preds →
  predecessor_of graph p condition mapping →
  (p, compute_prev_leaf_kinds leaves mapping) ∈ preds.
Proof.
  intros Hpreds (id & Hid & Hp & Hm). unfold _get_predecessor_frames in Hpreds.
  fold (predecessor_ids graph condition) in Hpreds.
  destruct (mapR_Ok_elem_of_l _ _ _ id Hpreds) as (e & He & Hgid);
    [by apply elem_of_elements|].
  unfold getitem in Hgid. rewrite Hp in Hgid. simpl in Hgid. rewrite Hm in Hgid.
  by injection Hgid as <-.
Qed.

(** An expansion of the frame at the head of the queue. *)
Lemma _expand_invariant (que0 : list (TraceFrame * gset Z)) (s : TrimmedTraceGraph)
    (visited : gmap Z (gset Z)) (que : list (TraceFrame * gset Z)) (condition : TraceFrame)
    (leaves active seen' : gset Z) (st' : search_state) :
  search_invariant graph que0 (mkSearch s visited ((condition, leaves) :: que)) →
  seen' = dget visited (tf_id condition) ∪ active →
  leaves ⊆ seen' →
  _expand h graph s (<[tf_id condition := seen']> visited) que condition active = Ok st' →
  search_invariant graph que0 st'.
Proof using Hwf.
  intros (Hframes & Hque0 & Hclosed) Hseen Hleaves He. simpl in *.
  unfold _expand in He. apply bind_Ok in He as (s1 & _ & He).
  apply bind_Ok in He as (preds & Hpreds & He). injection He as <-.
  unfold search_invariant. simpl.
  assert (Hcond : _trace_frames graph !! tf_id condition = Some condition).
  { apply (Hframes (condition, leaves)), list_elem_of_here. }
  assert (Hmono : ∀ c, dget visited c ⊆ dget (<[tf_id condition := seen']> visited) c).
  { intros c. rewrite dget_insert. destruct (decide _) as [<-|]; [|done].
    rewrite Hseen. apply union_subseteq_l. }
  assert (Hhead : leaves ⊆ dget (<[tf_id condition := seen']> visited) (tf_id condition)).
  { by rewrite dget_insert, decide_True. }
  assert (Hold : ∀ c leaf, pending_in ((condition, leaves) :: que) c leaf →
            leaf ∈ dget (<[tf_id condition := seen']> visited) c ∨
            pending_in (rev (filter (λ p, (0 < size p.2)%nat) preds) ++ que) c leaf).
  { intros c leaf (e & [->|He]%elem_of_cons & <- & Hleaf).
    - left. by apply Hhead.
    - right. exists e. split; [apply elem_of_app; by right | done]. }
  split; [|split].
  - intros e [He|He]%elem_of_app.
    + apply list_elem_of_In, in_rev, list_elem_of_In, list_elem_of_filter in He as [_ He].
      destruct (_get_predecessor_frames_spec graph _ _ _ Hpreds) as [_ Hall].
      destruct (Hall e He) as (k & Hk & _).
      by rewrite (registered_frame h graph Hwf k _ Hk).
    + apply Hframes. by apply list_elem_of_further.
  - intros e He. destruct (Hque0 e He) as [Hrec|[->|Hin]%elem_of_cons].
    + left. etrans; [exact Hrec | apply Hmono].
    + left. exact Hhead.
    + right. apply elem_of_app. by right.
  - intros c seen f p mapping leaf Hc Hf Hp Hleaf.
    assert (Hbefore : ∀ seen0, visited !! c = Some seen0 →
              leaf ∈ compute_prev_leaf_kinds seen0 mapping →
              leaf ∈ dget (<[tf_id condition := seen']> visited) (tf_id p) ∨
              pending_in (rev (filter (λ p, (0 < size p.2)%nat) preds) ++ que) (tf_id p) leaf).
    { intros seen0 Hc0 Hleaf0.
      destruct (Hclosed c seen0 f p mapping leaf Hc0 Hf Hp Hleaf0) as [Hrec|Hpend].
      - left. by apply Hmono.
      - by apply Hold. }
    destruct (decide (tf_id condition = c)) as [<-|Hne].
    + rewrite lookup_insert_eq in Hc. injection Hc as <-.
      rewrite Hcond in Hf. injection Hf as <-.
      apply elem_of_compute_prev_leaf_kinds in Hleaf as (row & Hrow & Hleaf & Hin).
      rewrite Hseen in Hin. apply elem_of_union in Hin as [Hin|Hin].
      * unfold dget in Hin.
        destruct (visited !! tf_id condition) as [seen0|] eqn:Hvis; simpl in Hin;
          [|by apply not_elem_of_empty in Hin].
        apply (Hbefore seen0 eq_refl). apply elem_of_compute_prev_leaf_kinds. eauto.
      * right. exists (p, compute_prev_leaf_kinds active mapping).
        assert (Hmine : leaf ∈ compute_prev_leaf_kinds active mapping)
          by (apply elem_of_compute_prev_leaf_kinds; eauto).
        split; [|done]. apply elem_of_app. left.
        apply list_elem_of_In, in_rev. rewrite rev_involutive. apply list_elem_of_In.
        apply list_elem_of_filter. split; [|by apply (predecessor_returned active condition)].
        simpl. destruct (decide (size (compute_prev_leaf_kinds active mapping) = 0%nat))
          as [Hzero|Hpos]; [|lia].
        apply size_empty_inv in Hzero. apply Hzero in Hmine.
        by apply not_elem_of_empty in Hmine.
    + rewrite lookup_insert_ne in Hc by done. by apply (Hbefore seen).
Qed.

Lemma _search_step_invariant (que0 : list (TraceFrame * gset Z)) (st st' : search_state) :
  search_invariant graph que0 st → _search_step h graph st = Ok st' →
  search_invariant graph que0 st'.
Proof using Hwf.
  intros Hinv Hstep. unfold _search_step in Hstep.
  destruct st as [s visited que]. simpl in Hstep.
  destruct que as [|[condition leaves] que]; [by injection Hstep as <-|].
  destruct (visited !! tf_id condition) as [seen|] eqn:Hvis.
  - destruct (bool_decide (size (leaves ∖ seen) = 0%nat)) eqn:Hsize.
    + injection Hstep as <-. apply bool_decide_eq_true in Hsize.
      apply size_empty_inv in Hsize.
      assert (Hsub : leaves ⊆ dget visited (tf_id condition)).
      { unfold dget. rewrite Hvis. simpl. intros x Hx.
        destruct (decide (x ∈ seen)) as [|Hnot]; [done|].
        exfalso. apply (not_elem_of_empty (C := gset Z) x), Hsize.
        by apply elem_of_difference. }
      destruct Hinv as (Hframes & Hque0 & Hclosed). simpl in *. split; [|split]; simpl.
      * intros e He. apply Hframes. by apply list_elem_of_further.
      * intros e He. destruct (Hque0 e He) as [Hrec|[->|Hin]%elem_of_cons];
          [by left | by left | by right].
      * intros c seen0 f p mapping leaf Hc Hf Hp Hleaf.
        destruct (Hclosed c seen0 f p mapping leaf Hc Hf Hp Hleaf)
          as [Hrec|(e & [->|He]%elem_of_cons & Hid & Hin)]; [by left| |].
        -- left. simpl in *. rewrite <- Hid. by apply Hsub.
        -- right. by exists e.
    + apply (_expand_invariant que0 s visited que condition leaves _ _ st' Hinv) in Hstep;
        [done| |].
      * unfold dget. by rewrite Hvis.
      * intros x Hx. destruct (decide (x ∈ seen)); set_solver.
  - apply (_expand_invariant que0 s visited que condition leaves _ _ st' Hinv) in Hstep;
      [done| |done].
    unfold dget. rewrite Hvis. simpl. by rewrite union_empty_l_L.
Qed.

Lemma _search_loop_invariant (que0 : list (TraceFrame * gset Z)) (fuel : nat) :
  ∀ st st', search_invariant graph que0 st → _search_loop h graph fuel st = Ok st' →
            search_invariant graph que0 st' ∧ s_que st' = [].
Proof using Hwf.
  induction fuel as [|fuel IH]; intros st st' Hinv Hl; simpl in Hl.
  - destruct (s_que st) eqn:Hque; [by injection Hl as <- | done].
  - destruct (s_que st) eqn:Hque; [by injection Hl as <-|].
    apply bind_Ok in Hl as (st1 & Hst1 & Hl).
    apply (IH st1 st'); [|done]. by apply (_search_step_invariant que0 st st1).
Qed.

(** X20: on a source graph whose instances and frames are registered under
    their own ids, when the backward search from frames of the graph
    returns, it has recorded every initial condition with its incoming
    leaves, and what it recorded is closed under callers: for every recorded
    frame and every caller frame of it, the leaves that the caller's leaf
    mapping gives for the leaves recorded for the frame are recorded for the
    caller. *)
Theorem backward_search_visits_every_caller (fuel : nat) (self : TrimmedTraceGraph)
    (initial_conditions : list TraceFrame) (st : search_state) :
  (∀ f, f ∈ initial_conditions → _trace_frames graph !! tf_id f = Some f) →
  backward_search h graph fuel self initial_conditions = Ok st →
  (∀ f, f ∈ initial_conditions →
        get_incoming_leaf_kinds_of_frame graph f ⊆ dget (s_visited st) (tf_id f)) ∧
  callers_closed graph (s_visited st).
Proof using Hwf.
  intros Hinitial Hsearch. unfold backward_search in Hsearch.
  destruct (_search_loop_invariant (initial_que graph initial_conditions) fuel
              (mkSearch self ∅ (initial_que graph initial_conditions)) st)
    as [(_ & Hque0 & Hclosed) Hempty]; [|exact Hsearch|].
  { split; [|split]; simpl.
    - intros e He. unfold initial_que in He.
      apply list_elem_of_In, in_rev, list_elem_of_In, list_elem_of_fmap in He as (f & -> & Hf).
      by apply Hinitial.
    - intros e He. by right.
    - intros c seen f p mapping leaf Hc. by rewrite lookup_empty in Hc. }
  rewrite Hempty in Hque0, Hclosed. split.
  - intros f Hf.
    destruct (Hque0 (f, get_incoming_leaf_kinds_of_frame graph f)) as [Hrec|Hin];
      [|done|by apply elem_of_nil in Hin].
    unfold initial_que. apply list_elem_of_In, in_rev. rewrite rev_involutive.
    apply list_elem_of_In, list_elem_of_fmap. eauto.
  - intros c seen f p mapping leaf Hc Hf Hp Hleaf.
    destruct (Hclosed c seen f p mapping leaf Hc Hf Hp Hleaf) as [Hrec|(e & He & _)];
      [done | by apply elem_of_nil in He].
Qed.

End CallerProperties.

Lemma backward_search_visits_every_caller_witness :
  ∃ st, backward_search ex_heap ex_cycle 20 ex_cycle_self [ex_cycle_f1] = Ok st ∧
        (∀ f, f ∈ [ex_cycle_f1] →
              get_incoming_leaf_kinds_of_frame ex_cycle f ⊆ dget (s_visited st) (tf_id f)) ∧
        callers_closed ex_cycle (s_visited st).
Proof.
  destruct (backward_search ex_heap ex_cycle 20 ex_cycle_self [ex_cycle_f1]) as [st|e] eqn:Hrun;
    [|vm_compute in Hrun; discriminate Hrun].
  exists st. split; [reflexivity|].
  apply (backward_search_visits_every_caller ex_heap ex_cycle ex_cycle_registered 20
           ex_cycle_self [ex_cycle_f1] st); [|exact Hrun].
  intros f Hf. apply elem_of_cons in Hf as [->|Hf]; [|by apply elem_of_nil in Hf].
  vm_compute. reflexivity.
Defined.

(** ** An issue instance is copied with its issue *)

Section IssueProperties.

Context (h : gmap nat IssueInstance) (graph : TraceGraph).
Hypothesis Hwf : ids_registered h graph = true.

(** *** A weaker condition for a predicate to be kept

    A predicate that the flood fill and the association of a first hop
    keep, and that [_populate_issue] as a whole keeps, is kept by
    [populate_graph]. *)

Section KeptByPopulateIssue.

Variable Q : TrimmedTraceGraph → Prop.
Hypothesis Htrace : trace_stable graph Q.
Hypothesis Hassoc :
  ∀ r f s, Q s → Q (on_tg (add_issue_instance_trace_frame_assoc (deref h r) f) s).
Hypothesis Hissue : ∀ s k s', Q s → _populate_issue h graph s k = Ok s' → Q s'.

Lemma _populate_affected_issues_keeps_weak (fuel : nat) (s s' : TrimmedTraceGraph) :
  Q s → _populate_affected_issues h graph fuel s = Ok s' → Q s'.
Proof using Htrace Hassoc Hissue.
  intros Hs Hp. unfold _populate_affected_issues in Hp.
  apply bind_Ok in Hp as (ids & _ & Hp).
  refine (foldM_invariant Q _ _ _ s s' Hs Hp).
  intros sa id sb _ Ha Hrow. cbv beta in Hrow.
  destruct (mem _ _); [by injection Hrow as <-|].
  unfold _populate_issue_and_traces in Hrow. apply bind_Ok in Hrow as (s1 & Hs1 & Hrow).
  refine (_populate_issue_trace_keeps h graph Q fuel s1 sb id None Htrace _ _ Hrow).
  - intros r f s0 _. apply Hassoc.
  - by apply (Hissue sa id s1).
Qed.

Lemma _search_loop_keeps_weak (fuel : nat) :
  ∀ st st', Q (s_self st) → _search_loop h graph fuel st = Ok st' → Q (s_self st').
Proof using Htrace Hassoc Hissue.
  assert (Hexpand : ∀ s visited que condition leaves st0,
            Q s → _expand h graph s visited que condition leaves = Ok st0 → Q (s_self st0)).
  { intros s visited que condition leaves st0 Hs He. unfold _expand in He.
    apply bind_Ok in He as (s1 & Hs1 & He). apply bind_Ok in He as (preds & _ & He).
    injection He as <-. simpl.
    refine (foldM_invariant Q _ _ _ s s1 Hs Hs1).
    intros sa id sb _ Ha Hv. unfold _visit_instance in Hv.
    apply bind_Ok in Hv as (r & _ & Hv). apply bind_Ok in Hv as (leaves' & _ & Hv).
    destruct (bool_decide _); [|by injection Hv as <-].
    apply bind_Ok in Hv as (s2 & Hs2 & Hv). injection Hv as <-. apply Hassoc.
    destruct (mem _ _); [by injection Hs2 as <-|]. by apply (Hissue sa id s2). }
  induction fuel as [|fuel IH]; intros st st' Hs Hl; simpl in Hl.
  - destruct (s_que st); [by injection Hl as <- | done].
  - destruct (s_que st) as [|[condition leaves] que] eqn:Hque; [by injection Hl as <-|].
    apply bind_Ok in Hl as (st1 & Hst1 & Hl). apply (IH st1 st'); [|done].
    unfold _search_step in Hst1. rewrite Hque in Hst1.
    destruct (s_visited st !! tf_id condition).
    + destruct (bool_decide _); [by injection Hst1 as <-|]. by apply Hexpand in Hst1.
    + by apply Hexpand in Hst1.
Qed.

Lemma populate_graph_keeps_weak (fuel : nat) (s s' : TrimmedTraceGraph) :
  Q (set_visited ∅ s) → populate_graph h graph fuel s = Ok s' → Q s'.
Proof using Htrace Hassoc Hissue.
  intros Hs Hp. unfold populate_graph in Hp. apply bind_Ok in Hp as (s1 & Hs1 & Hp).
  apply (_populate_affected_issues_keeps_weak fuel _ s1 Hs) in Hs1.
  destruct (_affected_issues_only s1); [by injection Hp as <-|].
  apply bind_Ok in Hp as (s2 & Hs2 & Hp).
  refine (foldM_invariant Q _ _ _ s2 s' _ Hp).
  - intros sa i sb _ Ha Hrep.
    refine (repair_instance_keeps h graph Q fuel sa sb i Htrace _ Ha Hrep).
    intros r f s0 _. apply Hassoc.
  - unfold _populate_issues_from_affected_trace_frames in Hs2.
    apply bind_Ok in Hs2 as (initial & _ & Hs2).
    unfold _populate_issues_from_affected_conditions in Hs2.
    apply bind_Ok in Hs2 as (st & Hst & Hs2). apply bind_Ok in Hs2 as (s3 & Hs3 & Hs2).
    unfold backward_search in Hst. apply _search_loop_keeps_weak in Hst; [|exact Hs1].
    refine (foldM_invariant Q _ _ _ s3 s2 _ Hs2).
    + intros sa id sb _ Ha Hrow. cbv beta in Hrow.
      apply bind_Ok in Hrow as (f & Hf%getitem_Ok & Hrow).
      exact (_add_trace_frame_keeps graph Q fuel sa sb id f Htrace Hf Ha Hrow).
    + exact (_populate_trace_keeps graph fuel Q _ _ s3 Htrace Hst Hs3).
Qed.

End KeptByPopulateIssue.

Lemma instance_complete_stable (i : Z) (r : nat) :
  populate_stable h graph (λ s, instance_complete h graph s i r).
Proof.
  unfold instance_complete.
  split; [split|split| |]; simpl; intros; try done;
    try (unfold add_shared_text; by destruct (existsb _ _)).
  - destruct H as ((issue & Hissue & Hs) & Hfix & Htexts). split; [|done].
    exists issue. split; [done|]. apply lookup_insert_is_Some'. by right.
  - destruct H as (Hissue & Hfix & Htexts). split; [done|]. split; [|done].
    intros Hinfo. apply lookup_insert_is_Some'. right. by apply Hfix.
  - destruct H as (Hissue & Hfix & Htexts). split; [done|]. split; [done|].
    intros t_id Ht. destruct (Htexts t_id Ht) as (t' & Ht' & Hin). exists t'. split; [done|].
    rewrite dget_dadd.
    destruct (decide _) as [Heq|]; [apply elem_of_union; left; by rewrite Heq | done].
Qed.

(** [_populate_issue] copies the issue, the fix info and the shared-text
    associations of the instance. *)
Lemma _populate_issue_completes (s s' : TrimmedTraceGraph) (k : Z) (r : nat) :
  _populate_issue h graph s k = Ok s' → _issue_instances graph !! k = Some r →
  instance_complete h graph s' k r.
Proof.
  intros Hp Hr. unfold _populate_issue in Hp.
  apply bind_Ok in Hp as (r' & Hr'%getitem_Ok & Hp). rewrite Hr in Hr'. injection Hr' as <-.
  apply bind_Ok in Hp as (issue & Hissue%getitem_Ok & Hp).
  apply bind_Ok in Hp as (s1 & _ & Hp). apply bind_Ok in Hp as (s2 & _ & Hp).
  apply bind_Ok in Hp as (s3 & _ & Hp).
  set (sB := on_tg (add_issue issue) (on_tg (add_issue_instance h r) s3)) in Hp.
  set (sC := match _issue_instance_fix_info graph !! k with
             | Some issue_fix_info =>
                 on_tg (add_issue_instance_fix_info (deref h r) issue_fix_info) sB
             | None => sB
             end) in Hp.
  assert (Hstep : ∀ (P : TrimmedTraceGraph → Prop) sa id sb,
            (∀ s0 t, P s0 → P (on_tg (add_shared_text t) s0)) →
            (∀ s0 t, P s0 → P (on_tg (add_issue_instance_shared_text_assoc (deref h r) t) s0)) →
            P sa →
            (let* shared_text := getitem (_shared_texts graph) id in
             Ok (on_tg (add_issue_instance_shared_text_assoc (deref h r) shared_text)
                       (if mem id (_shared_texts (tg sa)) then sa
                        else on_tg (add_shared_text shared_text) sa))) = Ok sb →
            P sb).
  { intros P sa id sb Htext Hassoc Ha Hrow.
    apply bind_Ok in Hrow as (t & _ & Hrow). injection Hrow as <-. apply Hassoc.
    destruct (mem _ _); [done | by apply Htext]. }
  split; [|split].
  - exists issue. split; [done|].
    refine (foldM_invariant (λ s0, is_Some (_issues (tg s0) !! issue_id issue))
              _ _ _ sC s' _ Hp).
    + intros sa id sb _ Ha Hrow. cbv beta in Hrow.
      refine (Hstep (λ s0, is_Some (_issues (tg s0) !! issue_id issue)) sa id sb _ _ Ha Hrow).
      * intros s0 t Hs0. simpl. unfold add_shared_text. by destruct (existsb _ _).
      * by intros s0 t Hs0.
    + assert (HB : is_Some (_issues (tg sB) !! issue_id issue)).
      { simpl. rewrite lookup_insert_eq. eauto. }
      unfold sC. by destruct (_issue_instance_fix_info graph !! k).
  - intros [info Hinfo].
    refine (foldM_invariant
              (λ s0, is_Some (_issue_instance_fix_info (tg s0) !! inst_id (deref h r)))
              _ _ _ sC s' _ Hp).
    + intros sa id sb _ Ha Hrow. cbv beta in Hrow.
      refine (Hstep (λ s0, is_Some (_issue_instance_fix_info (tg s0) !! inst_id (deref h r)))
                sa id sb _ _ Ha Hrow).
      * intros s0 t Hs0. simpl. unfold add_shared_text. by destruct (existsb _ _).
      * by intros s0 t Hs0.
    + unfold sC. rewrite Hinfo. simpl. rewrite lookup_insert_eq. eauto.
  - intros t_id Ht. apply elem_of_elements in Ht.
    revert Hp Ht. generalize sC. clear sC sB.
    induction (elements (dget (_issue_instance_shared_text_assoc graph) k)) as [|a l IH];
      intros sa Hfold Ht; [by apply elem_of_nil in Ht|].
    simpl in Hfold. apply bind_Ok in Hfold as (sb & Hsb & Hfold).
    destruct (decide (t_id ∈ l)) as [Hl|Hl]; [by apply (IH sb)|].
    apply elem_of_cons in Ht as [->|Ht]; [|done].
    apply bind_Ok in Hsb as (t & Hta%getitem_Ok & Hsb). injection Hsb as <-.
    exists t. split; [done|].
    refine (foldM_invariant
              (λ s0, st_id t ∈ dget (_issue_instance_shared_text_assoc (tg s0))
                                    (inst_id (deref h r)))
              _ _ _ _ s' _ Hfold).
    + intros sc id sd _ Hc Hrow. cbv beta in Hrow.
      refine (Hstep (λ s0, st_id t ∈ dget (_issue_instance_shared_text_assoc (tg s0))
                                          (inst_id (deref h r)))
                sc id sd _ _ Hc Hrow).
      * intros s0 t0 Hs0. simpl. unfold add_shared_text. by destruct (existsb _ _).
      * intros s0 t0 Hs0. simpl. rewrite dget_dadd, decide_True by done.
        apply elem_of_union. by left.
    + simpl. rewrite dget_dadd, decide_True by done. apply elem_of_union. right.
      by apply elem_of_singleton.
Qed.

Lemma instances_complete_trace_stable : trace_stable graph (instances_complete h graph).
Proof.
  split; intros; intros i r Hi; simpl in Hi.
  - apply (ts_shared_text _ _ (ps_trace _ _ _ (instance_complete_stable i r))). apply H.
    revert Hi. unfold add_shared_text. by destruct (existsb _ _).
  - by apply (ts_frame _ _ (ps_trace _ _ _ (instance_complete_stable i r)) s k f H), H0.
  - by apply (ts_annotation _ _ (ps_trace _ _ _ (instance_complete_stable i r))), H.
  - by apply (ts_annotation_assoc _ _ (ps_trace _ _ _ (instance_complete_stable i r))), H.
  - by apply (ts_leaf_assoc _ _ (ps_trace _ _ _ (instance_complete_stable i r))), H.
  - by apply (ts_visited _ _ (ps_trace _ _ _ (instance_complete_stable i r)) s k f H H0), H1.
Qed.

(** X21: on a source graph whose instances and frames are registered under
    their own ids, every issue instance of the output is copied with its
    issue, with its fix info when the source graph has one for it, and with
    an association for each shared text the source graph associates with
    it. *)
Theorem instances_come_with_their_issue (fuel : nat) (files : list string) (aio : bool)
    (h' : gmap nat IssueInstance) (out : TrimmedTraceGraph) (i : Z) (r : nat) :
  populate_from_trace_graph h graph fuel (TrimmedTraceGraph__init__ files aio) = Ok (h', out) →
  _issue_instances (tg out) !! i = Some r →
  (∃ issue, _issues graph !! inst_issue_id (deref h r) = Some issue ∧
            is_Some (_issues (tg out) !! issue_id issue)) ∧
  (is_Some (_issue_instance_fix_info graph !! i) →
   is_Some (_issue_instance_fix_info (tg out) !! i)) ∧
  (∀ t_id, t_id ∈ dget (_issue_instance_shared_text_assoc graph) i →
           ∃ t, _shared_texts graph !! t_id = Some t ∧
                st_id t ∈ dget (_issue_instance_shared_text_assoc (tg out)) i).
Proof using Hwf.
  intros [Hgraph _]%populate_from_trace_graph_inv Hi.
  assert (Hall : instances_complete h graph out).
  { refine (populate_graph_keeps_weak (instances_complete h graph)
              instances_complete_trace_stable _ _ fuel _ out _ Hgraph).
    - intros r0 f s Hs i0 r1 Hi0. exact (Hs i0 r1 Hi0).
    - intros s k s' Hs Hp i0 r0 Hi0.
      destruct (_populate_issue_adds h graph Hwf s s' k Hp) as (r1 & Hr1 & Hinst).
      rewrite Hinst in Hi0. apply lookup_insert_Some in Hi0 as [[<- <-]|[Hne Hi0]].
      + by apply (_populate_issue_completes s s' k r1).
      + refine (_populate_issue_keeps h graph _ s s' k
                  (ps_issue _ _ _ (instance_complete_stable i0 r0)) _ (Hs i0 r0 Hi0) Hp).
        intros r2 s0 Hr2. by apply (ps_instance _ _ _ (instance_complete_stable i0 r0) s0 k).
    - intros i0 r0 Hi0. simpl in Hi0. by rewrite lookup_empty in Hi0. }
  assert (Hid : inst_id (deref h r) = i).
  { assert (Hsub : trimmed_consistent graph out).
    { refine (proj1 (populate_graph_keeps h graph _ fuel _ out
                       (consistent_grows_stable h graph Hwf
                          (set_visited ∅ (TrimmedTraceGraph__init__ files aio))) _ Hgraph)).
      split; [apply consistent_init | apply grows_refl]. }
    destruct Hsub as (Hci & _ & _). by apply (registered_instance h graph Hwf), Hci. }
  destruct (Hall i r Hi) as (Hissue & Hfix & Htexts). by rewrite Hid in Hfix, Htexts.
Qed.

End IssueProperties.

Lemma instances_come_with_their_issue_witness :
  (∃ issue, _issues ex_graph !! inst_issue_id (deref ex_heap 0%nat) = Some issue ∧
            is_Some (_issues (tg ex_out) !! issue_id issue)) ∧
  (is_Some (_issue_instance_fix_info ex_graph !! 1) →
   is_Some (_issue_instance_fix_info (tg ex_out) !! 1)) ∧
  (∀ t_id, t_id ∈ dget (_issue_instance_shared_text_assoc ex_graph) 1 →
           ∃ t, _shared_texts ex_graph !! t_id = Some t ∧
                st_id t ∈ dget (_issue_instance_shared_text_assoc (tg ex_out)) 1).
Proof.
  apply (instances_come_with_their_issue ex_heap ex_graph ex_graph_registered 10
           ["/a/"%string] false ex_heap_after ex_out 1 0%nat ex_run_result).
  vm_compute. reflexivity.
Defined.

(** ** Whether the flood fill returns *)

Section FloodFillTermination.

Context (graph : TraceGraph).

(** What [_add_trace_frame] does to the visited set, it does through its
    callback. *)
Lemma _add_trace_frame_with_marks (Q : gset Z → Prop)
    (pt : TrimmedTraceGraph → list Z → result TrimmedTraceGraph)
    (s s' : TrimmedTraceGraph) (f : TraceFrame) :
  (∀ sa ids sb, Q (_visited_trace_frame_ids sa) → pt sa ids = Ok sb →
                Q (_visited_trace_frame_ids sb)) →
  Q (_visited_trace_frame_ids s) → _add_trace_frame_with graph pt s f = Ok s' →
  Q (_visited_trace_frame_ids s').
Proof.
  intros Hpt Hs Hadd. unfold _add_trace_frame_with in Hadd. cbv zeta in Hadd.
  apply bind_Ok in Hadd as (annotations & _ & Hadd).
  apply bind_Ok in Hadd as (s1 & Hs1 & Hadd).
  apply bind_Ok in Hadd as (s2 & Hs2 & Hadd). apply _populate_shared_text_visited in Hs2.
  apply bind_Ok in Hadd as (s3 & Hs3 & Hadd). apply _populate_shared_text_visited in Hs3.
  apply bind_Ok in Hadd as (s4 & Hs4 & Hadd). apply _populate_shared_text_visited in Hs4.
  assert (Hs' : _visited_trace_frame_ids s' = _visited_trace_frame_ids s1).
  { rewrite <- Hs2, <- Hs3, <- Hs4.
    refine (foldM_invariant
              (λ s0, _visited_trace_frame_ids s0 = _visited_trace_frame_ids s4)
              _ _ _ s4 s' eq_refl Hadd).
    intros sa row sb _ Ha Hrow. cbv beta in Hrow.
    apply bind_Ok in Hrow as (leaf & _ & Hrow). injection Hrow as <-. simpl.
    by destruct (mem _ _). }
  rewrite Hs'.
  refine (foldM_invariant (λ s0, Q (_visited_trace_frame_ids s0)) _ _ _
            (on_tg (add_trace_frame f) s) s1 Hs Hs1).
  intros sa a sb _ Ha Hann. unfold _add_trace_annotation_with in Hann.
  apply bind_Ok in Hann as (children & _ & Hann).
  refine (Hpt _ _ sb _ Hann).
  by apply (foldl_invariant (λ s0, Q (_visited_trace_frame_ids s0))).
Qed.

(** The annotations of a frame that is a child of one of them: the call
    through that annotation cannot return with the frame unmarked, and it
    cannot mark it. *)
Lemma annotations_of_own_child (id : Z)
    (pt : TrimmedTraceGraph → list Z → result TrimmedTraceGraph)
    (a : TraceFrameAnnotation) (children : list TraceFrame) (child : TraceFrame)
    (annotations : list TraceFrameAnnotation) :
  (∀ sa ids sb, id ∉ _visited_trace_frame_ids sa → pt sa ids = Ok sb →
                id ∉ _visited_trace_frame_ids sb) →
  (∀ sa ids sb, pt sa ids = Ok sb → id ∈ ids → id ∈ _visited_trace_frame_ids sb) →
  get_annotation_trace_frames graph (ann_id a) = Ok children →
  child ∈ children → tf_id child = id → a ∈ annotations →
  ∀ s s', id ∉ _visited_trace_frame_ids s →
          foldM (_add_trace_annotation_with graph pt) s annotations = Ok s' → False.
Proof.
  intros Hkeeps Hmarks Hchildren Hchild Hid.
  induction annotations as [|a0 annotations IH]; intros Ha s s' Hs Hfold;
    [by apply elem_of_nil in Ha|].
  simpl in Hfold. apply bind_Ok in Hfold as (s1 & Hs1 & Hfold).
  unfold _add_trace_annotation_with in Hs1.
  apply bind_Ok in Hs1 as (children0 & Hchildren0 & Hs1).
  set (s0 := foldl _ _ children0) in Hs1.
  assert (Hs0 : id ∉ _visited_trace_frame_ids s0).
  { unfold s0. by apply (foldl_invariant (λ s2, id ∉ _visited_trace_frame_ids s2)). }
  pose proof (Hkeeps s0 _ s1 Hs0 Hs1) as Hunmarked.
  apply elem_of_cons in Ha as [->|Ha]; [|by apply (IH Ha s1 s')].
  rewrite Hchildren in Hchildren0. injection Hchildren0 as <-.
  apply Hunmarked, (Hmarks s0 _ s1 Hs1).
  apply list_elem_of_In, in_rev. rewrite rev_involutive.
  apply list_elem_of_In, list_elem_of_fmap. eauto.
Qed.

(** A frame that is a child of one of its own annotations is never
    marked. *)
Lemma own_annotation_child_unmarked (id : Z) (fuel : nat) :
  annotation_child graph id id →
  ∀ s ids s', id ∉ _visited_trace_frame_ids s → _populate_trace graph fuel s ids = Ok s' →
              id ∉ _visited_trace_frame_ids s'.
Proof.
  intros (f & annotations & a & children & child & Hf & Hann & Ha & Hchildren & Hchild & Hid).
  induction fuel as [|fuel IH]; intros s ids s' Hs Hp.
  - destruct ids; simpl in Hp; [by injection Hp as <- | done].
  - destruct ids as [|id0 ids]; simpl in Hp; [by injection Hp as <-|].
    destruct (bool_decide (id0 ∈ _visited_trace_frame_ids s)) eqn:Hvis;
      [by apply (IH s ids s')|].
    apply bind_Ok in Hp as (f0 & Hf0%getitem_Ok & Hp).
    apply bind_Ok in Hp as (s1 & Hs1 & Hp).
    apply bind_Ok in Hp as (nexts & Hnexts & Hp).
    destruct (decide (id0 = id)) as [->|Hne].
    + exfalso. rewrite Hf in Hf0. injection Hf0 as <-.
      unfold _add_trace_frame_with in Hs1. cbv zeta in Hs1.
      rewrite Hann in Hs1. cbn [bind] in Hs1.
      apply bind_Ok in Hs1 as (s2 & Hs2 & _).
      refine (annotations_of_own_child id _ a children child annotations IH _
                Hchildren Hchild Hid Ha _ s2 _ Hs2); [|done].
      intros sa ids0 sb Hsa. exact (_populate_trace_marks graph fuel sa sb ids0 id Hsa).
    + apply (_add_trace_frame_with_marks (λ V, id ∉ V) _ s s1 f0 IH Hs) in Hs1.
      refine (IH _ _ s' _ Hp). simpl. intros [Hin|Hin%elem_of_singleton]%elem_of_union;
        [by apply Hs1 | by apply Hne].
Qed.

(** X22: a frame is marked visited only after [_add_trace_frame] has
    returned for it, and [_add_trace_frame] goes through the child frames of
    its annotations first: on a work list with a frame that is not marked
    and that is a child frame of one of its own annotations,
    [_populate_trace] does not return, whatever the fuel. *)
Theorem _populate_trace_never_returns_from_own_annotation (fuel : nat)
    (s : TrimmedTraceGraph) (ids : list Z) (id : Z) :
  annotation_child graph id id →
  id ∉ _visited_trace_frame_ids s → id ∈ ids →
  ∃ e, _populate_trace graph fuel s ids = Raise e.
Proof.
  intros Hchild Hs Hid.
  destruct (_populate_trace graph fuel s ids) as [s'|e] eqn:Hp; [|eauto].
  exfalso. apply (own_annotation_child_unmarked id fuel Hchild s ids s' Hs Hp).
  by apply (_populate_trace_marks graph fuel s s' ids id).
Qed.

Lemma next_frames_bound (f : TraceFrame) (nexts : list TraceFrame) :
  get_next_trace_frames graph f = Ok nexts →
  (length nexts ≤ size (_trace_frames graph))%nat.
Proof.
  intros Hn. unfold get_next_trace_frames in Hn.
  rewrite (mapR_Ok_length _ _ _ Hn).
  set (ids := dget (_trace_frames_map graph) _).
  change (size ids ≤ size (_trace_frames graph))%nat.
  transitivity (size (dom (_trace_frames graph))); [|by rewrite size_dom].
  apply subseteq_size. intros id Hid%elem_of_elements.
  destruct (mapR_Ok_all _ _ _ _ Hn Hid) as [b Hb%getitem_Ok]. apply elem_of_dom. eauto.
Qed.

Lemma _populate_trace_enough_fuel (fuel : nat) :
  no_annotations graph →
  ∀ s ids, (trace_bound graph s ids ≤ fuel)%nat →
           ran_out (_populate_trace graph fuel s ids) = false.
Proof.
  intros Hnone. induction fuel as [|fuel IH]; intros s ids Hfuel.
  - destruct ids; [done|]. unfold trace_bound in Hfuel. simpl in Hfuel. lia.
  - destruct ids as [|id ids]; [done|]. simpl.
    unfold trace_bound in Hfuel. simpl in Hfuel.
    destruct (bool_decide (id ∈ _visited_trace_frame_ids s)) eqn:Hvis.
    { apply IH. unfold trace_bound. lia. }
    apply bool_decide_eq_false in Hvis.
    apply ran_out_bind; [apply ran_out_getitem|]. intros f Hf%getitem_Ok.
    assert (Hframe : ∀ s1, _add_trace_frame_with graph (_populate_trace graph fuel) s f = Ok s1 →
              _visited_trace_frame_ids s1 = _visited_trace_frame_ids s).
    { intros s1 Hs1. unfold _add_trace_frame_with, get_condition_annotations in Hs1.
      cbv zeta in Hs1. rewrite Hnone, elements_empty in Hs1. simpl in Hs1.
      apply bind_Ok in Hs1 as (s2 & Hs2 & Hs1). apply _populate_shared_text_visited in Hs2.
      apply bind_Ok in Hs1 as (s3 & Hs3 & Hs1). apply _populate_shared_text_visited in Hs3.
      apply bind_Ok in Hs1 as (s4 & Hs4 & Hs1). apply _populate_shared_text_visited in Hs4.
      simpl in Hs2. rewrite <- Hs2, <- Hs3, <- Hs4.
      refine (foldM_invariant
                (λ s0, _visited_trace_frame_ids s0 = _visited_trace_frame_ids s4)
                _ _ _ s4 s1 eq_refl Hs1).
      intros sa row sb _ Ha Hrow. cbv beta in Hrow.
      apply bind_Ok in Hrow as (leaf & _ & Hrow). injection Hrow as <-. simpl.
      by destruct (mem _ _). }
    apply ran_out_bind.
    { unfold _add_trace_frame_with, get_condition_annotations. cbv zeta.
      rewrite Hnone, elements_empty. simpl.
      apply ran_out_bind; [apply ran_out__populate_shared_text|]. intros s2 _.
      apply ran_out_bind; [apply ran_out__populate_shared_text|]. intros s3 _.
      apply ran_out_bind; [apply ran_out__populate_shared_text|]. intros s4 _.
      apply ran_out_foldM. intros sa row.
      apply ran_out_bind; [apply ran_out_getitem | done]. }
    intros s1 Hs1. apply Hframe in Hs1.
    apply ran_out_bind.
    { unfold get_next_trace_frames. apply ran_out_mapR. intros a. apply ran_out_getitem. }
    intros nexts Hnexts. apply IH. unfold trace_bound. simpl.
    rewrite length_app, length_rev.
    pose proof (next_frames_bound f nexts Hnexts) as Hbound.
    pose proof (length_filter (λ id0, id0 ∉ _visited_trace_frame_ids s1 ∪ {[id]})
                  (map tf_id nexts)) as Hfilter.
    rewrite length_map in Hfilter.
    assert (Hless : (size (dom (_trace_frames graph) ∖ (_visited_trace_frame_ids s1 ∪ {[id]}))
                     < size (dom (_trace_frames graph) ∖ _visited_trace_frame_ids s))%nat).
    { rewrite Hs1. apply subset_size. apply (strict_spec_alt _ _). split; [set_solver|].
      intros Heq. assert (Hin : id ∈ dom (_trace_frames graph) ∖ _visited_trace_frame_ids s).
      { apply elem_of_difference. split; [apply elem_of_dom; eauto | done]. }
      rewrite <- Heq in Hin. set_solver. }
    nia.
Qed.

(** X23: on a source graph with no annotations, [_populate_trace] does not
    run out of fuel when it is given [trace_bound] of it: the loop ends,
    with the populated graph or with one of the exceptions of the source. *)
Theorem _populate_trace_terminates_without_annotations (s : TrimmedTraceGraph) (ids : list Z)
    (extra : nat) :
  no_annotations graph →
  ran_out (_populate_trace graph (trace_bound graph s ids + extra) s ids) = false.
Proof. intros Hnone. apply _populate_trace_enough_fuel; [done | lia]. Qed.

End FloodFillTermination.

Lemma _populate_trace_never_returns_from_own_annotation_witness :
  ∃ e, _populate_trace ex_annotated 50 ex_cycle_self [22; 21] = Raise e.
Proof.
  apply (_populate_trace_never_returns_from_own_annotation ex_annotated 50 ex_cycle_self
           [22; 21] 21).
  - exists ex_cycle_f1, [ex_note], ex_note, [ex_cycle_f1], ex_cycle_f1.
    split; [vm_compute; reflexivity|]. split; [vm_compute; reflexivity|].
    split; [apply list_elem_of_here|]. split; [vm_compute; reflexivity|].
    split; [apply list_elem_of_here | reflexivity].
  - apply not_elem_of_empty.
  - apply list_elem_of_further, list_elem_of_here.
Defined.

Lemma _populate_trace_terminates_without_annotations_witness :
  ran_out (_populate_trace ex_cycle (trace_bound ex_cycle ex_cycle_self [21] + 0)
             ex_cycle_self [21]) = false.
Proof.
  apply (_populate_trace_terminates_without_annotations ex_cycle ex_cycle_self [21] 0).
  intros k. vm_compute. reflexivity.
Defined.

(** ** Whether the whole run returns *)

Lemma ran_out_filterR {A : Type} (p : A → result bool) (l : list A) :
  (∀ a, ran_out (p a) = false) → ran_out (filterR p l) = false.
Proof.
  intros Hp. induction l as [|a l IH]; [done|]. simpl.
  apply ran_out_bind; [apply Hp | intros b _].
  apply ran_out_bind; [apply IH | done].
Qed.

Lemma filterR_Ok_length {A : Type} (p : A → result bool) (l r : list A) :
  filterR p l = Ok r → (length r ≤ length l)%nat.
Proof.
  revert r. induction l as [|a l IH]; intros r Hr; simpl in Hr.
  - injection Hr as <-. done.
  - apply bind_Ok in Hr as (b & _ & Hr). apply bind_Ok in Hr as (r0 & Hr0 & Hr).
    apply IH in Hr0. injection Hr as <-. destruct b; simpl; lia.
Qed.

Section WholeRunTermination.

Context (h : gmap nat IssueInstance) (graph : TraceGraph).
Hypothesis Hnone : no_annotations graph.

(** Without annotations [_add_trace_frame] does not call [_populate_trace]. *)
Lemma ran_out__add_trace_frame_with
    (pt : TrimmedTraceGraph → list Z → result TrimmedTraceGraph)
    (s : TrimmedTraceGraph) (f : TraceFrame) :
  ran_out (_add_trace_frame_with graph pt s f) = false.
Proof.
  unfold _add_trace_frame_with, get_condition_annotations. cbv zeta.
  rewrite Hnone, elements_empty. simpl.
  apply ran_out_bind; [apply ran_out__populate_shared_text|]. intros s2 _.
  apply ran_out_bind; [apply ran_out__populate_shared_text|]. intros s3 _.
  apply ran_out_bind; [apply ran_out__populate_shared_text|]. intros s4 _.
  apply ran_out_foldM. intros sa row.
  apply ran_out_bind; [apply ran_out_getitem | done].
Qed.

(** A flood fill from at most one id for each frame. *)
Lemma _populate_trace_fuel (fuel : nat) (s : TrimmedTraceGraph) (ids : list Z) :
  (length ids ≤ size (_trace_frames graph))%nat → (S (size (_trace_frames graph)) * S (size (_trace_frames graph)) ≤ fuel)%nat →
  ran_out (_populate_trace graph fuel s ids) = false.
Proof.
  intros Hids Hfuel. apply _populate_trace_enough_fuel; [done|].
  unfold trace_bound.
  assert (Hsize : (size (dom (_trace_frames graph) ∖ _visited_trace_frame_ids s) ≤ size (_trace_frames graph))%nat).
  { rewrite <- (size_dom (_trace_frames graph)). apply subseteq_size. set_solver. }
  nia.
Qed.

(** The first hops that [_populate_issue_trace] starts from are frames of
    the graph, each once. *)
Lemma issue_trace_ids (r0 : nat) (kind : option TraceKind) (l : list Z) :
  ∀ (acc r : TrimmedTraceGraph * list Z),
    foldM (λ (acc : TrimmedTraceGraph * list Z) trace_frame_id,
             let* frame := getitem (_trace_frames graph) trace_frame_id in
             if bool_decide (kind = None ∨ kind = Some (tf_kind frame))
             then Ok (on_tg (add_issue_instance_trace_frame_assoc (deref h r0) frame) acc.1,
                      trace_frame_id :: acc.2)
             else Ok acc)
          acc l = Ok r →
    (∀ id, id ∈ l → id ∈ dom (_trace_frames graph)) ∧
    (length r.2 ≤ length acc.2 + length l)%nat.
Proof.
  induction l as [|id l IH]; intros acc r Hfold; simpl in Hfold.
  - injection Hfold as <-. split; [intros id Hid; by apply elem_of_nil in Hid | simpl; lia].
  - apply bind_Ok in Hfold as (acc1 & Hacc1 & Hfold).
    apply bind_Ok in Hacc1 as (f & Hf%getitem_Ok & Hacc1).
    destruct (IH _ _ Hfold) as [Hall Hlen]. split.
    + intros id0 [->|Hid0]%elem_of_cons; [apply elem_of_dom; eauto | by apply Hall].
    + destruct (bool_decide _); injection Hacc1 as <-; simpl in *; lia.
Qed.

Lemma ran_out__populate_issue_trace (fuel : nat) (s : TrimmedTraceGraph) (i : Z)
    (kind : option TraceKind) :
  (S (size (_trace_frames graph)) * S (size (_trace_frames graph)) ≤ fuel)%nat →
  ran_out (_populate_issue_trace h graph fuel s i kind) = false.
Proof.
  intros Hfuel. unfold _populate_issue_trace. cbv zeta.
  apply ran_out_bind; [apply ran_out_getitem|]. intros r0 _.
  apply ran_out_bind.
  { apply ran_out_foldM. intros acc id.
    apply ran_out_bind; [apply ran_out_getitem|]. intros f _. by destruct (bool_decide _). }
  intros r Hr. apply issue_trace_ids in Hr as [Hall Hlen].
  apply _populate_trace_fuel; [|done].
  simpl in Hlen. etransitivity; [exact Hlen|].
  rewrite <- (size_dom (_trace_frames graph)).
  set (X := dget (_issue_instance_trace_frame_assoc graph) i) in *.
  change (size X ≤ size (dom (_trace_frames graph)))%nat.
  apply subseteq_size. intros id Hid. by apply Hall, elem_of_elements.
Qed.

Lemma ran_out__populate_issue_and_traces (fuel : nat) (s : TrimmedTraceGraph) (i : Z) :
  (S (size (_trace_frames graph)) * S (size (_trace_frames graph)) ≤ fuel)%nat →
  ran_out (_populate_issue_and_traces h graph fuel s i) = false.
Proof.
  intros Hfuel. unfold _populate_issue_and_traces.
  apply ran_out_bind; [apply ran_out__populate_issue|]. intros s1 _.
  by apply ran_out__populate_issue_trace.
Qed.

Lemma ran_out_get_text (id : Z) : ran_out (get_text graph id) = false.
Proof. unfold get_text. apply ran_out_bind; [apply ran_out_getitem | done]. Qed.

Lemma ran_out__populate_affected_issues (fuel : nat) (s : TrimmedTraceGraph) :
  (S (size (_trace_frames graph)) * S (size (_trace_frames graph)) ≤ fuel)%nat →
  ran_out (_populate_affected_issues h graph fuel s) = false.
Proof.
  intros Hfuel. unfold _populate_affected_issues, affected_instance_ids.
  apply ran_out_bind.
  { apply ran_out_bind; [|done]. apply ran_out_filterR. intros r.
    apply ran_out_bind; [apply ran_out_get_text | done]. }
  intros ids _. apply ran_out_foldM. intros s0 i.
  destruct (mem _ _); [done | by apply ran_out__populate_issue_and_traces].
Qed.

Lemma ran_out__populate_issues_from_affected_conditions (extra : nat)
    (s : TrimmedTraceGraph) (initial : list TraceFrame) :
  (length initial ≤ size (_trace_frames graph))%nat → (S (size (_trace_frames graph)) * S (size (_trace_frames graph)) ≤ extra)%nat →
  ran_out (_populate_issues_from_affected_conditions h graph
             (search_bound graph initial + extra) s initial) = false.
Proof.
  intros Hinitial Hextra. unfold _populate_issues_from_affected_conditions. cbv zeta.
  apply ran_out_bind; [apply backward_search_enough_fuel|]. intros st _.
  apply ran_out_bind.
  { apply _populate_trace_fuel; [by rewrite length_rev, length_map | lia]. }
  intros s1 _. apply ran_out_foldM. intros s0 id.
  apply ran_out_bind; [apply ran_out_getitem|]. intros f _.
  apply ran_out__add_trace_frame_with.
Qed.

Lemma ran_out_first_hops_of_kind (g : TraceGraph) (i : Z) (kind : TraceKind) :
  ran_out (first_hops_of_kind g i kind) = false.
Proof.
  unfold first_hops_of_kind. apply ran_out_bind; [|done]. apply ran_out_filterR. intros id.
  apply ran_out_bind; [apply ran_out_getitem | done].
Qed.

Lemma ran_out_repair_instance (fuel : nat) (s : TrimmedTraceGraph) (i : Z) :
  (S (size (_trace_frames graph)) * S (size (_trace_frames graph)) ≤ fuel)%nat →
  ran_out (repair_instance h graph fuel s i) = false.
Proof.
  intros Hfuel. unfold repair_instance.
  apply ran_out_bind; [apply ran_out_first_hops_of_kind|]. intros fwd _.
  apply ran_out_bind; [apply ran_out_first_hops_of_kind|]. intros bwd _.
  apply ran_out_bind.
  { destruct (bool_decide _); [by apply ran_out__populate_issue_trace | done]. }
  intros s1 _. destruct (bool_decide _); [by apply ran_out__populate_issue_trace | done].
Qed.

Lemma ran_out_populate_graph (s : TrimmedTraceGraph) (extra : nat) :
  ran_out (populate_graph h graph (populate_bound graph (_affected_files s) + extra) s) = false.
Proof.
  unfold populate_graph. cbv zeta.
  set (fuel := (populate_bound graph (_affected_files s) + extra)%nat).
  assert (Hfuel : (S (size (_trace_frames graph)) * S (size (_trace_frames graph)) ≤ fuel)%nat).
  { unfold fuel, populate_bound. lia. }
  apply ran_out_bind; [by apply ran_out__populate_affected_issues|]. intros s1 Hs1.
  destruct (_affected_issues_only s1); [done|].
  assert (Hfiles : _affected_files s1 = _affected_files s).
  { exact (_populate_affected_issues_keeps h graph _ fuel (set_visited ∅ s) s1
             (affected_files_stable h graph (_affected_files s)) eq_refl Hs1). }
  apply ran_out_bind.
  - unfold _populate_issues_from_affected_trace_frames. rewrite Hfiles.
    apply ran_out_bind.
    { apply ran_out_filterR. intros f.
      apply ran_out_bind; [apply ran_out_get_text | done]. }
    intros initial Hinitial. unfold fuel, populate_bound. rewrite Hinitial.
    rewrite <- Nat.add_assoc.
    apply ran_out__populate_issues_from_affected_conditions; [|lia].
    apply filterR_Ok_length in Hinitial.
    by rewrite length_fmap, length_map_to_list in Hinitial.
  - intros s2 _. apply ran_out_foldM. intros s0 i. by apply ran_out_repair_instance.
Qed.

Lemma ran_out__get_min_leaf_depth (g : TraceGraph) (ids : gset Z) :
  ran_out (_get_min_leaf_depth g ids) = false.
Proof.
  unfold _get_min_leaf_depth. apply ran_out_bind; [|by intros []].
  apply ran_out_foldM. intros m id. cbv zeta.
  apply ran_out_foldM. intros m0 row.
  apply ran_out_bind; [apply ran_out_getitem|]. intros text _.
  destruct (bool_decide _); [|done].
  destruct (row.2); [|done]. destruct m0; [|done]. by destruct (_ <? _).
Qed.

Lemma ran_out__recompute_instance_properties (h0 : gmap nat IssueInstance) (g : TraceGraph) :
  ran_out (_recompute_instance_properties h0 g) = false.
Proof.
  unfold _recompute_instance_properties. cbv zeta. apply ran_out_foldM. intros h1 r.
  unfold recompute_instance, _get_min_depth_to_sources, _get_min_depth_to_sinks.
  apply ran_out_bind.
  { apply ran_out_bind; [apply ran_out_first_hops_of_kind|]. intros ids _.
    apply ran_out__get_min_leaf_depth. }
  intros to_sources _. cbv zeta.
  apply ran_out_bind; [|done].
  apply ran_out_bind; [apply ran_out_first_hops_of_kind|]. intros ids _.
  apply ran_out__get_min_leaf_depth.
Qed.

(** X24: on a source graph with no annotations a whole run of
    [populate_from_trace_graph] ends: with [populate_bound] fuel or more the
    model does not run out of fuel in any of its loops (the flood fills,
    the backward search, the repair loop), so the run returns the trimmed
    graph or raises one of the exceptions of the source. *)
Theorem populate_from_trace_graph_terminates_without_annotations
    (self : TrimmedTraceGraph) (extra : nat) :
  ran_out (populate_from_trace_graph h graph
             (populate_bound graph (_affected_files self) + extra) self) = false.
Proof.
  unfold populate_from_trace_graph.
  apply ran_out_bind; [apply ran_out_populate_graph|]. intros s1 _.
  apply ran_out_bind; [apply ran_out__recompute_instance_properties | done].
Qed.

End WholeRunTermination.

Lemma populate_from_trace_graph_terminates_without_annotations_witness :
  ran_out (populate_from_trace_graph ex_heap ex_cycle
             (populate_bound ex_cycle (_affected_files ex_cycle_self) + 0) ex_cycle_self) = false.
Proof.
  apply (populate_from_trace_graph_terminates_without_annotations ex_heap ex_cycle).
  intros k. vm_compute. reflexivity.
Defined.

(** ** The repair loop populates the full trace of a missing direction *)


Section FullTraceRepair.

Context (h : gmap nat IssueInstance) (graph : TraceGraph).
Hypothesis Hwf : ids_registered h graph = true.














End FullTraceRepair.




(** In the example the source-ward first hop of the instance, frame 42, has
    the successor 43; step 3 leaves the instance with its sink-ward first
    hop only, and the output has the frames 42 and 43. *)
Example repair_populates_the_successors :
  leads_to ex_deep 42 43 ∧
  elements (dget (_issue_instance_trace_frame_assoc (tg ex_deep_step3)) 2) = [41] ∧
  elements (_visited_trace_frame_ids ex_deep_step3) = [41] ∧
  _trace_frames (tg ex_deep_out) !! 43 = Some ex_deep_next.
Proof.
  split; [|split; [|split]; vm_compute; reflexivity].
  exists ex_repair_post. split; [vm_compute; reflexivity|]. left.
  exists [ex_deep_next], ex_deep_next. split; [vm_compute; reflexivity|].
  split; [apply list_elem_of_here | reflexivity].
Qed.

